(** * ck_ring: a bounded single-producer ring buffer (include/ck_ring.h)

    A shallow embedding of the ring control block, of the slot array and of
    every operation of [ck_ring.h], followed by the properties the
    specification states about them.

    Three views of the code are given and related to each other:
    - [Seq]: every C function as a function in a state-and-error monad over
      the memory the call can touch (one call running alone);
    - [Conc]: every memory access of [ck_ring_enqueue_spsc],
      [ck_ring_enqueue_spsc_size], [ck_ring_trydequeue_spmc] and
      [ck_ring_dequeue_spmc] as one step of a program-counter machine, so
      that other threads can run in between;
    - [Spmc]: one producer and several consumers taking such steps in any
      order on a shared ring;
    - [Spsc]: the memory accesses of [ck_ring_dequeue_spsc] as steps of the
      same kind, and one producer and one consumer taking steps in any
      order on a shared ring.

    The embedding and the notions of the specification come first, the
    proofs after them; the last part proves further properties of the
    operations that the code shows. *)

From Stdlib Require Import ZArith List Bool Lia.
From stdpp Require Import base list.
Import ListNotations.

Local Open Scope Z_scope.

(** * The embedding *)

(** ** Machine words *)

(** [unsigned int] is 32 bits wide on every platform the library supports;
    [W] is the spec's word width. Arithmetic on it wraps modulo [2^W]. *)
Definition W : Z := 32.
Definition UINT_MOD : Z := 2 ^ W.
Definition uint (z : Z) : Z := z mod UINT_MOD.

(** An entry is an opaque [void *]; only its value as a word matters. *)
Definition ptr : Type := Z.

(** ** The ring control block

    [struct ck_ring]: the two padding arrays only affect the layout and are
    left out. *)
Record ck_ring : Type := mk_ring {
  c_head : Z;
  p_tail : Z;
  size : Z;
  mask : Z
}.

(** The addresses [&ring->c_head], [&ring->p_tail], ... *)
Inductive field : Type := C_HEAD | P_TAIL | SIZE | MASK.

Definition get_field (f : field) (r : ck_ring) : Z :=
  match f with
  | C_HEAD => c_head r
  | P_TAIL => p_tail r
  | SIZE => size r
  | MASK => mask r
  end.

Definition set_field (f : field) (v : Z) (r : ck_ring) : ck_ring :=
  match f with
  | C_HEAD => mk_ring v (p_tail r) (size r) (mask r)
  | P_TAIL => mk_ring (c_head r) v (size r) (mask r)
  | SIZE => mk_ring (c_head r) (p_tail r) v (mask r)
  | MASK => mk_ring (c_head r) (p_tail r) (size r) v
  end.

(** ** The memory a call can touch

    [ring] is the control block, [slots] the caller's slot array
    ([buf.ring], seen as [void **]), [out_size] the [unsigned int] that the
    parameter [size] of the [_size] variants points to, [out_data] the
    [void *] that the parameter [data] of the dequeue functions points to. *)
Record world : Type := mk_world {
  ring : ck_ring;
  slots : list ptr;
  out_size : Z;
  out_data : ptr
}.

(** The outcome of a call: a value and the memory after it, or undefined
    behaviour (an access outside the slot array), or a retry loop that was
    cut off. *)
Inductive result (A : Type) : Type :=
| Ok (a : A) (w : world)
| Undefined
| OutOfFuel.
Arguments Ok {A} a w.
Arguments Undefined {A}.
Arguments OutOfFuel {A}.

Definition M (A : Type) : Type := world -> result A.

Definition ret {A} (a : A) : M A := fun w => Ok a w.

Definition bind {A B} (m : M A) (k : A -> M B) : M B :=
  fun w =>
    match m w with
    | Ok a w' => k a w'
    | Undefined => Undefined
    | OutOfFuel => OutOfFuel
    end.

Notation "x <- m ;; k" := (bind m (fun x => k))
  (at level 100, m at next level, right associativity).
Notation "m ;; k" := (bind m (fun _ => k))
  (at level 100, right associativity).

(** Plain accesses to the control block: [ring->f] and [ring->f = v]. *)
Definition ring_read (f : field) : M Z :=
  fun w => Ok (get_field f (ring w)) w.

Definition ring_write (f : field) (v : Z) : M unit :=
  fun w => Ok tt (mk_world (set_field f v (ring w)) (slots w) (out_size w) (out_data w)).

(** [ring_buf[i]] as an rvalue and [ring_buf[i] = v]: an index outside the
    array is undefined behaviour. *)
Definition slot_load (i : Z) : M ptr :=
  fun w =>
    if 0 <=? i then
      match slots w !! Z.to_nat i with
      | Some v => Ok v w
      | None => Undefined
      end
    else Undefined.

Definition slot_store (i : Z) (v : ptr) : M unit :=
  fun w =>
    if (0 <=? i) && (i <? Z.of_nat (length (slots w))) then
      Ok tt (mk_world (ring w) (<[Z.to_nat i := v]> (slots w)) (out_size w) (out_data w))
    else Undefined.

(** [*size = v]. *)
Definition size_store (v : Z) : M unit :=
  fun w => Ok tt (mk_world (ring w) (slots w) v (out_data w)).

(** ** Platform primitives (ck_pr.h) *)

(** Modelled from the spec: [ck_pr_load_uint], the atomic load of a machine
    word ("atomic load/store of a machine word"); ck_pr.h is not part of the
    sources at hand. *)
Definition ck_pr_load_uint (f : field) : M Z := ring_read f.

(** Modelled from the spec: [ck_pr_store_uint], the atomic store of a
    machine word. *)
Definition ck_pr_store_uint (f : field) (v : Z) : M unit := ring_write f v.

(** Modelled from the spec: [ck_pr_load_ptr] applied to [&ring_buf[i]], the
    "true atomic volatile load" of a slot. *)
Definition ck_pr_load_ptr (i : Z) : M ptr := slot_load i.

(** Modelled from the spec: [ck_pr_store_ptr] applied to [data], which
    publishes a value to [*data]. *)
Definition ck_pr_store_ptr (v : ptr) : M unit :=
  fun w => Ok tt (mk_world (ring w) (slots w) (out_size w) v).

(** Modelled from the spec: [ck_pr_cas_uint], "compare-and-swap on a machine
    word": the word is replaced by [new] when it holds [old], and the result
    tells whether it did. *)
Definition ck_pr_cas_uint (f : field) (old new : Z) : M bool :=
  fun w =>
    if get_field f (ring w) =? old then
      Ok true (mk_world (set_field f new (ring w)) (slots w) (out_size w) (out_data w))
    else Ok false w.

(** Modelled from the spec: [ck_pr_cas_uint_value], the compare-and-swap
    that also hands back the value it found ("On failure, update [consumer]
    with the observed value"). *)
Definition ck_pr_cas_uint_value (f : field) (old new : Z) : M (bool * Z) :=
  fun w =>
    let seen := get_field f (ring w) in
    if seen =? old then
      Ok (true, seen) (mk_world (set_field f new (ring w)) (slots w) (out_size w) (out_data w))
    else Ok (false, seen) w.

(** Modelled from the spec: the three fences. Accesses take effect in program
    order in this model, so a fence does nothing. *)
Definition ck_pr_fence_load : M unit := ret tt.
Definition ck_pr_fence_store : M unit := ret tt.
Definition ck_pr_fence_memory : M unit := ret tt.

(** ** The operations, one call running alone *)

Module Seq.

Definition ck_ring_size : M Z :=
  c <- ck_pr_load_uint C_HEAD ;;
  p <- ck_pr_load_uint P_TAIL ;;
  mask <- ring_read MASK ;;
  ret (Z.land (uint (p - c)) mask).

Definition ck_ring_capacity : M Z :=
  ring_read SIZE.

Definition ck_ring_enqueue_spsc_size (entry : ptr) : M bool :=
  mask <- ring_read MASK ;;
  consumer <- ck_pr_load_uint C_HEAD ;;
  producer <- ring_read P_TAIL ;;
  let delta := uint (producer + 1) in
  size_store (Z.land (uint (producer - consumer)) mask) ;;
  if Z.land delta mask =? Z.land consumer mask then ret false
  else
    slot_store (Z.land producer mask) entry ;;
    ck_pr_fence_store ;;
    ck_pr_store_uint P_TAIL delta ;;
    ret true.

Definition ck_ring_enqueue_spsc (entry : ptr) : M bool :=
  mask <- ring_read MASK ;;
  consumer <- ck_pr_load_uint C_HEAD ;;
  producer <- ring_read P_TAIL ;;
  let delta := uint (producer + 1) in
  if Z.land delta mask =? Z.land consumer mask then ret false
  else
    slot_store (Z.land producer mask) entry ;;
    ck_pr_fence_store ;;
    ck_pr_store_uint P_TAIL delta ;;
    ret true.

Definition ck_ring_dequeue_spsc : M bool :=
  mask <- ring_read MASK ;;
  consumer <- ring_read C_HEAD ;;
  producer <- ck_pr_load_uint P_TAIL ;;
  if consumer =? producer then ret false
  else
    ck_pr_fence_load ;;
    v <- slot_load (Z.land consumer mask) ;;
    ck_pr_store_ptr v ;;
    ck_pr_fence_store ;;
    ck_pr_store_uint C_HEAD (uint (consumer + 1)) ;;
    ret true.

Definition ck_ring_enqueue_spmc_size (entry : ptr) : M bool :=
  ck_ring_enqueue_spsc_size entry.

Definition ck_ring_enqueue_spmc (entry : ptr) : M bool :=
  ck_ring_enqueue_spsc entry.

Definition ck_ring_trydequeue_spmc : M bool :=
  mask <- ring_read MASK ;;
  consumer <- ck_pr_load_uint C_HEAD ;;
  ck_pr_fence_load ;;
  producer <- ck_pr_load_uint P_TAIL ;;
  if consumer =? producer then ret false
  else
    ck_pr_fence_load ;;
    v <- slot_load (Z.land consumer mask) ;;
    ck_pr_store_ptr v ;;
    ck_pr_fence_memory ;;
    ck_pr_cas_uint C_HEAD consumer (uint (consumer + 1)).

(** The [do ... while] loop of [ck_ring_dequeue_spmc], entered with the
    current value of the local [consumer]; [fuel] bounds the number of
    iterations. *)
Fixpoint dequeue_spmc_loop (fuel : nat) (mask consumer : Z) : M bool :=
  match fuel with
  | O => fun _ => OutOfFuel
  | S fuel' =>
      ck_pr_fence_load ;;
      producer <- ck_pr_load_uint P_TAIL ;;
      if consumer =? producer then ret false
      else
        ck_pr_fence_load ;;
        r <- ck_pr_load_ptr (Z.land consumer mask) ;;
        ck_pr_fence_memory ;;
        cas <- ck_pr_cas_uint_value C_HEAD consumer (uint (consumer + 1)) ;;
        if fst cas then
          ck_pr_store_ptr r ;;
          ret true
        else dequeue_spmc_loop fuel' mask (snd cas)
  end.

Definition ck_ring_dequeue_spmc (fuel : nat) : M bool :=
  mask <- ring_read MASK ;;
  consumer <- ck_pr_load_uint C_HEAD ;;
  dequeue_spmc_loop fuel mask consumer.

(** The parameter [size] is an [unsigned int]: whatever the caller passes
    is taken modulo [2^W]. *)
Definition ck_ring_init (size : Z) : M unit :=
  let size := uint size in
  ring_write SIZE size ;;
  ring_write MASK (uint (size - 1)) ;;
  ring_write P_TAIL 0 ;;
  ring_write C_HEAD 0 ;;
  ret tt.

End Seq.

(** ** The operations, one memory access at a time

    Between two accesses of a call other threads may run. [point] names the
    places of a function body at which the next thing to happen is an access
    to memory, with the locals that are live there; [step] performs that
    access. Fences are not steps: accesses take effect in program order. *)

Module Conc.

Inductive point : Type :=
(* ck_ring_enqueue_spsc *)
| EnqStart (entry : ptr)                          (* mask = ring->mask *)
| EnqLoadHead (entry : ptr) (mask : Z)            (* consumer = load(c_head) *)
| EnqLoadTail (entry : ptr) (mask consumer : Z)   (* producer = ring->p_tail *)
| EnqStoreSlot (entry : ptr) (mask producer delta : Z)
| EnqStoreTail (entry : ptr) (delta : Z)
(* ck_ring_enqueue_spsc_size, as far as the full test *)
| EnqSizeStart (entry : ptr)
| EnqSizeLoadHead (entry : ptr) (mask : Z)
| EnqSizeLoadTail (entry : ptr) (mask consumer : Z)
| EnqSizeStore (entry : ptr) (mask consumer producer : Z)  (* *size = ... *)
(* ck_ring_trydequeue_spmc *)
| TryStart
| TryLoadHead (mask : Z)
| TryLoadTail (mask consumer : Z)
| TryLoadSlot (mask consumer : Z)
| TryStoreData (consumer : Z) (v : ptr)
| TryCas (consumer : Z)
(* ck_ring_dequeue_spmc *)
| DqStart
| DqLoadHead (mask : Z)
| DqLoadTail (mask consumer : Z)                  (* top of the loop body *)
| DqLoadSlot (mask consumer : Z)
| DqCas (mask consumer : Z) (r : ptr)
| DqStoreData (r : ptr).

(** A call is at a point of its body or has returned. *)
Inductive thread : Type :=
| At (p : point)
| Returned (b : bool).

(** The access a step performed, with the value read or written. *)
Inductive access : Type :=
| RdMask (v : Z)
| RdHead (v : Z)
| RdTail (v : Z)
| RdSlot (i : Z) (v : ptr)
| WrSlot (i : Z) (v : ptr)
| WrTail (v : Z)
| WrData (v : ptr)
| CasHead (old new : Z) (ok : bool)
| WrSize (v : Z).

Definition step (p : point) : M (access * thread) :=
  match p with
  | EnqStart entry =>
      mask <- ring_read MASK ;;
      ret (RdMask mask, At (EnqLoadHead entry mask))
  | EnqLoadHead entry mask =>
      consumer <- ck_pr_load_uint C_HEAD ;;
      ret (RdHead consumer, At (EnqLoadTail entry mask consumer))
  | EnqLoadTail entry mask consumer =>
      producer <- ring_read P_TAIL ;;
      let delta := uint (producer + 1) in
      if Z.land delta mask =? Z.land consumer mask
      then ret (RdTail producer, Returned false)
      else ret (RdTail producer, At (EnqStoreSlot entry mask producer delta))
  | EnqStoreSlot entry mask producer delta =>
      slot_store (Z.land producer mask) entry ;;
      ret (WrSlot (Z.land producer mask) entry, At (EnqStoreTail entry delta))
  | EnqStoreTail entry delta =>
      ck_pr_store_uint P_TAIL delta ;;
      ret (WrTail delta, Returned true)
  | EnqSizeStart entry =>
      mask <- ring_read MASK ;;
      ret (RdMask mask, At (EnqSizeLoadHead entry mask))
  | EnqSizeLoadHead entry mask =>
      consumer <- ck_pr_load_uint C_HEAD ;;
      ret (RdHead consumer, At (EnqSizeLoadTail entry mask consumer))
  | EnqSizeLoadTail entry mask consumer =>
      producer <- ring_read P_TAIL ;;
      ret (RdTail producer, At (EnqSizeStore entry mask consumer producer))
  | EnqSizeStore entry mask consumer producer =>
      let delta := uint (producer + 1) in
      size_store (Z.land (uint (producer - consumer)) mask) ;;
      if Z.land delta mask =? Z.land consumer mask
      then ret (WrSize (Z.land (uint (producer - consumer)) mask), Returned false)
      else ret (WrSize (Z.land (uint (producer - consumer)) mask),
                At (EnqStoreSlot entry mask producer delta))
  | TryStart =>
      mask <- ring_read MASK ;;
      ret (RdMask mask, At (TryLoadHead mask))
  | TryLoadHead mask =>
      consumer <- ck_pr_load_uint C_HEAD ;;
      ret (RdHead consumer, At (TryLoadTail mask consumer))
  | TryLoadTail mask consumer =>
      producer <- ck_pr_load_uint P_TAIL ;;
      if consumer =? producer
      then ret (RdTail producer, Returned false)
      else ret (RdTail producer, At (TryLoadSlot mask consumer))
  | TryLoadSlot mask consumer =>
      v <- slot_load (Z.land consumer mask) ;;
      ret (RdSlot (Z.land consumer mask) v, At (TryStoreData consumer v))
  | TryStoreData consumer v =>
      ck_pr_store_ptr v ;;
      ret (WrData v, At (TryCas consumer))
  | TryCas consumer =>
      ok <- ck_pr_cas_uint C_HEAD consumer (uint (consumer + 1)) ;;
      ret (CasHead consumer (uint (consumer + 1)) ok, Returned ok)
  | DqStart =>
      mask <- ring_read MASK ;;
      ret (RdMask mask, At (DqLoadHead mask))
  | DqLoadHead mask =>
      consumer <- ck_pr_load_uint C_HEAD ;;
      ret (RdHead consumer, At (DqLoadTail mask consumer))
  | DqLoadTail mask consumer =>
      producer <- ck_pr_load_uint P_TAIL ;;
      if consumer =? producer
      then ret (RdTail producer, Returned false)
      else ret (RdTail producer, At (DqLoadSlot mask consumer))
  | DqLoadSlot mask consumer =>
      r <- ck_pr_load_ptr (Z.land consumer mask) ;;
      ret (RdSlot (Z.land consumer mask) r, At (DqCas mask consumer r))
  | DqCas mask consumer r =>
      cas <- ck_pr_cas_uint_value C_HEAD consumer (uint (consumer + 1)) ;;
      if fst cas
      then ret (CasHead consumer (uint (consumer + 1)) true, At (DqStoreData r))
      else ret (CasHead consumer (uint (consumer + 1)) false, At (DqLoadTail mask (snd cas)))
  | DqStoreData r =>
      ck_pr_store_ptr r ;;
      ret (WrData r, Returned true)
  end.

(** A call running alone: its steps one after the other, at most [fuel] of
    them. *)
Fixpoint run (fuel : nat) (t : thread) : M bool :=
  match t with
  | Returned b => ret b
  | At p =>
      match fuel with
      | O => fun _ => OutOfFuel
      | S fuel' => x <- step p ;; run fuel' (snd x)
      end
  end.

(** What the other threads do between two steps of a call: anything to the
    control block and to the slot array, nothing to the caller's own
    [*size] and [*data]. *)
Definition interference : Type := ck_ring -> list ptr -> ck_ring * list ptr.

Definition interfere (f : interference) (w : world) : world :=
  mk_world (fst (f (ring w) (slots w))) (snd (f (ring w) (slots w)))
           (out_size w) (out_data w).

Definition quiet : interference := fun r s => (r, s).

(** A call running among other threads: [env] lists what the others do
    before each of its steps. The accesses made are collected in order; the
    call is cut off when [env] is used up. *)
Fixpoint exec (env : list interference) (t : thread) (w : world)
  : list access * result bool :=
  match t with
  | Returned b => ([], Ok b w)
  | At p =>
      match env with
      | [] => ([], OutOfFuel)
      | f :: env' =>
          match step p (interfere f w) with
          | Ok (a, t') w' =>
              let (tr, r) := exec env' t' w' in (a :: tr, r)
          | Undefined => ([], Undefined)
          | OutOfFuel => ([], OutOfFuel)
          end
      end
  end.

End Conc.

Import Conc.

(** ** One producer and several consumers

    The producer thread calls [ck_ring_enqueue_spmc] (which is
    [ck_ring_enqueue_spsc]) or [ck_ring_enqueue_spmc_size] (which is
    [ck_ring_enqueue_spsc_size]) again and again, each consumer thread
    calls [ck_ring_dequeue_spmc] or [ck_ring_trydequeue_spmc] again and
    again; the threads take their steps in any order, one memory access at
    a time. *)

Module Spmc.

Inductive activity : Type :=
| Idle
| Running (p : point).

Definition after (t : thread) : activity :=
  match t with
  | At p => Running p
  | Returned _ => Idle
  end.

(** A consumer thread: what it is doing, and its own [*data]. *)
Record consumer : Type := mk_consumer {
  c_act : activity;
  c_data : ptr
}.

(** The shared ring and slot array, the threads, and for the record the
    entries whose enqueue took effect (the stores to [p_tail]) and the
    entries claimed (the successful compare-and-swaps of [c_head], with the
    consumer that made them and the entry it had latched), both in the
    order in which they happened. The producer's own [*size] is not kept:
    no other thread reads it. *)
Record system : Type := mk_system {
  s_ring : ck_ring;
  s_slots : list ptr;
  s_producer : activity;
  s_consumers : list consumer;
  s_enqueued : list ptr;
  s_claimed : list (nat * ptr)
}.

(** The memory as a thread whose [*data] holds [d] sees it. *)
Definition view (s : system) (d : ptr) : world :=
  mk_world (s_ring s) (s_slots s) 0 d.

Definition stored (p : point) (a : access) : list ptr :=
  match p, a with
  | EnqStoreTail entry _, WrTail _ => [entry]
  | _, _ => []
  end.

(** [ck_ring_dequeue_spmc] has the entry in its local [r];
    [ck_ring_trydequeue_spmc] has stored it to [*data] already, which
    holds [d]. *)
Definition claimed (i : nat) (d : ptr) (p : point) (a : access)
  : list (nat * ptr) :=
  match p, a with
  | DqCas _ _ r, CasHead _ _ true => [(i, r)]
  | TryCas _, CasHead _ _ true => [(i, d)]
  | _, _ => []
  end.

(** What the scheduler can let happen next: a thread that is idle calls a
    function, or a thread in a call makes its next memory access. The
    producer calls [ck_ring_enqueue_spsc] ([ProducerCall]) or
    [ck_ring_enqueue_spsc_size] ([ProducerCallSize]), consumer [i] calls
    [ck_ring_dequeue_spmc] ([ConsumerCall]) or [ck_ring_trydequeue_spmc]
    ([ConsumerTry]). *)
Inductive event : Type :=
| ProducerCall (entry : ptr)
| ProducerStep
| ConsumerCall (i : nat)
| ConsumerStep (i : nat)
| ProducerCallSize (entry : ptr)
| ConsumerTry (i : nat).

Definition sys_do (ev : event) (s : system) : option system :=
  match ev with
  | ProducerCall entry =>
      match s_producer s with
      | Idle =>
          Some (mk_system (s_ring s) (s_slots s) (Running (EnqStart entry))
                          (s_consumers s) (s_enqueued s) (s_claimed s))
      | Running _ => None
      end
  | ProducerStep =>
      match s_producer s with
      | Running p =>
          match step p (view s 0) with
          | Ok (a, t) w =>
              Some (mk_system (ring w) (slots w) (after t) (s_consumers s)
                              (s_enqueued s ++ stored p a) (s_claimed s))
          | Undefined => None
          | OutOfFuel => None
          end
      | Idle => None
      end
  | ConsumerCall i =>
      match s_consumers s !! i with
      | Some (mk_consumer Idle d) =>
          Some (mk_system (s_ring s) (s_slots s) (s_producer s)
                          (<[i := mk_consumer (Running DqStart) d]> (s_consumers s))
                          (s_enqueued s) (s_claimed s))
      | _ => None
      end
  | ConsumerStep i =>
      match s_consumers s !! i with
      | Some (mk_consumer (Running p) d) =>
          match step p (view s d) with
          | Ok (a, t) w =>
              Some (mk_system (ring w) (slots w) (s_producer s)
                              (<[i := mk_consumer (after t) (out_data w)]>
                                 (s_consumers s))
                              (s_enqueued s) (s_claimed s ++ claimed i d p a))
          | Undefined => None
          | OutOfFuel => None
          end
      | _ => None
      end
  | ProducerCallSize entry =>
      match s_producer s with
      | Idle =>
          Some (mk_system (s_ring s) (s_slots s) (Running (EnqSizeStart entry))
                          (s_consumers s) (s_enqueued s) (s_claimed s))
      | Running _ => None
      end
  | ConsumerTry i =>
      match s_consumers s !! i with
      | Some (mk_consumer Idle d) =>
          Some (mk_system (s_ring s) (s_slots s) (s_producer s)
                          (<[i := mk_consumer (Running TryStart) d]> (s_consumers s))
                          (s_enqueued s) (s_claimed s))
      | _ => None
      end
  end.

(** A schedule, from left to right; [None] when it asks for something that
    cannot happen. *)
Fixpoint sys_run (evs : list event) (s : system) : option system :=
  match evs with
  | [] => Some s
  | ev :: evs' =>
      match sys_do ev s with
      | Some s' => sys_run evs' s'
      | None => None
      end
  end.

(** The system after [ck_ring_init (size)], with [k] idle consumers. *)
Definition sys_init (n : Z) (buf : list ptr) (k : nat) : system :=
  mk_system (mk_ring 0 0 n (uint (n - 1))) buf Idle
            (repeat (mk_consumer Idle 0) k) [] [].



End Spmc.

Import Spmc.

(** * The notions of the specification *)

(** ** Valid sizes, full rings, and the memory after a call *)

(** The precondition of [ck_ring_init]: a power of two, at least 2, that an
    [unsigned int] can hold. *)
Definition valid_size (n : Z) : bool :=
  (2 <=? n) && (n <? UINT_MOD) && (n =? 2 ^ Z.log2 n).

(** The memory after a successful enqueue of [e] and after a successful
    dequeue. *)
Definition pushed (e : ptr) (w : world) : world :=
  mk_world (set_field P_TAIL (uint (p_tail (ring w) + 1)) (ring w))
           (<[Z.to_nat (Z.land (p_tail (ring w)) (mask (ring w))) := e]> (slots w))
           (out_size w) (out_data w).

Definition popped (v : ptr) (w : world) : world :=
  mk_world (set_field C_HEAD (uint (c_head (ring w) + 1)) (ring w))
           (slots w) (out_size w) v.

Definition full (r : ck_ring) : bool :=
  Z.land (uint (p_tail r + 1)) (mask r) =? Z.land (c_head r) (mask r).

Definition snapshot (r : ck_ring) : Z :=
  Z.land (uint (p_tail r - c_head r)) (mask r).

Definition with_size (v : Z) (w : world) : world :=
  mk_world (ring w) (slots w) v (out_data w).

Definition in_slots (i : Z) (w : world) : bool :=
  (0 <=? i) && (i <? Z.of_nat (length (slots w))).

(** ** The ring as a bounded queue *)

(** The number of entries in the ring, [(p_tail - c_head) mod 2^W]. *)
Definition count (r : ck_ring) : Z := uint (p_tail r - c_head r).

(** A control block as [ck_ring_init] and the operations leave it: a valid
    size, its mask, counters that are machine words, and at most
    [size - 1] entries. *)
Record ring_ok (r : ck_ring) : Prop := mk_ring_ok {
  ok_size : valid_size (size r) = true;
  ok_mask : mask r = size r - 1;
  ok_head : 0 <= c_head r < UINT_MOD;
  ok_tail : 0 <= p_tail r < UINT_MOD;
  ok_count : count r <= mask r
}.

(** The caller's side of the contract: a slot array of exactly [size]
    slots. *)
Definition world_ok (w : world) : Prop :=
  ring_ok (ring w) /\ Z.of_nat (length (slots w)) = size (ring w).

(** The slot that counter value [n] addresses, and the entries from
    [c_head] up to [p_tail], oldest first. *)
Definition slot_at (w : world) (n : Z) : ptr :=
  default 0 (slots w !! Z.to_nat (Z.land (uint n) (mask (ring w)))).

Definition contents (w : world) : list ptr :=
  map (fun j : nat => slot_at w (c_head (ring w) + Z.of_nat j))
      (seq 0 (Z.to_nat (count (ring w)))).

(** ** Programs of one thread: a sequence of calls *)

Inductive call : Type :=
| enqueue_spsc (entry : ptr)
| enqueue_spsc_size (entry : ptr)
| enqueue_spmc (entry : ptr)
| enqueue_spmc_size (entry : ptr)
| dequeue_spsc
| trydequeue_spmc
| dequeue_spmc.

(** One retry-loop iteration is all [ck_ring_dequeue_spmc] takes when
    nothing runs in between ([dequeue_spmc_alone]). *)
Definition do_call (c : call) : M bool :=
  match c with
  | enqueue_spsc e => Seq.ck_ring_enqueue_spsc e
  | enqueue_spsc_size e => Seq.ck_ring_enqueue_spsc_size e
  | enqueue_spmc e => Seq.ck_ring_enqueue_spmc e
  | enqueue_spmc_size e => Seq.ck_ring_enqueue_spmc_size e
  | dequeue_spsc => Seq.ck_ring_dequeue_spsc
  | trydequeue_spmc => Seq.ck_ring_trydequeue_spmc
  | dequeue_spmc => Seq.ck_ring_dequeue_spmc 1
  end.

(** What the caller sees of a call: the call, the value returned, and the
    value of [*data] after it. *)
Definition observation : Type := call * bool * ptr.

Fixpoint run_calls (cs : list call) : M (list observation) :=
  match cs with
  | [] => ret []
  | c :: cs' =>
      b <- do_call c ;;
      v <- (fun w => Ok (out_data w) w) ;;
      rest <- run_calls cs' ;;
      ret ((c, b, v) :: rest)
  end.

Definition entry_of (c : call) : option ptr :=
  match c with
  | enqueue_spsc e | enqueue_spsc_size e | enqueue_spmc e | enqueue_spmc_size e => Some e
  | dequeue_spsc | trydequeue_spmc | dequeue_spmc => None
  end.

(** The entries that were put into the ring, and the entries that were
    taken out of it, in the order of the calls. *)
Definition enqueued (log : list observation) : list ptr :=
  flat_map (fun o : observation =>
              match entry_of (fst (fst o)) with
              | Some e => if snd (fst o) then [e] else []
              | None => []
              end) log.

Definition dequeued (log : list observation) : list ptr :=
  flat_map (fun o : observation =>
              match entry_of (fst (fst o)) with
              | Some _ => []
              | None => if snd (fst o) then [snd o] else []
              end) log.

Definition returns (log : list observation) : list bool :=
  map (fun o : observation => snd (fst o)) log.

(** The queue of the specification: first in, first out, holding at most
    [limit] entries. A call returns whether it took effect. *)
Definition queue_call (limit : Z) (c : call) (q : list ptr) : bool * list ptr :=
  match entry_of c with
  | Some e =>
      if Z.of_nat (length q) <? limit then (true, q ++ [e]) else (false, q)
  | None =>
      match q with
      | [] => (false, [])
      | _ :: q' => (true, q')
      end
  end.

(** A sequence of calls on the queue of the specification, with what the
    caller sees of each. [d] is the value of [*data]. *)
Fixpoint queue_run (limit : Z) (cs : list call) (q : list ptr) (d : ptr)
  : list observation * list ptr :=
  match cs with
  | [] => ([], q)
  | c :: cs' =>
      let d' := match entry_of c with Some _ => d | None => hd d q end in
      let rest := queue_run limit cs' (snd (queue_call limit c q)) d' in
      ((c, fst (queue_call limit c q), d') :: fst rest, snd rest)
  end.

Definition is_enqueue (c : call) : bool :=
  match entry_of c with Some _ => true | None => false end.

(** ** The invariant of the counters *)

(** The spec's invariant 2: [(p_tail - c_head) mod 2^W <= size]. *)
Definition ring_inv (r : ck_ring) : Prop :=
  uint (p_tail r - c_head r) <= size r.

(** Pairs of calls: put one entry, take one entry. *)
Definition pairs (put : ptr -> call) (take : call) (es : list ptr) : list call :=
  flat_map (fun e => [put e; take]) es.

(** ** Traces of one call among other threads *)

(** Every store to [*data] in a trace comes right after a compare-and-swap
    that succeeded ([armed] tells whether the access before the trace was
    one). *)
Fixpoint stores_after_cas (armed : bool) (tr : list access) : bool :=
  match tr with
  | [] => true
  | WrData _ :: tr' => armed && stores_after_cas false tr'
  | CasHead _ _ ok :: tr' => stores_after_cas ok tr'
  | _ :: tr' => stores_after_cas false tr'
  end.

Definition no_store_to_data (tr : list access) : bool :=
  forallb (fun a => match a with WrData _ => false | _ => true end) tr.

Definition is_dq (p : point) : bool :=
  match p with
  | DqStart | DqLoadHead _ | DqLoadTail _ _ | DqLoadSlot _ _ | DqCas _ _ _
  | DqStoreData _ => true
  | _ => false
  end.

(** ** The invariant of the system of threads

    [heads] and [tails] count the claims and the enqueues that took effect;
    unlike [c_head] and [p_tail] they do not wrap. *)

Definition heads (s : system) : Z := Z.of_nat (length (s_claimed s)).
Definition tails (s : system) : Z := Z.of_nat (length (s_enqueued s)).

(** What the locals of the producer are worth at each point of
    [ck_ring_enqueue_spsc] and of [ck_ring_enqueue_spsc_size]. *)
Definition producer_inv (s : system) (a : activity) : Prop :=
  match a with
  | Idle => True
  | Running (EnqStart _) | Running (EnqSizeStart _) => True
  | Running (EnqLoadHead _ m) | Running (EnqSizeLoadHead _ m) =>
      m = mask (s_ring s)
  | Running (EnqLoadTail _ m c) | Running (EnqSizeLoadTail _ m c) =>
      m = mask (s_ring s) /\
      exists hc, c = uint hc /\ 0 <= hc <= heads s /\
                 tails s - hc <= mask (s_ring s)
  | Running (EnqSizeStore _ m c p) =>
      m = mask (s_ring s) /\ p = uint (tails s) /\
      exists hc, c = uint hc /\ 0 <= hc <= heads s /\
                 tails s - hc <= mask (s_ring s)
  | Running (EnqStoreSlot _ m p d) =>
      m = mask (s_ring s) /\ p = uint (tails s) /\ d = uint (tails s + 1) /\
      tails s - heads s < mask (s_ring s)
  | Running (EnqStoreTail e d) =>
      d = uint (tails s + 1) /\
      tails s - heads s < mask (s_ring s) /\
      s_slots s !! Z.to_nat (Z.land (uint (tails s)) (mask (s_ring s))) = Some e
  | Running _ => False
  end.

(** What the locals of a consumer are worth at each point of
    [ck_ring_dequeue_spmc] and of [ck_ring_trydequeue_spmc], given the
    number [h0] of claims that had been made when it read [c_head]:
    [consumer] is [h0] as a machine word, and as long as no claim was made
    since, the slot it addresses is live and the entry it has latched (in
    [r], or in [*data] for [ck_ring_trydequeue_spmc]) is the entry in
    it. *)
Definition consumer_inv_at (s : system) (t : consumer) (h0 : Z) : Prop :=
  match c_act t with
  | Idle => True
  | Running DqStart | Running TryStart => True
  | Running (DqStoreData _) => True
  | Running (DqLoadHead m) | Running (TryLoadHead m) => m = mask (s_ring s)
  | Running (DqLoadTail m c) | Running (TryLoadTail m c) =>
      m = mask (s_ring s) /\ c = uint h0 /\ 0 <= h0 <= heads s
  | Running (DqLoadSlot m c) | Running (TryLoadSlot m c) =>
      m = mask (s_ring s) /\ c = uint h0 /\ 0 <= h0 <= heads s /\
      (heads s = h0 -> h0 < tails s)
  | Running (DqCas m c r) =>
      m = mask (s_ring s) /\ c = uint h0 /\ 0 <= h0 <= heads s /\
      (heads s = h0 -> s_enqueued s !! Z.to_nat h0 = Some r)
  | Running (TryStoreData c v) =>
      c = uint h0 /\ 0 <= h0 <= heads s /\
      (heads s = h0 -> s_enqueued s !! Z.to_nat h0 = Some v)
  | Running (TryCas c) =>
      c = uint h0 /\ 0 <= h0 <= heads s /\
      (heads s = h0 -> s_enqueued s !! Z.to_nat h0 = Some (c_data t))
  | Running _ => False
  end.

Definition consumer_inv (s : system) (t : consumer) : Prop :=
  exists h0, consumer_inv_at s t h0.

Record sys_inv (s : system) : Prop := mk_sys_inv {
  inv_size : valid_size (size (s_ring s)) = true;
  inv_mask : mask (s_ring s) = size (s_ring s) - 1;
  inv_slots : Z.of_nat (length (s_slots s)) = size (s_ring s);
  inv_head : c_head (s_ring s) = uint (heads s);
  inv_tail : p_tail (s_ring s) = uint (tails s);
  inv_count : heads s <= tails s <= heads s + mask (s_ring s);
  inv_live : forall i,
      heads s <= i < tails s ->
      s_slots s !! Z.to_nat (Z.land (uint i) (mask (s_ring s)))
      = s_enqueued s !! Z.to_nat i;
  inv_claimed :
      map snd (s_claimed s) = firstn (length (s_claimed s)) (s_enqueued s);
  inv_producer : producer_inv s (s_producer s);
  inv_consumers : Forall (consumer_inv s) (s_consumers s)
}.

(** ** Compare-and-swaps that succeed on a [c_head] that has gone round

    A compare-and-swap of [c_head] compares machine words: it cannot tell
    [c_head] unmoved from [c_head] moved on by a multiple of [2^W].
    [reads] keeps, for every consumer, the number of claims that had been
    made when it last read [c_head] (by the load at the start of the call,
    or by a compare-and-swap that failed). A run has no wrapped
    compare-and-swap when every compare-and-swap that finds in [c_head] the
    value its consumer read, and so succeeds, is made before any claim
    since that read: none succeeds after [c_head] has gone all the way
    round. *)

Definition cas_expects (p : point) : option Z :=
  match p with
  | DqCas _ c _ | TryCas c => Some c
  | _ => None
  end.

Definition note (p : point) (s : system) (h : Z) : Z :=
  match p with
  | DqLoadHead _ | TryLoadHead _ | DqCas _ _ _ => heads s
  | _ => h
  end.

Definition cas_ok (ev : event) (s : system) (g : list Z) : bool :=
  match ev with
  | ConsumerStep i =>
      match s_consumers s !! i, g !! i with
      | Some (mk_consumer (Running p) _), Some h =>
          match cas_expects p with
          | Some c => negb (c_head (s_ring s) =? c) || (heads s =? h)
          | None => true
          end
      | _, _ => true
      end
  | _ => true
  end.

Definition reads_after (ev : event) (s : system) (g : list Z) : list Z :=
  match ev with
  | ConsumerStep i =>
      match s_consumers s !! i, g !! i with
      | Some (mk_consumer (Running p) _), Some h => <[i := note p s h]> g
      | _, _ => g
      end
  | _ => g
  end.

Fixpoint all_cas_ok (evs : list event) (s : system) (g : list Z) : bool :=
  match evs with
  | [] => true
  | ev :: evs' =>
      match sys_do ev s with
      | Some s' => cas_ok ev s g && all_cas_ok evs' s' (reads_after ev s g)
      | None => true
      end
  end.

Fixpoint reads (evs : list event) (s : system) (g : list Z) : list Z :=
  match evs with
  | [] => g
  | ev :: evs' =>
      match sys_do ev s with
      | Some s' => reads evs' s' (reads_after ev s g)
      | None => g
      end
  end.

Definition no_wrapped_cas (evs : list event) (s : system) : bool :=
  all_cas_ok evs s (map (fun _ => 0) (s_consumers s)).

Definition reads_inv (s : system) (g : list Z) : Prop :=
  Forall2 (consumer_inv_at s) (s_consumers s) g.


(** ** A consumer that sleeps through [2^W] claims

    Consumer 0 has latched entry 1 and is about to compare-and-swap
    [c_head] from 0 to 1; the producer and consumer 1 go on. *)






(** * Notions for the further properties *)

(** ** Interference that leaves [c_head] alone, and failed compare-and-swaps *)

(** Threads that do not write [c_head]: the producer, for one. *)
Definition keeps_head (f : interference) : Prop :=
  forall r s, c_head (fst (f r s)) = c_head r.

Fixpoint cas_failures (tr : list access) : nat :=
  match tr with
  | [] => O
  | CasHead _ _ false :: tr' => S (cas_failures tr')
  | _ :: tr' => cas_failures tr'
  end.

(** ** [ck_ring_dequeue_spsc], one memory access at a time

    The single consumer of an SPSC ring reads [c_head] without a
    compare-and-swap and stores it back. [Spsc.point] names the places of
    [ck_ring_dequeue_spsc] as [Conc.point] does for the other calls. *)

Module Spsc.

Inductive point : Type :=
| DeqStart                               (* mask = ring->mask *)
| DeqLoadHead (mask : Z)                 (* consumer = ring->c_head *)
| DeqLoadTail (mask consumer : Z)        (* producer = load(p_tail) *)
| DeqLoadSlot (mask consumer : Z)        (* ring_buf[consumer & mask] *)
| DeqStoreData (consumer : Z) (v : ptr)  (* store(data, ...) *)
| DeqStoreHead (consumer : Z).           (* store(c_head, consumer + 1) *)

Inductive thread : Type :=
| At (p : point)
| Returned (b : bool).

Inductive access : Type :=
| RdMask (v : Z)
| RdHead (v : Z)
| RdTail (v : Z)
| RdSlot (i : Z) (v : ptr)
| WrData (v : ptr)
| WrHead (v : Z).

Definition step (p : point) : M (access * thread) :=
  match p with
  | DeqStart =>
      mask <- ring_read MASK ;;
      ret (RdMask mask, At (DeqLoadHead mask))
  | DeqLoadHead mask =>
      consumer <- ring_read C_HEAD ;;
      ret (RdHead consumer, At (DeqLoadTail mask consumer))
  | DeqLoadTail mask consumer =>
      producer <- ck_pr_load_uint P_TAIL ;;
      if consumer =? producer
      then ret (RdTail producer, Returned false)
      else ret (RdTail producer, At (DeqLoadSlot mask consumer))
  | DeqLoadSlot mask consumer =>
      v <- slot_load (Z.land consumer mask) ;;
      ret (RdSlot (Z.land consumer mask) v, At (DeqStoreData consumer v))
  | DeqStoreData consumer v =>
      ck_pr_store_ptr v ;;
      ret (WrData v, At (DeqStoreHead consumer))
  | DeqStoreHead consumer =>
      ck_pr_store_uint C_HEAD (uint (consumer + 1)) ;;
      ret (WrHead (uint (consumer + 1)), Returned true)
  end.

(** The call running alone, and among other threads, as for [Conc]. *)
Fixpoint run (fuel : nat) (t : thread) : M bool :=
  match t with
  | Returned b => ret b
  | At p =>
      match fuel with
      | O => fun _ => OutOfFuel
      | S fuel' => x <- step p ;; run fuel' (snd x)
      end
  end.

Fixpoint exec (env : list interference) (t : thread) (w : world)
  : list access * result bool :=
  match t with
  | Returned b => ([], Ok b w)
  | At p =>
      match env with
      | [] => ([], OutOfFuel)
      | f :: env' =>
          match step p (interfere f w) with
          | Ok (a, t') w' =>
              let (tr, r) := exec env' t' w' in (a :: tr, r)
          | Undefined => ([], Undefined)
          | OutOfFuel => ([], OutOfFuel)
          end
      end
  end.

(** One producer calling [ck_ring_enqueue_spsc] or
    [ck_ring_enqueue_spsc_size] and one consumer calling
    [ck_ring_dequeue_spsc], their steps in any order. The shared memory,
    the producer and the two records of what happened are those of
    [Spmc.system], without any SPMC consumer; the consumer is what it is
    doing and its own [*data]. An entry is recorded as claimed when the
    consumer stores the new [c_head], with the value that [*data] holds
    then. *)
Inductive activity : Type :=
| Idle
| Running (p : point).

Definition after (t : thread) : activity :=
  match t with
  | At p => Running p
  | Returned _ => Idle
  end.

Record system : Type := mk_system {
  shared : Spmc.system;
  consumer : activity;
  data : ptr
}.

Definition delivered (p : point) (d : ptr) : list (nat * ptr) :=
  match p with
  | DeqStoreHead _ => [(0%nat, d)]
  | _ => []
  end.

Inductive event : Type :=
| ProducerCall (entry : ptr)
| ProducerStep
| ConsumerCall
| ConsumerStep
| ProducerCallSize (entry : ptr).

Definition sys_do (ev : event) (s : system) : option system :=
  match ev with
  | ProducerCall entry =>
      match Spmc.sys_do (Spmc.ProducerCall entry) (shared s) with
      | Some sh => Some (mk_system sh (consumer s) (data s))
      | None => None
      end
  | ProducerStep =>
      match Spmc.sys_do Spmc.ProducerStep (shared s) with
      | Some sh => Some (mk_system sh (consumer s) (data s))
      | None => None
      end
  | ConsumerCall =>
      match consumer s with
      | Idle => Some (mk_system (shared s) (Running DeqStart) (data s))
      | Running _ => None
      end
  | ConsumerStep =>
      match consumer s with
      | Running p =>
          match step p (view (shared s) (data s)) with
          | Ok (a, t) w =>
              Some (mk_system
                      (Spmc.mk_system (ring w) (slots w)
                         (s_producer (shared s)) (s_consumers (shared s))
                         (s_enqueued (shared s))
                         (s_claimed (shared s) ++ delivered p (data s)))
                      (after t) (out_data w))
          | Undefined => None
          | OutOfFuel => None
          end
      | Idle => None
      end
  | ProducerCallSize entry =>
      match Spmc.sys_do (Spmc.ProducerCallSize entry) (shared s) with
      | Some sh => Some (mk_system sh (consumer s) (data s))
      | None => None
      end
  end.

Fixpoint sys_run (evs : list event) (s : system) : option system :=
  match evs with
  | [] => Some s
  | ev :: evs' =>
      match sys_do ev s with
      | Some s' => sys_run evs' s'
      | None => None
      end
  end.

Definition sys_init (n : Z) (buf : list ptr) : system :=
  mk_system (Spmc.sys_init n buf 0) Idle 0.

End Spsc.



(** ** Threads that respect the layout

    Other threads that never write [mask] and never resize the slot array:
    every function of the interface, for one. [in_bounds] says that every
    index [_ & mask] is one of the array (the buffer has more than [mask]
    slots); [point_mask] is the copy of [mask] that a call holds in its
    local, where it has read it already. *)
Definition keeps_layout (f : interference) : Prop :=
  forall r s, mask (fst (f r s)) = mask r /\ length (snd (f r s)) = length s.

Definition in_bounds (w : world) : Prop :=
  0 <= mask (ring w) < Z.of_nat (length (slots w)).

Definition point_mask (p : point) : option Z :=
  match p with
  | EnqLoadHead _ m | EnqLoadTail _ m _ | EnqStoreSlot _ m _ _
  | EnqSizeLoadHead _ m | EnqSizeLoadTail _ m _ | EnqSizeStore _ m _ _
  | TryLoadHead m | TryLoadTail m _ | TryLoadSlot m _
  | DqLoadHead m | DqLoadTail m _ | DqLoadSlot m _ | DqCas m _ _ => Some m
  | _ => None
  end.

Definition spsc_point_mask (p : Spsc.point) : option Z :=
  match p with
  | Spsc.DeqLoadHead m | Spsc.DeqLoadTail m _ | Spsc.DeqLoadSlot m _ => Some m
  | _ => None
  end.

Definition mask_ok (w : world) (m : option Z) : Prop :=
  match m with
  | Some m => m = mask (ring w)
  | None => True
  end.

(** The number of steps after which a call at [p] has returned at the
    latest; the loop of [ck_ring_dequeue_spmc] has no such number. *)
Definition steps_left (p : point) : option nat :=
  match p with
  | EnqStart _ => Some 5%nat
  | EnqLoadHead _ _ => Some 4%nat
  | EnqLoadTail _ _ _ => Some 3%nat
  | EnqStoreSlot _ _ _ _ => Some 2%nat
  | EnqStoreTail _ _ => Some 1%nat
  | EnqSizeStart _ => Some 6%nat
  | EnqSizeLoadHead _ _ => Some 5%nat
  | EnqSizeLoadTail _ _ _ => Some 4%nat
  | EnqSizeStore _ _ _ _ => Some 3%nat
  | TryStart => Some 6%nat
  | TryLoadHead _ => Some 5%nat
  | TryLoadTail _ _ => Some 4%nat
  | TryLoadSlot _ _ => Some 3%nat
  | TryStoreData _ _ => Some 2%nat
  | TryCas _ => Some 1%nat
  | _ => None
  end.

Definition spsc_steps_left (p : Spsc.point) : nat :=
  match p with
  | Spsc.DeqStart => 6
  | Spsc.DeqLoadHead _ => 5
  | Spsc.DeqLoadTail _ _ => 4
  | Spsc.DeqLoadSlot _ _ => 3
  | Spsc.DeqStoreData _ _ => 2
  | Spsc.DeqStoreHead _ => 1
  end.

(** Other threads that make progress between any two steps of a consumer:
    one entry is claimed and one enqueued, so that one entry is there. *)
Definition overtake : interference :=
  fun r s =>
    (set_field P_TAIL (uint (c_head r + 2))
       (set_field C_HEAD (uint (c_head r + 1)) r), s).

(** Where [c_head] stands, seen from a consumer in
    [ck_ring_dequeue_spmc] that is being overtaken. *)
Definition overtaken (p : point) (w : world) : Prop :=
  match p with
  | DqStart => True
  | DqLoadHead m => m = mask (ring w)
  | DqLoadTail m c =>
      m = mask (ring w) /\ 0 <= c < UINT_MOD /\ c_head (ring w) = c
  | DqLoadSlot m c =>
      m = mask (ring w) /\ 0 <= c < UINT_MOD /\ c_head (ring w) = uint (c + 1)
  | DqCas m c _ =>
      m = mask (ring w) /\ 0 <= c < UINT_MOD /\ c_head (ring w) = uint (c + 2)
  | _ => False
  end.

(** * Proofs *)

(** ** Arithmetic of counters and masks *)

Lemma UINT_MOD_pos : 0 < UINT_MOD.
Proof. reflexivity. Qed.

Lemma uint_range z : 0 <= uint z < UINT_MOD.
Proof. apply Z.mod_pos_bound, UINT_MOD_pos. Qed.

Lemma uint_small z : 0 <= z < UINT_MOD -> uint z = z.
Proof. apply Z.mod_small. Qed.

Lemma valid_size_pow2 n :
  valid_size n = true -> exists k, 1 <= k < W /\ n = 2 ^ k.
Proof.
  unfold valid_size. rewrite !andb_true_iff, Z.leb_le, Z.ltb_lt, Z.eqb_eq.
  intros [[H2 Hlt] Hpow]. exists (Z.log2 n). split; [|exact Hpow].
  split.
  - apply Z.log2_le_pow2; [lia|]. exact H2.
  - apply Z.log2_lt_pow2; [lia|]. exact Hlt.
Qed.

Lemma uint_succ_sub p c :
  uint (p - c) + 1 < UINT_MOD -> uint (uint (p + 1) - c) = uint (p - c) + 1.
Proof.
  intros H. pose proof (uint_range (p - c)). unfold uint in *.
  rewrite Zminus_mod_idemp_l.
  replace (p + 1 - c) with ((p - c) + 1) by lia.
  rewrite <- Zplus_mod_idemp_l. apply Z.mod_small. lia.
Qed.

Lemma uint_sub_succ p c :
  1 <= uint (p - c) -> uint (p - uint (c + 1)) = uint (p - c) - 1.
Proof.
  intros H. pose proof (uint_range (p - c)). unfold uint in *.
  rewrite Zminus_mod_idemp_r.
  replace (p - (c + 1)) with ((p - c) - 1) by lia.
  rewrite <- Zminus_mod_idemp_l. apply Z.mod_small. lia.
Qed.

Lemma uint_sub_0 p c :
  0 <= c < UINT_MOD -> 0 <= p < UINT_MOD -> (uint (p - c) = 0 <-> c = p).
Proof.
  intros Hc Hp. unfold uint. split; intros H.
  - destruct (Z_le_gt_dec c p).
    + rewrite Z.mod_small in H by lia. lia.
    + replace (p - c) with ((p - c + UINT_MOD) + (-1) * UINT_MOD) in H by lia.
      rewrite Z_mod_plus_full, Z.mod_small in H by lia. lia.
  - subst. rewrite Z.sub_diag. reflexivity.
Qed.

Section Mask.
Variable k : Z.
Hypothesis Hk : 1 <= k < W.

Lemma pow_k_bounds : 2 <= 2 ^ k /\ 2 * 2 ^ k <= UINT_MOD.
Proof.
  split.
  - change 2 with (2 ^ 1) at 1. apply Z.pow_le_mono_r; lia.
  - unfold UINT_MOD. replace W with (Z.succ (W - 1)) by lia.
    rewrite Z.pow_succ_r by (unfold W; lia).
    assert (2 ^ k <= 2 ^ (W - 1))
      by (apply Z.pow_le_mono_r; unfold W in *; lia).
    lia.
Qed.

Lemma pow_k_divides : (2 ^ k | UINT_MOD).
Proof.
  exists (2 ^ (W - k)). unfold UINT_MOD.
  rewrite <- Z.pow_add_r by lia. f_equal. lia.
Qed.

Lemma land_mask x : Z.land x (2 ^ k - 1) = x mod 2 ^ k.
Proof.
  replace (2 ^ k - 1) with (Z.ones k) by (rewrite Z.ones_equiv; lia).
  apply Z.land_ones. lia.
Qed.

Lemma land_mask_range x : 0 <= Z.land x (2 ^ k - 1) < 2 ^ k.
Proof.
  rewrite land_mask. apply Z.mod_pos_bound.
  pose proof pow_k_bounds. lia.
Qed.

Lemma uint_mod_mask x : uint x mod 2 ^ k = x mod 2 ^ k.
Proof. unfold uint. apply Z.mod_mod_divide, pow_k_divides. Qed.

Lemma mod_eq_iff a b : a mod 2 ^ k = b mod 2 ^ k <-> (a - b) mod 2 ^ k = 0.
Proof.
  split; intros H.
  - rewrite Zminus_mod, H, Z.sub_diag. apply Zmod_0_l.
  - replace a with (b + (a - b)) at 1 by lia.
    rewrite Zplus_mod, H, Z.add_0_r. apply Zmod_mod.
Qed.

(** The full test of enqueue compares the counters modulo the size: it
    holds exactly when [size - 1] entries are in the ring. *)
Lemma full_iff c p :
  uint (p - c) <= 2 ^ k - 1 ->
  Z.land (uint (p + 1)) (2 ^ k - 1) = Z.land c (2 ^ k - 1) <->
  uint (p - c) = 2 ^ k - 1.
Proof.
  intros Hn. pose proof pow_k_bounds as [Hb Hb'].
  rewrite !land_mask, uint_mod_mask, mod_eq_iff.
  replace ((p + 1 - c) mod 2 ^ k) with ((uint (p - c) + 1) mod 2 ^ k).
  2:{ rewrite Zplus_mod, uint_mod_mask, <- Zplus_mod. f_equal. lia. }
  pose proof (uint_range (p - c)).
  split; intros H1.
  - destruct (Z.eq_dec (uint (p - c)) (2 ^ k - 1)) as [|Hne]; [done|].
    rewrite Z.mod_small in H1 by lia. lia.
  - rewrite H1. replace (2 ^ k - 1 + 1) with (2 ^ k) by lia.
    apply Z_mod_same_full.
Qed.

(** Counter values less than a size apart address different slots. *)
Lemma slot_distinct a b :
  0 < b - a < 2 ^ k ->
  Z.land (uint a) (2 ^ k - 1) <> Z.land (uint b) (2 ^ k - 1).
Proof.
  intros Hab. rewrite !land_mask, !uint_mod_mask. intros Heq.
  symmetry in Heq. apply mod_eq_iff in Heq.
  rewrite Z.mod_small in Heq by lia. lia.
Qed.

Lemma slot_same a b :
  uint a = uint b -> Z.land a (2 ^ k - 1) = Z.land b (2 ^ k - 1).
Proof.
  intros Heq. rewrite !land_mask, <- (uint_mod_mask a), <- (uint_mod_mask b).
  now rewrite Heq.
Qed.
End Mask.

(** ** What each call does, in closed form *)

Lemma enqueue_spsc_eq e w :
  Seq.ck_ring_enqueue_spsc e w =
  if full (ring w) then Ok false w
  else if in_slots (Z.land (p_tail (ring w)) (mask (ring w))) w
       then Ok true (pushed e w) else Undefined.
Proof.
  cbv [Seq.ck_ring_enqueue_spsc bind ret ring_read ck_pr_load_uint get_field full].
  cbv zeta. destruct (_ =? _); [reflexivity|].
  cbv [slot_store ck_pr_fence_store ck_pr_store_uint ring_write ret bind in_slots].
  destruct (_ && _); reflexivity.
Qed.

Lemma enqueue_spsc_size_eq e w :
  Seq.ck_ring_enqueue_spsc_size e w =
  let w1 := with_size (snapshot (ring w)) w in
  if full (ring w) then Ok false w1
  else if in_slots (Z.land (p_tail (ring w)) (mask (ring w))) w
       then Ok true (pushed e w1) else Undefined.
Proof.
  cbv [Seq.ck_ring_enqueue_spsc_size bind ret ring_read ck_pr_load_uint
       get_field full size_store].
  cbv zeta. cbn [ring]. destruct (_ =? _); [reflexivity|].
  cbv [slot_store ck_pr_fence_store ck_pr_store_uint ring_write ret bind in_slots
       with_size].
  cbn [slots ring out_size out_data]. destruct (_ && _); reflexivity.
Qed.

Lemma dequeue_spsc_eq w :
  Seq.ck_ring_dequeue_spsc w =
  if c_head (ring w) =? p_tail (ring w) then Ok false w
  else if 0 <=? Z.land (c_head (ring w)) (mask (ring w)) then
    match slots w !! Z.to_nat (Z.land (c_head (ring w)) (mask (ring w))) with
    | Some v => Ok true (popped v w)
    | None => Undefined
    end
  else Undefined.
Proof.
  cbv [Seq.ck_ring_dequeue_spsc bind ret ring_read ck_pr_load_uint get_field].
  destruct (_ =? _); [reflexivity|].
  cbv [slot_load ck_pr_fence_load ck_pr_fence_store ck_pr_store_uint ck_pr_store_ptr
       ring_write ret bind].
  destruct (0 <=? _); [|reflexivity].
  destruct (_ !! _); reflexivity.
Qed.

(** Alone, the compare-and-swap of the multi-consumer dequeues finds the
    value that was just loaded, so both behave as [ck_ring_dequeue_spsc]. *)
Lemma trydequeue_spmc_alone w :
  Seq.ck_ring_trydequeue_spmc w = Seq.ck_ring_dequeue_spsc w.
Proof.
  rewrite dequeue_spsc_eq.
  cbv [Seq.ck_ring_trydequeue_spmc bind ret ring_read ck_pr_load_uint get_field
       ck_pr_fence_load].
  destruct (_ =? _); [reflexivity|].
  cbv [slot_load ck_pr_fence_memory ck_pr_cas_uint ck_pr_store_ptr ret bind].
  destruct (0 <=? _); [|reflexivity].
  destruct (_ !! _); [|reflexivity].
  cbn [ring get_field]. rewrite Z.eqb_refl. reflexivity.
Qed.

Lemma dequeue_spmc_alone fuel w :
  Seq.ck_ring_dequeue_spmc (S fuel) w = Seq.ck_ring_dequeue_spsc w.
Proof.
  rewrite dequeue_spsc_eq.
  cbv [Seq.ck_ring_dequeue_spmc Seq.dequeue_spmc_loop bind ret ring_read
       ck_pr_load_uint get_field ck_pr_fence_load].
  destruct (_ =? _); [reflexivity|].
  cbv [ck_pr_load_ptr slot_load ck_pr_fence_memory ck_pr_cas_uint_value
       ck_pr_store_ptr ret bind].
  destruct (0 <=? _); [|reflexivity].
  destruct (_ !! _); [|reflexivity].
  cbn [ring get_field]. rewrite Z.eqb_refl. reflexivity.
Qed.

Lemma init_eq n w :
  Seq.ck_ring_init n w =
  Ok tt (mk_world (mk_ring 0 0 (uint n) (uint (uint n - 1)))
                  (slots w) (out_size w) (out_data w)).
Proof. reflexivity. Qed.

Lemma size_eq w :
  Seq.ck_ring_size w = Ok (snapshot (ring w)) w.
Proof. reflexivity. Qed.

(** ** The ring as a bounded queue *)

Lemma contents_length w : length (contents w) = Z.to_nat (count (ring w)).
Proof. unfold contents. now rewrite length_map, length_seq. Qed.

Lemma ring_ok_pow2 r :
  ring_ok r -> exists k, 1 <= k < W /\ size r = 2 ^ k /\ mask r = 2 ^ k - 1.
Proof.
  intros [Hs Hm _ _ _]. destruct (valid_size_pow2 _ Hs) as (k & Hk & Hp).
  exists k. rewrite Hm, Hp. auto.
Qed.

Lemma count_range r : 0 <= count r < UINT_MOD.
Proof. apply uint_range. Qed.

Lemma full_count r : ring_ok r -> (full r = true <-> count r = mask r).
Proof.
  intros Hok. destruct (ring_ok_pow2 r Hok) as (k & Hk & Hsz & Hm).
  unfold full, count. rewrite Z.eqb_eq, Hm.
  apply full_iff; [exact Hk|].
  rewrite <- Hm. apply Hok.
Qed.

Lemma empty_count r : ring_ok r -> (c_head r =? p_tail r) = (count r =? 0).
Proof.
  intros Hok. apply eq_true_iff_eq. rewrite !Z.eqb_eq.
  symmetry. apply uint_sub_0; apply Hok.
Qed.

Lemma index_in_slots w n :
  world_ok w ->
  0 <= Z.land n (mask (ring w)) < Z.of_nat (length (slots w)).
Proof.
  intros [Hok Hlen]. destruct (ring_ok_pow2 _ Hok) as (k & Hk & Hsz & Hm).
  rewrite Hlen, Hsz, Hm. apply land_mask_range. exact Hk.
Qed.

Lemma index_in_slots_nat w n :
  world_ok w ->
  (Z.to_nat (Z.land n (mask (ring w))) < length (slots w))%nat.
Proof.
  intros Hw. pose proof (index_in_slots w n Hw) as H.
  apply Nat2Z.inj_lt. rewrite Z2Nat.id; apply H.
Qed.

Lemma pushed_ring_ok e w :
  ring_ok (ring w) -> count (ring w) < mask (ring w) ->
  ring_ok (ring (pushed e w)) /\ count (ring (pushed e w)) = count (ring w) + 1.
Proof.
  intros Hok Hroom.
  destruct (ring_ok_pow2 _ Hok) as (k & Hk & Hsz & Hm).
  pose proof (pow_k_bounds k Hk) as [Hb1 Hb2].
  assert (Hc : count (ring (pushed e w)) = count (ring w) + 1).
  { unfold pushed, count. cbn. apply uint_succ_sub. fold (count (ring w)). lia. }
  split; [|exact Hc].
  constructor; cbn; try apply Hok.
  - apply uint_range.
  - change (count (ring (pushed e w)) <= mask (ring w)). rewrite Hc. lia.
Qed.

Lemma pushed_ok e w :
  world_ok w -> count (ring w) < mask (ring w) ->
  world_ok (pushed e w) /\ count (ring (pushed e w)) = count (ring w) + 1.
Proof.
  intros [Hok Hlen] Hroom.
  destruct (pushed_ring_ok e w Hok Hroom) as [Hok' Hc].
  split; [|exact Hc]. split; [exact Hok'|].
  cbn. rewrite length_insert. exact Hlen.
Qed.

Lemma pushed_contents e w :
  world_ok w -> count (ring w) < mask (ring w) ->
  contents (pushed e w) = contents w ++ [e].
Proof.
  intros Hw Hroom. destruct (pushed_ok e w Hw Hroom) as [_ Hc].
  destruct Hw as [Hok Hlen].
  destruct (ring_ok_pow2 _ Hok) as (k & Hk & Hsz & Hm).
  pose proof (count_range (ring w)) as Hcr.
  unfold contents. rewrite Hc.
  replace (Z.to_nat (count (ring w) + 1)) with (Z.to_nat (count (ring w)) + 1)%nat by lia.
  rewrite seq_app, map_app. f_equal.
  - apply map_ext_in. intros j Hj. apply in_seq in Hj.
    unfold slot_at, pushed. cbn. rewrite Hm.
    rewrite list_lookup_insert_ne; [reflexivity|].
    intros Heq. apply Z2Nat.inj in Heq; try apply land_mask_range; try exact Hk.
    revert Heq.
    rewrite (slot_same k Hk (p_tail (ring w)) (uint (c_head (ring w) + count (ring w)))).
    2:{ unfold count, uint. rewrite Zmod_mod, Zplus_mod_idemp_r.
        f_equal. lia. }
    intros Heq. symmetry in Heq. revert Heq.
    apply slot_distinct; [exact Hk|]. rewrite Hm in Hroom. lia.
  - cbn. f_equal. unfold slot_at, pushed. cbn. rewrite Hm.
    rewrite (slot_same k Hk (uint (c_head (ring w) + Z.of_nat (Z.to_nat (count (ring w)))))
                            (p_tail (ring w))).
    2:{ unfold count, uint. rewrite Z2Nat.id by apply Z.mod_pos_bound, UINT_MOD_pos.
        rewrite Zmod_mod, Zplus_mod_idemp_r. f_equal. lia. }
    rewrite list_lookup_insert_eq; [reflexivity|].
    rewrite <- Hm. apply index_in_slots_nat. now split.
Qed.

Lemma popped_ring_ok v w :
  ring_ok (ring w) -> 1 <= count (ring w) ->
  ring_ok (ring (popped v w)) /\ count (ring (popped v w)) = count (ring w) - 1.
Proof.
  intros Hok Hne.
  assert (Hc : count (ring (popped v w)) = count (ring w) - 1).
  { unfold popped, count. cbn. now apply uint_sub_succ. }
  split; [|exact Hc].
  constructor; cbn; try apply Hok.
  - apply uint_range.
  - change (count (ring (popped v w)) <= mask (ring w)). rewrite Hc.
    pose proof (ok_count _ Hok). lia.
Qed.

Lemma popped_ok v w :
  world_ok w -> 1 <= count (ring w) ->
  world_ok (popped v w) /\ count (ring (popped v w)) = count (ring w) - 1.
Proof.
  intros [Hok Hlen] Hne.
  destruct (popped_ring_ok v w Hok Hne) as [Hok' Hc].
  split; [|exact Hc]. split; [exact Hok'|exact Hlen].
Qed.

Lemma popped_contents v w :
  world_ok w -> 1 <= count (ring w) ->
  contents w = slot_at w (c_head (ring w)) :: contents (popped v w).
Proof.
  intros Hw Hne. destruct (popped_ok v w Hw Hne) as [_ Hc].
  destruct Hw as [Hok Hlen].
  destruct (ring_ok_pow2 _ Hok) as (k & Hk & Hsz & Hm).
  unfold contents. rewrite Hc.
  replace (Z.to_nat (count (ring w))) with (S (Z.to_nat (count (ring w) - 1))) by lia.
  cbn [seq map]. f_equal.
  - f_equal. lia.
  - rewrite <- seq_shift, map_map. apply map_ext. intros j.
    unfold slot_at, popped. cbn. rewrite Hm. do 3 f_equal.
    apply slot_same; [exact Hk|]. unfold uint.
    rewrite !Zmod_mod, Zplus_mod_idemp_l. f_equal. lia.
Qed.

Lemma head_slot w :
  world_ok w ->
  slots w !! Z.to_nat (Z.land (c_head (ring w)) (mask (ring w)))
  = Some (slot_at w (c_head (ring w))).
Proof.
  intros Hw. unfold slot_at.
  rewrite (uint_small (c_head (ring w))) by apply Hw.
  pose proof (index_in_slots_nat w (c_head (ring w)) Hw) as Hlt.
  destruct (slots w !! _) as [v|] eqn:Hv; [reflexivity|].
  apply lookup_ge_None in Hv. lia.
Qed.

(** [ck_ring_enqueue_spsc] appends to the queue unless [size - 1] entries
    are in it; [ck_ring_dequeue_spsc] removes the oldest entry unless there
    is none. *)
Lemma enqueue_spsc_spec e w :
  world_ok w ->
  Seq.ck_ring_enqueue_spsc e w =
  if count (ring w) =? mask (ring w) then Ok false w else Ok true (pushed e w).
Proof.
  intros Hw. rewrite enqueue_spsc_eq.
  pose proof (full_count _ (proj1 Hw)) as Hfull.
  destruct (full (ring w)).
  - rewrite (proj1 Hfull eq_refl), Z.eqb_refl. reflexivity.
  - destruct (Z.eqb_spec (count (ring w)) (mask (ring w))) as [Heq|_].
    + apply Hfull in Heq. discriminate.
    + unfold in_slots.
      pose proof (index_in_slots w (p_tail (ring w)) Hw) as [H0 H1].
      apply Z.leb_le in H0. apply Z.ltb_lt in H1. now rewrite H0, H1.
Qed.

Lemma dequeue_spsc_spec w :
  world_ok w ->
  Seq.ck_ring_dequeue_spsc w =
  if count (ring w) =? 0 then Ok false w
  else Ok true (popped (slot_at w (c_head (ring w))) w).
Proof.
  intros Hw. rewrite dequeue_spsc_eq, (empty_count _ (proj1 Hw)).
  destruct (count (ring w) =? 0); [reflexivity|].
  pose proof (index_in_slots w (c_head (ring w)) Hw) as [H0 _].
  apply Z.leb_le in H0. rewrite H0, (head_slot w Hw). reflexivity.
Qed.

Lemma size_spec w :
  world_ok w -> Seq.ck_ring_size w = Ok (count (ring w)) w.
Proof.
  intros [Hok _]. rewrite size_eq. f_equal. unfold snapshot.
  destruct (ring_ok_pow2 _ Hok) as (k & Hk & Hsz & Hm).
  rewrite Hm, land_mask by exact Hk. apply Z.mod_small.
  pose proof (ok_count _ Hok) as Hc. pose proof (count_range (ring w)).
  unfold count in *. lia.
Qed.

Lemma init_ok n w :
  valid_size n = true -> Z.of_nat (length (slots w)) = n ->
  exists w0, Seq.ck_ring_init n w = Ok tt w0 /\ world_ok w0 /\
             count (ring w0) = 0 /\ slots w0 = slots w /\
             out_size w0 = out_size w /\ out_data w0 = out_data w /\
             size (ring w0) = n.
Proof.
  intros Hn Hlen. eexists. split; [apply init_eq|].
  destruct (valid_size_pow2 n Hn) as (k & Hk & Hp).
  pose proof (pow_k_bounds k Hk) as [Hb1 Hb2].
  rewrite (uint_small n) by lia.
  cbn. repeat split; try reflexivity; try assumption; cbn; try lia.
  - apply uint_small. lia.
  - rewrite uint_small by lia. change (count _) with 0. lia.
Qed.

(** ** Programs of one thread refine the queue of the specification *)

Ltac conj_all := repeat lazymatch goal with |- _ /\ _ => split end.

Lemma enqueue_spsc_size_as_spsc e w :
  Seq.ck_ring_enqueue_spsc_size e w =
  match Seq.ck_ring_enqueue_spsc e w with
  | Ok b w' => Ok b (with_size (snapshot (ring w)) w')
  | Undefined => Undefined
  | OutOfFuel => OutOfFuel
  end.
Proof.
  rewrite enqueue_spsc_size_eq, enqueue_spsc_eq. cbv zeta.
  destruct (full (ring w)); [reflexivity|].
  unfold in_slots, with_size. cbn [slots].
  destruct (_ && _); reflexivity.
Qed.

(** Every call is a step of the bounded queue with limit [size - 1]. *)
Lemma do_call_refines c w :
  world_ok w ->
  exists w',
    do_call c w = Ok (fst (queue_call (mask (ring w)) c (contents w))) w' /\
    world_ok w' /\
    contents w' = snd (queue_call (mask (ring w)) c (contents w)) /\
    size (ring w') = size (ring w) /\ mask (ring w') = mask (ring w) /\
    out_data w' = match entry_of c with
                  | Some _ => out_data w
                  | None => hd (out_data w) (contents w)
                  end.
Proof.
  intros Hw.
  assert (Hput : forall e, exists w',
    Seq.ck_ring_enqueue_spsc e w
      = Ok (fst (queue_call (mask (ring w)) (enqueue_spsc e) (contents w))) w' /\
    world_ok w' /\
    contents w' = snd (queue_call (mask (ring w)) (enqueue_spsc e) (contents w)) /\
    size (ring w') = size (ring w) /\ mask (ring w') = mask (ring w) /\
    out_data w' = out_data w).
  { intros e. rewrite (enqueue_spsc_spec e w Hw). unfold queue_call. cbn [entry_of].
    rewrite contents_length.
    pose proof (count_range (ring w)) as Hr.
    pose proof (ok_count _ (proj1 Hw)) as Hc.
    rewrite Z2Nat.id by lia.
    destruct (Z.eqb_spec (count (ring w)) (mask (ring w))) as [Heq|Hne].
    - rewrite Heq, Z.ltb_irrefl. exists w. cbn [fst snd]. conj_all; auto.
    - assert (Hlt : count (ring w) < mask (ring w)) by lia.
      rewrite (proj2 (Z.ltb_lt _ _) Hlt). exists (pushed e w). cbn [fst snd].
      split; [reflexivity|]. split; [apply pushed_ok; assumption|].
      split; [apply pushed_contents; assumption|]. cbn. conj_all; auto. }
  assert (Htake : exists w',
    Seq.ck_ring_dequeue_spsc w
      = Ok (fst (queue_call (mask (ring w)) dequeue_spsc (contents w))) w' /\
    world_ok w' /\
    contents w' = snd (queue_call (mask (ring w)) dequeue_spsc (contents w)) /\
    size (ring w') = size (ring w) /\ mask (ring w') = mask (ring w) /\
    out_data w' = hd (out_data w) (contents w)).
  { rewrite (dequeue_spsc_spec w Hw). unfold queue_call. cbn [entry_of].
    pose proof (count_range (ring w)) as Hr.
    destruct (Z.eqb_spec (count (ring w)) 0) as [Heq|Hne].
    - assert (Hnil : contents w = []).
      { apply length_zero_iff_nil. rewrite contents_length, Heq. reflexivity. }
      rewrite Hnil. exists w. cbn [fst snd hd]. conj_all; auto.
    - assert (Hpos : 1 <= count (ring w)) by lia.
      rewrite (popped_contents (slot_at w (c_head (ring w))) w Hw Hpos).
      eexists. cbn [fst snd hd]. split; [reflexivity|].
      split; [apply popped_ok; assumption|]. cbn. conj_all; auto. }
  destruct c; cbn [do_call entry_of];
    unfold Seq.ck_ring_enqueue_spmc, Seq.ck_ring_enqueue_spmc_size;
    rewrite ?enqueue_spsc_size_as_spsc, ?trydequeue_spmc_alone, ?dequeue_spmc_alone;
    try exact Htake; try apply Hput.
  all: destruct (Hput entry) as (w' & Hrun & Hok & Hc & Hs & Hm & Hd);
    rewrite Hrun; exists (with_size (snapshot (ring w)) w');
    (split; [reflexivity|]); conj_all; auto.
Qed.

(** The calls of a thread running alone on a ring that is in order are
    defined, and do to the ring what they do to the bounded queue. *)
Lemma run_calls_refines cs : forall w,
  world_ok w ->
  exists w',
    run_calls cs w
      = Ok (fst (queue_run (mask (ring w)) cs (contents w) (out_data w))) w' /\
    world_ok w' /\
    contents w' = snd (queue_run (mask (ring w)) cs (contents w) (out_data w)) /\
    size (ring w') = size (ring w) /\ mask (ring w') = mask (ring w).
Proof.
  induction cs as [|c cs IH]; intros w Hw.
  - exists w. cbn. conj_all; auto.
  - destruct (do_call_refines c w Hw) as (w1 & Hrun & Hok1 & Hc1 & Hs1 & Hm1 & Hd1).
    destruct (IH w1 Hok1) as (w2 & Hrun2 & Hok2 & Hc2 & Hs2 & Hm2).
    exists w2. cbn [run_calls queue_run fst snd]. unfold bind at 1. rewrite Hrun.
    unfold bind at 1. unfold bind at 1. rewrite Hrun2.
    rewrite Hm1, Hc1, Hd1 in *. conj_all; auto; congruence.
Qed.

(** First in, first out: what was in the queue followed by what was put in
    is what was taken out followed by what is left. *)
Lemma queue_run_fifo limit cs : forall q d,
  q ++ enqueued (fst (queue_run limit cs q d))
  = dequeued (fst (queue_run limit cs q d)) ++ snd (queue_run limit cs q d).
Proof.
  induction cs as [|c cs IH]; intros q d.
  - cbn. apply app_nil_r.
  - cbn [queue_run fst snd enqueued dequeued flat_map].
    set (d' := match entry_of c with Some _ => d | None => hd d q end).
    specialize (IH (snd (queue_call limit c q)) d').
    unfold enqueued, dequeued in IH.
    set (rest := queue_run limit cs (snd (queue_call limit c q)) d') in *.
    rewrite <- (app_assoc _ _ (snd rest)), <- IH, !app_assoc. f_equal.
    unfold queue_call, d'. destruct (entry_of c) as [e|].
    + destruct (_ <? _); cbn; [reflexivity|apply app_nil_r].
    + destruct q; cbn; rewrite ?app_nil_r; reflexivity.
Qed.

(** What a call that returned did to the control block and to the slot
    array, whatever the state it ran in. *)
Lemma do_call_inv c w b w' :
  do_call c w = Ok b w' ->
  match entry_of c with
  | Some e =>
      (b = false /\ full (ring w) = true /\ ring w' = ring w /\ slots w' = slots w) \/
      (b = true /\ full (ring w) = false /\
       ring w' = ring (pushed e w) /\ slots w' = slots (pushed e w))
  | None =>
      (b = false /\ c_head (ring w) = p_tail (ring w) /\
       ring w' = ring w /\ slots w' = slots w /\ out_data w' = out_data w) \/
      (b = true /\ c_head (ring w) <> p_tail (ring w) /\
       ring w' = ring (popped 0 w) /\ slots w' = slots w /\
       slots w !! Z.to_nat (Z.land (c_head (ring w)) (mask (ring w))) = Some (out_data w'))
  end.
Proof.
  assert (Hput : forall e b w', Seq.ck_ring_enqueue_spsc e w = Ok b w' ->
    (b = false /\ full (ring w) = true /\ ring w' = ring w /\ slots w' = slots w) \/
    (b = true /\ full (ring w) = false /\
     ring w' = ring (pushed e w) /\ slots w' = slots (pushed e w))).
  { intros e b0 w0. rewrite enqueue_spsc_eq. destruct (full (ring w)).
    - intros [= <- <-]. left. auto.
    - destruct (in_slots _ _); [|discriminate]. intros [= <- <-]. right. auto. }
  assert (Htake : forall b w', Seq.ck_ring_dequeue_spsc w = Ok b w' ->
    (b = false /\ c_head (ring w) = p_tail (ring w) /\
     ring w' = ring w /\ slots w' = slots w /\ out_data w' = out_data w) \/
    (b = true /\ c_head (ring w) <> p_tail (ring w) /\
     ring w' = ring (popped 0 w) /\ slots w' = slots w /\
     slots w !! Z.to_nat (Z.land (c_head (ring w)) (mask (ring w))) = Some (out_data w'))).
  { intros b0 w0. rewrite dequeue_spsc_eq.
    destruct (Z.eqb_spec (c_head (ring w)) (p_tail (ring w))) as [Heq|Hne].
    - intros [= <- <-]. left. auto.
    - destruct (0 <=? _); [|discriminate].
      destruct (_ !! _) as [v|] eqn:Hv; [|discriminate].
      intros [= <- <-]. right. cbn. auto. }
  destruct c; cbn [do_call entry_of];
    unfold Seq.ck_ring_enqueue_spmc, Seq.ck_ring_enqueue_spmc_size;
    rewrite ?enqueue_spsc_size_as_spsc, ?trydequeue_spmc_alone, ?dequeue_spmc_alone;
    try apply Htake; try apply Hput.
  all: destruct (Seq.ck_ring_enqueue_spsc entry w) as [b0 w0| |] eqn:Hrun;
    try discriminate; intros [= <- <-]; apply (Hput _ _ _ Hrun).
Qed.

Lemma do_call_counters c w b w' :
  do_call c w = Ok b w' ->
  size (ring w') = size (ring w) /\ mask (ring w') = mask (ring w) /\
  c_head (ring w')
    = (if b && negb (is_enqueue c)
       then uint (c_head (ring w) + 1) else c_head (ring w)) /\
  p_tail (ring w')
    = (if b && is_enqueue c
       then uint (p_tail (ring w) + 1) else p_tail (ring w)).
Proof.
  intros Hrun. apply do_call_inv in Hrun. unfold is_enqueue.
  destruct (entry_of c) as [e|];
    destruct Hrun as [(-> & _ & Hr & _)|(-> & _ & Hr & _)]; rewrite Hr;
    cbn; auto.
Qed.


Lemma run_calls_counters cs : forall w log w',
  0 <= c_head (ring w) < UINT_MOD -> 0 <= p_tail (ring w) < UINT_MOD ->
  run_calls cs w = Ok log w' ->
  c_head (ring w') = uint (c_head (ring w) + Z.of_nat (length (dequeued log))) /\
  p_tail (ring w') = uint (p_tail (ring w) + Z.of_nat (length (enqueued log))).
Proof.
  induction cs as [|c cs IH]; intros w log w' Hc Hp.
  - intros [= <- <-]. cbn. rewrite !Z.add_0_r, !uint_small by assumption. auto.
  - cbn [run_calls]. unfold bind at 1.
    destruct (do_call c w) as [b w1| |] eqn:Hcall; try discriminate.
    unfold bind at 1. unfold bind at 1.
    destruct (run_calls cs w1) as [rest w2| |] eqn:Hrest; try discriminate.
    intros [= <- <-].
    destruct (do_call_counters _ _ _ _ Hcall) as (_ & _ & Hc1 & Hp1).
    assert (Hr1 : 0 <= c_head (ring w1) < UINT_MOD /\ 0 <= p_tail (ring w1) < UINT_MOD).
    { rewrite Hc1, Hp1.
      unfold is_enqueue. destruct b, (entry_of c); cbn [andb negb];
        split; try assumption; apply uint_range. }
    destruct (IH _ _ _ (proj1 Hr1) (proj2 Hr1) Hrest) as [Hc2 Hp2].
    rewrite Hc2, Hp2, Hc1, Hp1. unfold is_enqueue.
    unfold enqueued, dequeued. cbn [flat_map fst snd].
    rewrite !length_app.
    fold (enqueued rest). fold (dequeued rest).
    destruct (entry_of c) as [e|], b; cbn [andb negb length];
      unfold uint; rewrite ?Zplus_mod_idemp_l; split; f_equal; try lia.
Qed.

(** ** Enqueue on a full ring *)

(** C2: [ck_ring_enqueue_spsc] and [ck_ring_enqueue_spsc_size] return false
    exactly when [((p_tail + 1) & mask) == (c_head & mask)] for the counters
    they read; so on a ring of size 4 that starts empty the first three
    enqueues return true and the fourth returns false. *)
Theorem enqueue_false_iff_full :
  (forall e w,
      (exists w', Seq.ck_ring_enqueue_spsc e w = Ok false w') <->
      Z.land (uint (p_tail (ring w) + 1)) (mask (ring w))
      = Z.land (c_head (ring w)) (mask (ring w))) /\
  (forall e w,
      (exists w', Seq.ck_ring_enqueue_spsc_size e w = Ok false w') <->
      Z.land (uint (p_tail (ring w) + 1)) (mask (ring w))
      = Z.land (c_head (ring w)) (mask (ring w))) /\
  (forall a b c d s0 s1 s2 s3 r sz dt,
      (Seq.ck_ring_init 4 ;;
       run_calls [enqueue_spsc a; enqueue_spsc b; enqueue_spsc c; enqueue_spsc d])
        (mk_world r [s0; s1; s2; s3] sz dt)
      = Ok [(enqueue_spsc a, true, dt); (enqueue_spsc b, true, dt);
            (enqueue_spsc c, true, dt); (enqueue_spsc d, false, dt)]
           (mk_world (mk_ring 0 3 4 3) [a; b; c; s3] sz dt)) /\
  (forall a b c d s0 s1 s2 s3 r sz dt,
      (Seq.ck_ring_init 4 ;;
       run_calls [enqueue_spsc_size a; enqueue_spsc_size b;
                  enqueue_spsc_size c; enqueue_spsc_size d])
        (mk_world r [s0; s1; s2; s3] sz dt)
      = Ok [(enqueue_spsc_size a, true, dt); (enqueue_spsc_size b, true, dt);
            (enqueue_spsc_size c, true, dt); (enqueue_spsc_size d, false, dt)]
           (mk_world (mk_ring 0 3 4 3) [a; b; c; s3] 3 dt)).
Proof.
  assert (Hfull : forall r,
    full r = true <->
    Z.land (uint (p_tail r + 1)) (mask r) = Z.land (c_head r) (mask r))
    by (intros r; apply Z.eqb_eq).
  split; [|split; [|split]].
  - intros e w. rewrite <- Hfull, enqueue_spsc_eq.
    destruct (full (ring w)).
    + split; eauto.
    + split; [|discriminate]. intros [w' Hrun].
      destruct (in_slots _ _); discriminate.
  - intros e w. rewrite <- Hfull, enqueue_spsc_size_eq. cbv zeta.
    destruct (full (ring w)).
    + split; eauto.
    + split; [|discriminate]. intros [w' Hrun].
      destruct (in_slots _ _); discriminate.
  - reflexivity.
  - reflexivity.
Qed.

(** C4, as the code has it: on a full ring every enqueue variant returns
    false and leaves the control block, the slot array and [*data] as they
    were; [ck_ring_enqueue_spsc] and [ck_ring_enqueue_spmc] store nothing
    at all, the two [_size] variants store the length snapshot to [*size],
    which they do before the full test. *)
Theorem enqueue_full_stores :
  forall e w,
    full (ring w) = true ->
    Seq.ck_ring_enqueue_spsc e w = Ok false w /\
    Seq.ck_ring_enqueue_spmc e w = Ok false w /\
    Seq.ck_ring_enqueue_spsc_size e w
      = Ok false (mk_world (ring w) (slots w) (snapshot (ring w)) (out_data w)) /\
    Seq.ck_ring_enqueue_spmc_size e w
      = Ok false (mk_world (ring w) (slots w) (snapshot (ring w)) (out_data w)).
Proof.
  intros e w Hfull.
  unfold Seq.ck_ring_enqueue_spmc, Seq.ck_ring_enqueue_spmc_size.
  rewrite enqueue_spsc_eq, enqueue_spsc_size_eq. cbv zeta. rewrite Hfull.
  auto.
Qed.

Lemma enqueue_full_stores_witness :
  let w := mk_world (mk_ring 0 3 4 3) [11; 12; 13; 0] 77 0 in
  full (ring w) = true /\
  Seq.ck_ring_enqueue_spsc 14 w = Ok false w /\
  Seq.ck_ring_enqueue_spmc 14 w = Ok false w /\
  Seq.ck_ring_enqueue_spsc_size 14 w
  = Ok false (mk_world (ring w) (slots w) (snapshot (ring w)) (out_data w)) /\
  Seq.ck_ring_enqueue_spmc_size 14 w
  = Ok false (mk_world (ring w) (slots w) (snapshot (ring w)) (out_data w)).
Proof.
  cbv zeta. split; [reflexivity|].
  apply (enqueue_full_stores 14 (mk_world (mk_ring 0 3 4 3) [11; 12; 13; 0] 77 0)).
  reflexivity.
Defined.

(** C4 as stated fails for the [_size] variants: on a full ring of size 4
    whose [*size] holds 77, [ck_ring_enqueue_spsc_size] returns false and
    has overwritten [*size] with 3. *)
Lemma enqueue_size_full_overwrites_size :
  let w := mk_world (mk_ring 0 3 4 3) [11; 12; 13; 0] 77 0 in
  full (ring w) = true /\
  Seq.ck_ring_enqueue_spsc_size 14 w
  = Ok false (mk_world (mk_ring 0 3 4 3) [11; 12; 13; 0] 3 0) /\
  Seq.ck_ring_enqueue_spsc_size 14 w <> Ok false w.
Proof.
  cbv zeta. split; [reflexivity|]. split; [reflexivity|]. discriminate.
Qed.

(** ** The length snapshot of the [_size] variants *)

(** C5: whatever [ck_ring_enqueue_spsc_size] (or
    [ck_ring_enqueue_spmc_size], which calls it) returns, it has written to [*size] the length
    [(p_tail - c_head) & mask] of the counters it read before the
    insertion. *)
Theorem enqueue_size_snapshot :
  (forall e w b w',
      Seq.ck_ring_enqueue_spsc_size e w = Ok b w' ->
      out_size w'
      = Z.land (uint (p_tail (ring w) - c_head (ring w))) (mask (ring w))) /\
  (forall e w b w',
      Seq.ck_ring_enqueue_spmc_size e w = Ok b w' ->
      out_size w'
      = Z.land (uint (p_tail (ring w) - c_head (ring w))) (mask (ring w))).
Proof.
  assert (H : forall e w b w',
    Seq.ck_ring_enqueue_spsc_size e w = Ok b w' ->
    out_size w'
    = Z.land (uint (p_tail (ring w) - c_head (ring w))) (mask (ring w))).
  { intros e w b w'. rewrite enqueue_spsc_size_eq. cbv zeta.
    destruct (full (ring w)).
    - intros [= <- <-]. reflexivity.
    - destruct (in_slots _ _); [|discriminate]. intros [= <- <-]. reflexivity. }
  split; exact H.
Qed.

(** The snapshot is written when the insertion succeeds (two entries in a
    ring of size 4) and when it does not (three entries). *)
Lemma enqueue_size_snapshot_witness :
  (Seq.ck_ring_enqueue_spsc_size 14 (mk_world (mk_ring 5 7 4 3) [0; 11; 12; 0] 77 0)
   = Ok true (mk_world (mk_ring 5 8 4 3) [0; 11; 12; 14] 2 0) /\
   out_size (mk_world (mk_ring 5 8 4 3) [0; 11; 12; 14] 2 0)
   = Z.land (uint (7 - 5)) 3) /\
  (Seq.ck_ring_enqueue_spsc_size 14 (mk_world (mk_ring 5 8 4 3) [13; 11; 12; 0] 77 0)
   = Ok false (mk_world (mk_ring 5 8 4 3) [13; 11; 12; 0] 3 0) /\
   out_size (mk_world (mk_ring 5 8 4 3) [13; 11; 12; 0] 3 0)
   = Z.land (uint (8 - 5)) 3).
Proof.
  split; (split; [reflexivity|]).
  - apply (proj1 enqueue_size_snapshot 14
             (mk_world (mk_ring 5 7 4 3) [0; 11; 12; 0] 77 0) true).
    reflexivity.
  - apply (proj1 enqueue_size_snapshot 14
             (mk_world (mk_ring 5 8 4 3) [13; 11; 12; 0] 77 0) false).
    reflexivity.
Defined.

(** ** The producer side of SPMC *)

(** C8: [ck_ring_enqueue_spmc] is [ck_ring_enqueue_spsc] and
    [ck_ring_enqueue_spmc_size] is [ck_ring_enqueue_spsc_size]: the same
    result, the same memory afterwards, [*size] included. *)
Theorem enqueue_spmc_is_spsc :
  forall e w,
    Seq.ck_ring_enqueue_spmc e w = Seq.ck_ring_enqueue_spsc e w /\
    Seq.ck_ring_enqueue_spmc_size e w = Seq.ck_ring_enqueue_spsc_size e w.
Proof. intros e w. split; reflexivity. Qed.

(** ** The invariant of the counters *)




(** The bound alone is not what the operations preserve: they preserve
    [count <= size - 1]. On a control block that no sequence of calls
    produces, with [size] entries counted, [ck_ring_enqueue_spsc] finds
    room and counts [size + 1]. *)
Remark ring_inv_needs_reachability :
  let w := mk_world (mk_ring 0 4 4 3) [11; 12; 13; 14] 0 0 in
  ring_inv (ring w) /\
  Seq.ck_ring_enqueue_spsc 15 w
  = Ok true (mk_world (mk_ring 0 5 4 3) [15; 12; 13; 14] 0 0) /\
  ~ ring_inv (mk_ring 0 5 4 3).
Proof.
  cbv zeta. split; [|split].
  - unfold ring_inv. vm_compute. discriminate.
  - vm_compute. reflexivity.
  - unfold ring_inv. vm_compute. intros H. apply H. reflexivity.
Qed.

(** ** First in, first out *)

Lemma queue_run_puts limit es : forall q d cs,
  Z.of_nat (length q + length es) <= limit ->
  queue_run limit (map enqueue_spsc es ++ cs) q d
  = (map (fun e => (enqueue_spsc e, true, d)) es
       ++ fst (queue_run limit cs (q ++ es) d),
     snd (queue_run limit cs (q ++ es) d)).
Proof.
  induction es as [|e es IH]; intros q d cs Hlen.
  - cbn. rewrite app_nil_r. now destruct (queue_run limit cs q d).
  - cbn [map app queue_run entry_of].
    assert (Hcall : queue_call limit (enqueue_spsc e) q = (true, q ++ [e])).
    { unfold queue_call. cbn [entry_of].
      destruct (Z.ltb_spec (Z.of_nat (length q)) limit) as [_|Hge]; [reflexivity|].
      cbn [length] in Hlen. lia. }
    rewrite Hcall. cbn [fst snd]. rewrite IH.
    + rewrite <- app_assoc. reflexivity.
    + rewrite length_app. cbn [length] in *. lia.
Qed.

Lemma queue_run_takes limit vs : forall q d,
  queue_run limit (repeat dequeue_spsc (length vs)) (vs ++ q) d
  = (map (fun v => (dequeue_spsc, true, v)) vs, q).
Proof.
  induction vs as [|v vs IH]; intros q d.
  - reflexivity.
  - cbn [length repeat queue_run entry_of app queue_call fst snd hd map].
    rewrite IH. reflexivity.
Qed.

Lemma queue_run_round_trip limit es d :
  Z.of_nat (length es) <= limit ->
  queue_run limit (map enqueue_spsc es ++ repeat dequeue_spsc (length es)) [] d
  = (map (fun e => (enqueue_spsc e, true, d)) es
       ++ map (fun e => (dequeue_spsc, true, e)) es, []).
Proof.
  intros Hlen. rewrite queue_run_puts by (cbn [length]; lia). cbn [app].
  pose proof (queue_run_takes limit es [] d) as Ht.
  rewrite app_nil_r in Ht. rewrite Ht. reflexivity.
Qed.

Lemma queue_run_pairs limit put take :
  (forall e, entry_of (put e) = Some e) -> entry_of take = None ->
  1 <= limit ->
  forall es d,
    returns (fst (queue_run limit (pairs put take es) [] d))
    = repeat true (2 * length es) /\
    enqueued (fst (queue_run limit (pairs put take es) [] d)) = es /\
    dequeued (fst (queue_run limit (pairs put take es) [] d)) = es /\
    snd (queue_run limit (pairs put take es) [] d) = [].
Proof.
  intros Hput Htake Hlimit. induction es as [|e es IH]; intros d.
  - cbn. auto.
  - cbn [pairs flat_map app queue_run].
    fold (pairs put take es).
    assert (Hc1 : queue_call limit (put e) [] = (true, [e])).
    { unfold queue_call. rewrite Hput. cbn [length].
      destruct (Z.ltb_spec (Z.of_nat 0) limit); [reflexivity|lia]. }
    assert (Hc2 : queue_call limit take [e] = (true, [])).
    { unfold queue_call. now rewrite Htake. }
    rewrite Hc1. cbn [fst snd]. rewrite Hc2. cbn [fst snd].
    rewrite Hput, Htake. cbn [hd].
    destruct (IH e) as (Hr & He & Hd & Hq).
    unfold returns, enqueued, dequeued in *.
    cbn [map flat_map fst snd]. rewrite Hput, Htake. cbn [app].
    rewrite Hr, He, Hd, Hq.
    replace (2 * length (e :: es))%nat with (S (S (2 * length es))) by (cbn; lia).
    auto.
Qed.

(** C1: on a ring initialised with a valid size, enqueuing at most
    [size - 1] entries one by one and then calling [ck_ring_dequeue_spsc]
    as many times gives true every time and the entries back in the order
    they went in, leaving the ring empty; and whatever calls one thread
    makes, the entries taken out so far are a prefix of the entries put
    in. *)
Theorem spsc_round_trip :
  forall n w es,
    valid_size n = true ->
    Z.of_nat (length (slots w)) = n ->
    Z.of_nat (length es) <= n - 1 ->
    (exists w',
        (Seq.ck_ring_init n ;;
         run_calls (map enqueue_spsc es ++ repeat dequeue_spsc (length es))) w
        = Ok (map (fun e => (enqueue_spsc e, true, out_data w)) es
                ++ map (fun e => (dequeue_spsc, true, e)) es) w' /\
        c_head (ring w') = p_tail (ring w')) /\
    (forall cs log w',
        (Seq.ck_ring_init n ;; run_calls cs) w = Ok log w' ->
        dequeued log `prefix_of` enqueued log).
Proof.
  intros n w es Hn Hlen Hes.
  destruct (init_ok n w Hn Hlen) as (w0 & Hinit & Hok0 & Hc0 & _ & _ & Hd0 & Hs0).
  assert (Hq0 : contents w0 = []).
  { apply length_zero_iff_nil. rewrite contents_length, Hc0. reflexivity. }
  assert (Hm0 : mask (ring w0) = n - 1).
  { rewrite (ok_mask _ (proj1 Hok0)), Hs0. reflexivity. }
  split.
  - destruct (run_calls_refines
                (map enqueue_spsc es ++ repeat dequeue_spsc (length es)) w0 Hok0)
      as (w' & Hrun & Hok' & Hc' & _ & _).
    exists w'. unfold bind at 1. rewrite Hinit.
    rewrite Hq0, Hm0, Hd0, queue_run_round_trip in Hrun, Hc' by exact Hes.
    cbn [fst snd] in Hrun, Hc'.
    split; [exact Hrun|].
    assert (Hz : count (ring w') = 0).
    { pose proof (contents_length w') as Hl. rewrite Hc' in Hl. cbn in Hl.
      pose proof (count_range (ring w')). lia. }
    apply (uint_sub_0 _ _ (ok_head _ (proj1 Hok')) (ok_tail _ (proj1 Hok'))).
    exact Hz.
  - intros cs log w'. unfold bind at 1. rewrite Hinit. intros Hrun.
    destruct (run_calls_refines cs w0 Hok0) as (w1 & Hrun1 & _ & Hc1 & _ & _).
    rewrite Hrun in Hrun1. injection Hrun1 as Hlog _.
    pose proof (queue_run_fifo (mask (ring w0)) cs (contents w0) (out_data w0)) as Hf.
    rewrite <- Hlog, Hq0 in Hf. cbn [app] in Hf.
    rewrite Hf. eexists. reflexivity.
Qed.

Lemma spsc_round_trip_witness :
  valid_size 4 = true /\
  Z.of_nat (length [0; 0; 0; 0]) = 4 /\
  Z.of_nat (length [11; 12; 13]) <= 4 - 1 /\
  exists w',
    (Seq.ck_ring_init 4 ;;
     run_calls (map enqueue_spsc [11; 12; 13] ++ repeat dequeue_spsc 3))
      (mk_world (mk_ring 9 9 9 9) [0; 0; 0; 0] 0 0)
    = Ok (map (fun e => (enqueue_spsc e, true, 0)) [11; 12; 13]
            ++ map (fun e => (dequeue_spsc, true, e)) [11; 12; 13]) w' /\
    c_head (ring w') = p_tail (ring w').
Proof.
  assert (Hn : valid_size 4 = true) by (vm_compute; reflexivity).
  assert (Hlen : Z.of_nat (length [0; 0; 0; 0]) = 4) by reflexivity.
  assert (Hes : Z.of_nat (length [11; 12; 13]) <= 4 - 1) by (cbn; lia).
  split; [exact Hn|]. split; [exact Hlen|]. split; [exact Hes|].
  exact (proj1 (spsc_round_trip 4 (mk_world (mk_ring 9 9 9 9) [0; 0; 0; 0] 0 0)
                  [11; 12; 13] Hn Hlen Hes)).
Defined.

(** ** Counter wrap-around *)

Lemma run_calls_app cs1 : forall cs2 w,
  run_calls (cs1 ++ cs2) w
  = match run_calls cs1 w with
    | Ok log1 w1 =>
        match run_calls cs2 w1 with
        | Ok log2 w2 => Ok (log1 ++ log2) w2
        | Undefined => Undefined
        | OutOfFuel => OutOfFuel
        end
    | Undefined => Undefined
    | OutOfFuel => OutOfFuel
    end.
Proof.
  induction cs1 as [|c cs1 IH]; intros cs2 w.
  - cbn [app]. change (run_calls [] w) with (Ok (@nil observation) w).
    cbv beta iota. destruct (run_calls cs2 w); reflexivity.
  - cbn [app].
    change (run_calls (c :: cs1 ++ cs2) w)
      with (match do_call c w with
            | Ok b w1 =>
                match run_calls (cs1 ++ cs2) w1 with
                | Ok rest w2 => Ok ((c, b, out_data w1) :: rest) w2
                | Undefined => Undefined
                | OutOfFuel => OutOfFuel
                end
            | Undefined => Undefined
            | OutOfFuel => OutOfFuel
            end).
    change (run_calls (c :: cs1) w)
      with (match do_call c w with
            | Ok b w1 =>
                match run_calls cs1 w1 with
                | Ok rest w2 => Ok ((c, b, out_data w1) :: rest) w2
                | Undefined => Undefined
                | OutOfFuel => OutOfFuel
                end
            | Undefined => Undefined
            | OutOfFuel => OutOfFuel
            end).
    destruct (do_call c w) as [b w1| |]; try reflexivity.
    rewrite IH.
    destruct (run_calls cs1 w1) as [log1 w2| |]; try reflexivity.
    destruct (run_calls cs2 w2); reflexivity.
Qed.

(** Pairs of one enqueue and one dequeue on an empty ring, wherever its
    counters stand. *)
Lemma pairs_run w es put take :
  world_ok w ->
  c_head (ring w) = p_tail (ring w) ->
  (forall e, entry_of (put e) = Some e) -> entry_of take = None ->
  exists log w',
    run_calls (pairs put take es) w = Ok log w' /\
    returns log = repeat true (2 * length es) /\
    enqueued log = es /\
    dequeued log = es /\
    world_ok w' /\ contents w' = [] /\
    c_head (ring w') = uint (c_head (ring w) + Z.of_nat (length es)) /\
    p_tail (ring w') = c_head (ring w').
Proof.
  intros Hw Hempty Hput' Htake'.
  destruct (ring_ok_pow2 _ (proj1 Hw)) as (k & Hk & Hsz & Hm).
  pose proof (pow_k_bounds k Hk) as [Hb1 Hb2].
  assert (Hq : contents w = []).
  { apply length_zero_iff_nil. rewrite contents_length. unfold count.
    rewrite <- Hempty, Z.sub_diag. reflexivity. }
  destruct (run_calls_refines (pairs put take es) w Hw)
    as (w' & Hrun & Hok' & Hc' & Hs' & Hm').
  rewrite Hq in Hrun, Hc'.
  destruct (queue_run_pairs (mask (ring w)) put take Hput' Htake' ltac:(lia)
              es (out_data w)) as (Hr & He & Hd & Hn).
  eexists. exists w'. split; [exact Hrun|].
  split; [exact Hr|]. split; [exact He|]. split; [exact Hd|].
  split; [exact Hok'|]. split; [rewrite Hc'; exact Hn|].
  destruct (run_calls_counters _ _ _ _ (ok_head _ (proj1 Hw)) (ok_tail _ (proj1 Hw)) Hrun)
    as [Hch Hpt].
  rewrite He in Hpt. rewrite Hd in Hch. rewrite <- Hempty in Hpt.
  split; congruence.
Qed.

(** C7: the counters are compared and subtracted modulo [2^W] and slots are
    addressed by [counter & mask], so on an empty ring whose counters stand
    less than [2 * size] below [2^W], [2 * size] pairs of one enqueue and
    one dequeue (any enqueue variant, any dequeue variant) all return true
    and hand the entries back in the order they went in, while the counters
    wrap around to [c_head + 2 * size - 2^W]; [ck_ring_size] then reports
    an empty ring. In the middle of every pair, after the enqueue,
    [ck_ring_size] returns 1 and the snapshot that
    [ck_ring_enqueue_spsc_size] would write to [*size] is 1; so they are in
    the middle of the pair at which [p_tail] has wrapped to 0 and [c_head]
    stands at [2^W - 1], which is one of these pairs. *)
Theorem wraparound_pairs :
  forall w es put take,
    world_ok w ->
    c_head (ring w) = p_tail (ring w) ->
    UINT_MOD - 2 * size (ring w) <= c_head (ring w) ->
    Z.of_nat (length es) = 2 * size (ring w) ->
    In put [enqueue_spsc; enqueue_spsc_size; enqueue_spmc; enqueue_spmc_size] ->
    In take [dequeue_spsc; trydequeue_spmc; dequeue_spmc] ->
    size (ring w) <= 2 ^ (W - 1) /\
    (exists log w',
      run_calls (pairs put take es) w = Ok log w' /\
      returns log = repeat true (2 * length es) /\
      enqueued log = es /\
      dequeued log = es /\
      c_head (ring w') = c_head (ring w) + 2 * size (ring w) - UINT_MOD /\
      p_tail (ring w') = c_head (ring w') /\
      Seq.ck_ring_size w' = Ok 0 w') /\
    0 <= UINT_MOD - 1 - c_head (ring w) < Z.of_nat (length es) /\
    (forall k e,
        (k <= length es)%nat ->
        exists log1 w1,
          run_calls (pairs put take (firstn k es) ++ [put e]) w = Ok log1 w1 /\
          returns log1 = repeat true (2 * k + 1) /\
          c_head (ring w1) = uint (c_head (ring w) + Z.of_nat k) /\
          p_tail (ring w1) = uint (c_head (ring w) + Z.of_nat k + 1) /\
          (Z.of_nat k = UINT_MOD - 1 - c_head (ring w) ->
           c_head (ring w1) = UINT_MOD - 1 /\ p_tail (ring w1) = 0) /\
          contents w1 = [e] /\
          Seq.ck_ring_size w1 = Ok 1 w1 /\
          forall e', exists b w2,
            Seq.ck_ring_enqueue_spsc_size e' w1 = Ok b w2 /\ out_size w2 = 1).
Proof.
  intros w es put take Hw Hempty Hnear Hlen Hput Htake.
  destruct (ring_ok_pow2 _ (proj1 Hw)) as (k & Hk & Hsz & Hm).
  pose proof (pow_k_bounds k Hk) as [Hb1 Hb2].
  pose proof (ok_head _ (proj1 Hw)) as Hh.
  split.
  { rewrite Hsz. apply Z.pow_le_mono_r; lia. }
  assert (Hput' : forall e, entry_of (put e) = Some e).
  { intros e. cbn in Hput.
    destruct Hput as [<-|[<-|[<-|[<-|[]]]]]; reflexivity. }
  assert (Htake' : entry_of take = None).
  { cbn in Htake. destruct Htake as [<-|[<-|[<-|[]]]]; reflexivity. }
  split; [|split; [lia|]].
  - destruct (pairs_run w es put take Hw Hempty Hput' Htake')
      as (log & w' & Hrun & Hr & He & Hd & Hok' & Hc' & Hch & Hpt).
    exists log, w'. split; [exact Hrun|].
    split; [exact Hr|]. split; [exact He|]. split; [exact Hd|].
    assert (Hwrap : uint (c_head (ring w) + Z.of_nat (length es))
                    = c_head (ring w) + 2 * size (ring w) - UINT_MOD).
    { unfold uint. rewrite Hlen.
      transitivity ((c_head (ring w) + 2 * size (ring w) - UINT_MOD) mod UINT_MOD).
      - rewrite <- (Z_mod_plus_full (c_head (ring w) + 2 * size (ring w) - UINT_MOD)
                      1 UINT_MOD).
        f_equal. lia.
      - apply Z.mod_small. lia. }
    split; [congruence|]. split; [exact Hpt|].
    rewrite (size_spec w' Hok'). f_equal.
    pose proof (contents_length w') as Hl. rewrite Hc' in Hl. cbn in Hl.
    pose proof (count_range (ring w')). lia.
  - intros j e Hj.
    destruct (pairs_run w (firstn j es) put take Hw Hempty Hput' Htake')
      as (log & w' & Hrun & Hr & He & Hd & Hok' & Hc' & Hch & Hpt).
    rewrite length_firstn, Nat.min_l in Hr, Hch by exact Hj.
    destruct (do_call_refines (put e) w' Hok')
      as (w1 & Hcall & Hok1 & Hc1 & Hs1 & Hm1 & _).
    assert (Hmask : mask (ring w') = 2 ^ k - 1).
    { destruct (ring_ok_pow2 _ (proj1 Hok')) as (k' & Hk' & Hsz' & Hm').
      destruct (run_calls_refines (pairs put take (firstn j es)) w Hw)
        as (w0 & Hrun0 & _ & _ & _ & Hm0).
      rewrite Hrun in Hrun0. injection Hrun0 as _ <-. congruence. }
    unfold queue_call in Hcall, Hc1. rewrite Hput', Hc' in Hcall, Hc1.
    cbn [length] in Hcall, Hc1.
    destruct (Z.ltb_spec (Z.of_nat 0) (mask (ring w'))) as [_|Hbad]; [|lia].
    cbn [fst snd app] in Hcall, Hc1.
    destruct (do_call_counters _ _ _ _ Hcall) as (_ & _ & Hch1 & Hpt1).
    unfold is_enqueue in Hch1, Hpt1. rewrite Hput' in Hch1, Hpt1.
    cbn [andb negb] in Hch1, Hpt1.
    assert (Hcount : count (ring w1) = 1).
    { pose proof (contents_length w1) as Hl. rewrite Hc1 in Hl. cbn [length] in Hl.
      pose proof (count_range (ring w1)). lia. }
    assert (Htail : p_tail (ring w1) = uint (c_head (ring w) + Z.of_nat j + 1)).
    { rewrite Hpt1, Hpt, Hch. unfold uint. apply Zplus_mod_idemp_l. }
    eexists. exists w1. split.
    { rewrite run_calls_app, Hrun. cbn [run_calls]. unfold bind at 1.
      rewrite Hcall. reflexivity. }
    split.
    { unfold returns in *. rewrite map_app, Hr. cbn [map fst snd ret].
      rewrite repeat_app. reflexivity. }
    split; [rewrite Hch1; exact Hch|]. split; [exact Htail|].
    split.
    { intros Hwrap. rewrite Htail, Hch1, Hch.
      replace (c_head (ring w) + Z.of_nat j) with (UINT_MOD - 1) by lia.
      split; reflexivity. }
    split; [exact Hc1|].
    split; [rewrite (size_spec w1 Hok1), Hcount; reflexivity|].
    intros e'. rewrite enqueue_spsc_size_as_spsc, (enqueue_spsc_spec e' w1 Hok1).
    pose proof (size_spec w1 Hok1) as Hsize. rewrite size_eq in Hsize.
    injection Hsize as Hsnap. rewrite Hsnap, Hcount.
    destruct (1 =? mask (ring w1)); eexists; eexists; split; reflexivity.
Qed.

(** Boundary scenario 6 of the spec: size 8, counters 5 below [2^32], 16
    pairs; after the enqueue of the fifth pair [c_head] is [2^32 - 1],
    [p_tail] is 0 and [ck_ring_size] returns 1. *)
Lemma wraparound_pairs_witness :
  let w := mk_world (mk_ring 4294967291 4294967291 8 7) [0; 0; 0; 0; 0; 0; 0; 0] 0 0 in
  let es := [11; 12; 13; 14; 15; 16; 17; 18; 19; 20; 21; 22; 23; 24; 25; 26] in
  (world_ok w /\
   c_head (ring w) = p_tail (ring w) /\
   UINT_MOD - 2 * size (ring w) <= c_head (ring w) /\
   Z.of_nat (length es) = 2 * size (ring w)) /\
  (exists log w',
    run_calls (pairs enqueue_spsc dequeue_spmc es) w = Ok log w' /\
    returns log = repeat true (2 * length es) /\
    enqueued log = es /\
    dequeued log = es /\
    c_head (ring w') = 11 /\
    p_tail (ring w') = c_head (ring w') /\
    Seq.ck_ring_size w' = Ok 0 w') /\
  (exists log1 w1,
    run_calls (pairs enqueue_spsc dequeue_spmc [11; 12; 13; 14] ++ [enqueue_spsc 15]) w
    = Ok log1 w1 /\
    c_head (ring w1) = 4294967295 /\ p_tail (ring w1) = 0 /\
    Seq.ck_ring_size w1 = Ok 1 w1).
Proof.
  cbv zeta.
  assert (Hw : world_ok (mk_world (mk_ring 4294967291 4294967291 8 7)
                                  [0; 0; 0; 0; 0; 0; 0; 0] 0 0)).
  { split; [constructor|]; vm_compute; try reflexivity; try (split; congruence);
      congruence. }
  assert (Hnear : UINT_MOD - 2 * 8 <= 4294967291) by (vm_compute; congruence).
  split; [split; [exact Hw|]; split; [reflexivity|]; split; [exact Hnear|reflexivity]|].
  destruct (wraparound_pairs _
              [11; 12; 13; 14; 15; 16; 17; 18; 19; 20; 21; 22; 23; 24; 25; 26]
              enqueue_spsc dequeue_spmc Hw eq_refl Hnear eq_refl
              (or_introl eq_refl) (or_intror (or_intror (or_introl eq_refl))))
    as (_ & Hall & _ & Hmid).
  split; [exact Hall|].
  destruct (Hmid 4%nat 15 ltac:(cbn; lia))
    as (log1 & w1 & Hrun & _ & _ & _ & Hwrap & _ & Hsize & _).
  exists log1, w1. split; [exact Hrun|].
  destruct (Hwrap eq_refl) as [Hc Hp].
  split; [exact Hc|]. split; [exact Hp|exact Hsize].
Defined.

(** ** One call among other threads *)

Lemma exec_At env p w tr r :
  exec env (At p) w = (tr, r) ->
  match env with
  | [] => tr = [] /\ r = OutOfFuel
  | f :: env' =>
      match step p (interfere f w) with
      | Ok (a, t') w1 =>
          exists tr', exec env' t' w1 = (tr', r) /\ tr = a :: tr'
      | Undefined => tr = [] /\ r = Undefined
      | OutOfFuel => tr = [] /\ r = OutOfFuel
      end
  end.
Proof.
  destruct env as [|f env']; cbn [exec].
  - intros [= <- <-]. auto.
  - destruct (step p (interfere f w)) as [[a t'] w1| |].
    + destruct (exec env' t' w1) as [tr' r'] eqn:He.
      intros [= <- <-]. eauto.
    + intros [= <- <-]. auto.
    + intros [= <- <-]. auto.
Qed.

Lemma exec_Returned env b w : exec env (Returned b) w = ([], Ok b w).
Proof. destruct env; reflexivity. Qed.

(** Nothing running in between, [exec] is [run]. *)
Lemma exec_quiet n : forall t w,
  snd (exec (repeat quiet n) t w) = run n t w.
Proof.
  induction n as [|n IH]; intros [p|b] w; try reflexivity.
  cbn [repeat exec run]. unfold bind.
  replace (interfere quiet w) with w by (destruct w; reflexivity).
  destruct (step p w) as [[a t'] w1| |]; try reflexivity.
  cbn [snd]. rewrite <- IH. now destruct (exec (repeat quiet n) t' w1).
Qed.

(** Running alone, the steps of a call add up to the call. *)
Lemma run_enqueue_spsc e w :
  run 5 (At (EnqStart e)) w = Seq.ck_ring_enqueue_spsc e w.
Proof.
  rewrite enqueue_spsc_eq. unfold full, in_slots.
  cbv [run step bind ret ring_read ck_pr_load_uint get_field snd].
  destruct (_ =? _); [reflexivity|].
  cbv [slot_store]. destruct (_ && _); reflexivity.
Qed.

Lemma run_enqueue_spsc_size e w :
  run 6 (At (EnqSizeStart e)) w = Seq.ck_ring_enqueue_spsc_size e w.
Proof.
  rewrite enqueue_spsc_size_eq. unfold full, in_slots, with_size, pushed.
  cbv zeta.
  cbv [run step bind ret ring_read ck_pr_load_uint get_field snd size_store snapshot].
  cbn [ring slots out_size out_data].
  destruct (_ =? _); [reflexivity|].
  cbv [slot_store]. cbn [ring slots out_size out_data].
  destruct (_ && _); reflexivity.
Qed.

Lemma run_trydequeue_spmc w :
  run 6 (At TryStart) w = Seq.ck_ring_trydequeue_spmc w.
Proof.
  rewrite trydequeue_spmc_alone, dequeue_spsc_eq.
  cbv [run step bind ret ring_read ck_pr_load_uint get_field snd].
  destruct (_ =? _); [reflexivity|].
  cbv [slot_load]. destruct (0 <=? _); [|reflexivity].
  destruct (_ !! _); [|reflexivity].
  cbv [ck_pr_store_ptr ck_pr_cas_uint get_field ring]. rewrite Z.eqb_refl.
  reflexivity.
Qed.

Lemma run_dequeue_spmc w :
  run 6 (At DqStart) w = Seq.ck_ring_dequeue_spmc 1 w.
Proof.
  rewrite dequeue_spmc_alone, dequeue_spsc_eq.
  cbv [run step bind ret ring_read ck_pr_load_uint get_field snd].
  destruct (_ =? _); [reflexivity|].
  cbv [ck_pr_load_ptr slot_load]. destruct (0 <=? _); [|reflexivity].
  destruct (_ !! _); [|reflexivity].
  cbv [ck_pr_store_ptr ck_pr_cas_uint_value get_field ring fst snd].
  rewrite Z.eqb_refl. reflexivity.
Qed.

(** One step of [exec], for a point whose step is known. *)
Ltac exec_step H f :=
  let tr' := fresh "tr" in
  apply exec_At in H;
  lazymatch type of H with
  | match ?env with _ => _ end =>
      destruct env as [|f env]; [destruct H as [_ [=]]|]
  end;
  cbv [step bind ret ring_read ck_pr_load_uint ck_pr_load_ptr ck_pr_store_ptr
       ck_pr_cas_uint ck_pr_cas_uint_value slot_load] in H.

Lemma exec_fuel_step f env p w :
  match step p (interfere f w) with
  | Ok x w1 => snd (exec env (snd x) w1) <> OutOfFuel
  | Undefined => True
  | OutOfFuel => False
  end ->
  snd (exec (f :: env) (At p) w) <> OutOfFuel.
Proof.
  cbn [exec]. destruct (step p (interfere f w)) as [[a t'] w1| |].
  - cbn [snd]. now destruct (exec env t' w1).
  - discriminate.
  - intros [].
Qed.

Ltac fuel_step :=
  apply exec_fuel_step;
  cbv [step bind ret ring_read ck_pr_load_uint ck_pr_load_ptr ck_pr_store_ptr
       ck_pr_cas_uint ck_pr_cas_uint_value slot_load]; cbn [snd].

(** ** [ck_ring_trydequeue_spmc] *)

(** The two runs of [ck_ring_trydequeue_spmc]. *)
Lemma trydequeue_runs env w tr b w' :
  exec env (At TryStart) w = (tr, Ok b w') ->
  (exists m c,
      tr = [RdMask m; RdHead c; RdTail c] /\
      b = false /\ out_data w' = out_data w) \/
  (exists m c p v ok,
      c <> p /\
      tr = [RdMask m; RdHead c; RdTail p; RdSlot (Z.land c m) v; WrData v;
            CasHead c (uint (c + 1)) ok] /\
      b = ok /\ out_data w' = v /\
      (ok = true -> c_head (ring w') = uint (c + 1))).
Proof.
  intros H.
  exec_step H f1. destruct H as (tr1 & H & ->).
  exec_step H f2. destruct H as (tr2 & H & ->).
  exec_step H f3.
  destruct (Z.eqb_spec (get_field C_HEAD (ring (interfere f2 (interfere f1 w))))
              (get_field P_TAIL (ring (interfere f3 (interfere f2 (interfere f1 w))))))
    as [Heq|Hne].
  - destruct H as (tr3 & H & ->). rewrite exec_Returned in H.
    injection H as <- <- <-. left. do 2 eexists.
    split; [rewrite <- Heq; reflexivity|]. split; reflexivity.
  - destruct H as (tr3 & H & ->).
    exec_step H f4.
    destruct (0 <=? _); [|destruct H as [_ [=]]].
    destruct (_ !! _) as [v|]; [|destruct H as [_ [=]]].
    destruct H as (tr4 & H & ->).
    exec_step H f5. destruct H as (tr5 & H & ->).
    exec_step H f6.
    destruct (_ =? _) eqn:Hcas; destruct H as (tr6 & H & ->);
      rewrite exec_Returned in H; injection H as <- <- <-;
      right; do 5 eexists; (split; [exact Hne|]); (split; [reflexivity|]);
      (split; [reflexivity|]); (split; [reflexivity|]);
      [reflexivity|discriminate].
Qed.

(** The two runs of [ck_ring_trydequeue_spmc], on the memory: what it
    reads is what the other threads have left there at that moment, and
    what it leaves is what they left with its own stores on top. *)
Lemma trydequeue_exec env w tr b w' :
  exec env (At TryStart) w = (tr, Ok b w') ->
  exists f1 f2 f3 rest,
    env = f1 :: f2 :: f3 :: rest /\
    let w1 := interfere f1 w in
    let w2 := interfere f2 w1 in
    let w3 := interfere f3 w2 in
    let m := mask (ring w1) in
    let c := c_head (ring w2) in
    let p := p_tail (ring w3) in
    (c = p /\ tr = [RdMask m; RdHead c; RdTail p] /\ b = false /\ w' = w3) \/
    (c <> p /\
     exists f4 f5 f6 rest' v,
       rest = f4 :: f5 :: f6 :: rest' /\
       let w4 := interfere f4 w3 in
       0 <= Z.land c m /\
       slots w4 !! Z.to_nat (Z.land c m) = Some v /\
       let w5 := interfere f5 w4 in
       let w6 := interfere f6 (mk_world (ring w5) (slots w5) (out_size w5) v) in
       let ok := c_head (ring w6) =? c in
       tr = [RdMask m; RdHead c; RdTail p; RdSlot (Z.land c m) v; WrData v;
             CasHead c (uint (c + 1)) ok] /\
       b = ok /\
       w' = (if ok
             then mk_world (set_field C_HEAD (uint (c + 1)) (ring w6))
                           (slots w6) (out_size w6) (out_data w6)
             else w6) /\
       out_data w' = v).
Proof.
  intros H.
  exec_step H f1. destruct H as (tr1 & H & ->).
  exec_step H f2. destruct H as (tr2 & H & ->).
  exec_step H f3.
  exists f1, f2, f3, env. split; [reflexivity|]. cbv zeta.
  cbn [get_field] in H.
  destruct (Z.eqb_spec (c_head (ring (interfere f2 (interfere f1 w))))
              (p_tail (ring (interfere f3 (interfere f2 (interfere f1 w))))))
    as [Heq|Hne].
  - destruct H as (tr3 & H & ->). rewrite exec_Returned in H.
    injection H as <- <- <-. left. auto.
  - destruct H as (tr3 & H & ->). right. split; [exact Hne|].
    exec_step H f4.
    destruct (Z.leb_spec 0 (Z.land (c_head (ring (interfere f2 (interfere f1 w))))
                              (mask (ring (interfere f1 w)))))
      as [H0|_]; [|destruct H as [_ [=]]].
    destruct (slots (interfere f4 _) !! _) as [v|] eqn:Hv; [|destruct H as [_ [=]]].
    destruct H as (tr4 & H & ->).
    exec_step H f5. destruct H as (tr5 & H & ->).
    exec_step H f6.
    exists f4, f5, f6, env, v. split; [reflexivity|].
    split; [exact H0|]. split; [exact Hv|].
    cbn [get_field] in H.
    destruct (_ =? _) eqn:Hcas; destruct H as (tr6 & H & ->);
      rewrite exec_Returned in H; injection H as <- <- <-;
      (split; [reflexivity|]); (split; [reflexivity|]);
      (split; reflexivity).
Qed.

(** C6: alone, the step machine of [ck_ring_trydequeue_spmc] is the
    function. Whatever the other threads do in between, a call that
    returns has made one of two runs. Either the [c_head] and the [p_tail]
    it read are equal: it returned false with no store and no
    compare-and-swap. Or they differ: it read the slot [c_head & mask] as
    the memory had it at that moment, stored that value to [*data], and
    made exactly one compare-and-swap of [c_head], which succeeded exactly
    when [c_head] in the memory of that moment held the value read, and
    then replaced it by that value plus one and otherwise changed nothing;
    the call returned what the compare-and-swap returned, with [*data]
    holding the latched slot value either way. Six steps always
    suffice. *)
Theorem trydequeue_single_cas :
  (forall w, run 6 (At TryStart) w = Seq.ck_ring_trydequeue_spmc w) /\
  (forall env w tr b w',
      exec env (At TryStart) w = (tr, Ok b w') ->
      exists f1 f2 f3 rest,
        env = f1 :: f2 :: f3 :: rest /\
        let w1 := interfere f1 w in
        let w2 := interfere f2 w1 in
        let w3 := interfere f3 w2 in
        let m := mask (ring w1) in
        let c := c_head (ring w2) in
        let p := p_tail (ring w3) in
        (c = p /\ tr = [RdMask m; RdHead c; RdTail p] /\ b = false /\ w' = w3) \/
        (c <> p /\
         exists f4 f5 f6 rest' v,
           rest = f4 :: f5 :: f6 :: rest' /\
           let w4 := interfere f4 w3 in
           0 <= Z.land c m /\
           slots w4 !! Z.to_nat (Z.land c m) = Some v /\
           let w5 := interfere f5 w4 in
           let w6 := interfere f6 (mk_world (ring w5) (slots w5) (out_size w5) v) in
           let ok := c_head (ring w6) =? c in
           tr = [RdMask m; RdHead c; RdTail p; RdSlot (Z.land c m) v; WrData v;
                 CasHead c (uint (c + 1)) ok] /\
           b = ok /\
           w' = (if ok
                 then mk_world (set_field C_HEAD (uint (c + 1)) (ring w6))
                               (slots w6) (out_size w6) (out_data w6)
                 else w6) /\
           out_data w' = v)) /\
  (forall env w,
      (6 <= length env)%nat ->
      snd (exec env (At TryStart) w) <> OutOfFuel).
Proof.
  split; [exact run_trydequeue_spmc|]. split; [exact trydequeue_exec|].
  intros env w Hlen.
  destruct env as [|f1 [|f2 [|f3 [|f4 [|f5 [|f6 env]]]]]]; cbn [length] in Hlen; try lia.
  fuel_step. fuel_step. fuel_step.
  destruct (_ =? _); cbn [snd]; [rewrite exec_Returned; discriminate|].
  fuel_step.
  destruct (0 <=? _); [|exact I].
  destruct (_ !! _) as [v|]; [|exact I].
  cbn [snd]. fuel_step. fuel_step.
  destruct (_ =? _); cbn [snd]; rewrite exec_Returned; discriminate.
Qed.

(** Two calls on a ring that holds 11 and 12. In the first the producer
    enqueues 13 while the call runs: the compare-and-swap succeeds,
    [c_head] becomes 1 and [*data] holds 11. In the second another
    consumer takes the entry between the store to [*data] and the
    compare-and-swap: the call returns false, [c_head] stays as the other
    consumer left it, and [*data], which held 0, holds the entry 11 that
    the other consumer owns. *)
Lemma trydequeue_single_cas_witness :
  let w := mk_world (mk_ring 0 2 4 3) [11; 12; 0; 0] 0 0 in
  let produce : interference :=
    fun r s => (set_field P_TAIL 3 r, <[2%nat := 13]> s) in
  let steal : interference := fun r s => (set_field C_HEAD 1 r, s) in
  (exec [quiet; quiet; quiet; produce; quiet; quiet] (At TryStart) w
   = ([RdMask 3; RdHead 0; RdTail 2; RdSlot 0 11; WrData 11; CasHead 0 1 true],
      Ok true (mk_world (mk_ring 1 3 4 3) [11; 12; 13; 0] 0 11)) /\
   exec [quiet; quiet; quiet; quiet; quiet; steal] (At TryStart) w
   = ([RdMask 3; RdHead 0; RdTail 2; RdSlot 0 11; WrData 11; CasHead 0 1 false],
      Ok false (mk_world (mk_ring 1 2 4 3) [11; 12; 0; 0] 0 11))) /\
  (exists f1 f2 f3 rest,
      [quiet; quiet; quiet; produce; quiet; quiet] = f1 :: f2 :: f3 :: rest /\
      exists f4 f5 f6 rest',
        rest = f4 :: f5 :: f6 :: rest' /\
        slots (interfere f4 (interfere f3 (interfere f2 (interfere f1 w))))
          !! Z.to_nat (Z.land 0 3) = Some 11) /\
  (exists f1 f2 f3 rest,
      [quiet; quiet; quiet; quiet; quiet; steal] = f1 :: f2 :: f3 :: rest).
Proof.
  cbv zeta.
  assert (H1 : exec [quiet; quiet; quiet;
                     (fun r s => (set_field P_TAIL 3 r, <[2%nat := 13]> s));
                     quiet; quiet] (At TryStart)
                 (mk_world (mk_ring 0 2 4 3) [11; 12; 0; 0] 0 0)
               = ([RdMask 3; RdHead 0; RdTail 2; RdSlot 0 11; WrData 11;
                   CasHead 0 1 true],
                  Ok true (mk_world (mk_ring 1 3 4 3) [11; 12; 13; 0] 0 11)))
    by (vm_compute; reflexivity).
  assert (H2 : exec [quiet; quiet; quiet; quiet; quiet;
                     (fun r s => (set_field C_HEAD 1 r, s))] (At TryStart)
                 (mk_world (mk_ring 0 2 4 3) [11; 12; 0; 0] 0 0)
               = ([RdMask 3; RdHead 0; RdTail 2; RdSlot 0 11; WrData 11;
                   CasHead 0 1 false],
                  Ok false (mk_world (mk_ring 1 2 4 3) [11; 12; 0; 0] 0 11)))
    by (vm_compute; reflexivity).
  split; [split; [exact H1|exact H2]|].
  split.
  - destruct (proj1 (proj2 trydequeue_single_cas) _ _ _ _ _ H1)
      as (f1 & f2 & f3 & rest & Henv & Hruns).
    exists f1, f2, f3, rest. split; [exact Henv|].
    injection Henv as <- <- <- <-.
    destruct Hruns as [(_ & _ & [=] & _)|(_ & f4 & f5 & f6 & rest' & v & Hrest & Hv)].
    exists f4, f5, f6, rest'. split; [exact Hrest|].
    injection Hrest as <- <- <- <-.
    cbv zeta in Hv. destruct Hv as (_ & Hv & Htr & _).
    injection Htr as <-. exact Hv.
  - destruct (proj1 (proj2 trydequeue_single_cas) _ _ _ _ _ H2)
      as (f1 & f2 & f3 & rest & Henv & _).
    exists f1, f2, f3, rest. exact Henv.
Defined.

(** ** Stores to [*data] *)

Lemma exec_fst_cons f env p w :
  fst (exec (f :: env) (At p) w)
  = match step p (interfere f w) with
    | Ok x w1 => fst x :: fst (exec env (snd x) w1)
    | Undefined => []
    | OutOfFuel => []
    end.
Proof.
  cbn [exec]. destruct (step p (interfere f w)) as [[a t'] w1| |]; try reflexivity.
  cbn [fst snd]. destruct (exec env t' w1). reflexivity.
Qed.

Lemma dequeue_spmc_stores env : forall p w,
  is_dq p = true ->
  stores_after_cas (match p with DqStoreData _ => true | _ => false end)
                   (fst (exec env (At p) w)) = true.
Proof.
  induction env as [|f env IH]; intros p w Hp; [reflexivity|].
  rewrite exec_fst_cons.
  destruct p; try discriminate Hp;
    cbv [step bind ret ring_read ck_pr_load_uint ck_pr_load_ptr ck_pr_store_ptr
         ck_pr_cas_uint_value slot_load]; cbn [fst snd].
  - cbn [stores_after_cas]. apply (IH (DqLoadHead _)). reflexivity.
  - cbn [stores_after_cas]. apply (IH (DqLoadTail _ _)). reflexivity.
  - destruct (_ =? _); cbn [fst snd stores_after_cas].
    + now rewrite exec_Returned.
    + apply (IH (DqLoadSlot _ _)). reflexivity.
  - destruct (0 <=? _); [|reflexivity].
    destruct (_ !! _); [|reflexivity].
    cbn [fst snd stores_after_cas]. apply (IH (DqCas _ _ _)). reflexivity.
  - destruct (_ =? _); cbn [fst snd stores_after_cas].
    + apply (IH (DqStoreData _)). reflexivity.
    + apply (IH (DqLoadTail _ _)). reflexivity.
  - cbn [stores_after_cas andb]. now rewrite exec_Returned.
Qed.

Lemma dequeue_spmc_data env : forall p w tr b w',
  is_dq p = true ->
  exec env (At p) w = (tr, Ok b w') ->
  match p with
  | DqStoreData r => b = true /\ tr = [WrData r] /\ out_data w' = r
  | _ =>
      (b = false /\ no_store_to_data tr = true /\ out_data w' = out_data w) \/
      (b = true /\
       exists tr0 c r,
         tr = tr0 ++ [CasHead c (uint (c + 1)) true; WrData r] /\
         no_store_to_data tr0 = true /\ out_data w' = r)
  end.
Proof.
  induction env as [|f env IH]; intros p w tr b w' Hp H.
  { apply exec_At in H. destruct H as [_ [=]]. }
  assert (Hcons : forall a t w1 tr1,
    is_dq t = true -> (forall r, t <> DqStoreData r) ->
    out_data w1 = out_data w ->
    (match a with WrData _ => false | _ => true end) = true ->
    exec env (At t) w1 = (tr1, Ok b w') ->
    (b = false /\ no_store_to_data (a :: tr1) = true /\ out_data w' = out_data w) \/
    (b = true /\
     exists tr0 c r,
       a :: tr1 = tr0 ++ [CasHead c (uint (c + 1)) true; WrData r] /\
       no_store_to_data tr0 = true /\ out_data w' = r)).
  { intros a t w1 tr1 Ht Hns Hd Ha H1. specialize (IH t w1 tr1 b w' Ht H1).
    destruct t; try discriminate Ht; try (exfalso; eapply Hns; reflexivity);
      (destruct IH as [(-> & Hn & Hd')|(-> & tr0 & c0 & r0 & -> & Hn & Hd')];
       [left; cbn [no_store_to_data forallb]; rewrite Ha; cbn [andb];
        split; [reflexivity|]; split; [exact Hn|congruence]
       |right; split; [reflexivity|]; exists (a :: tr0), c0, r0;
        cbn [no_store_to_data forallb app]; rewrite Ha; cbn [andb]; auto]). }
  apply exec_At in H.
  destruct p; try discriminate Hp;
    cbv [step bind ret ring_read ck_pr_load_uint ck_pr_load_ptr ck_pr_store_ptr
         ck_pr_cas_uint_value slot_load] in H.
  - destruct H as (tr1 & H & ->). eapply Hcons; try exact H; try reflexivity.
    discriminate.
  - destruct H as (tr1 & H & ->). eapply Hcons; try exact H; try reflexivity.
    discriminate.
  - destruct (_ =? _); destruct H as (tr1 & H & ->).
    + rewrite exec_Returned in H. injection H as <- <- <-. left. auto.
    + eapply Hcons; try exact H; try reflexivity. discriminate.
  - destruct (0 <=? _); [|destruct H as [_ [=]]].
    destruct (_ !! _); [|destruct H as [_ [=]]].
    destruct H as (tr1 & H & ->). eapply Hcons; try exact H; try reflexivity.
    discriminate.
  - destruct (_ =? _); destruct H as (tr1 & H & ->).
    + apply (IH (DqStoreData _)) in H; [|reflexivity].
      destruct H as (-> & -> & Hd). right. split; [reflexivity|].
      exists []. do 2 eexists. split; [reflexivity|]. split; [reflexivity|exact Hd].
    + eapply Hcons; try exact H; try reflexivity. discriminate.
  - destruct H as (tr1 & H & ->). rewrite exec_Returned in H.
    injection H as <- <- <-. auto.
Qed.

(** C10: a call of [ck_ring_trydequeue_spmc] that read [c_head] and
    [p_tail] different has stored the slot value to [*data] before its
    compare-and-swap, so [*data] holds that value when the call returns,
    also when the compare-and-swap failed and the call returns false. A
    call of [ck_ring_dequeue_spmc] stores to [*data] only right after a
    compare-and-swap that succeeded: a call that returns false has not
    touched [*data], and a call that returns true has stored once, as its
    last access. *)
Theorem spmc_stores_to_data :
  (forall env w tr b w' m c p rest,
      exec env (At TryStart) w = (tr, Ok b w') ->
      tr = RdMask m :: RdHead c :: RdTail p :: rest ->
      c <> p ->
      exists v,
        rest = [RdSlot (Z.land c m) v; WrData v; CasHead c (uint (c + 1)) b] /\
        out_data w' = v) /\
  (forall env w,
      stores_after_cas false (fst (exec env (At DqStart) w)) = true) /\
  (forall env w tr w',
      exec env (At DqStart) w = (tr, Ok false w') ->
      no_store_to_data tr = true /\ out_data w' = out_data w) /\
  (forall env w tr w',
      exec env (At DqStart) w = (tr, Ok true w') ->
      exists tr0 c r,
        tr = tr0 ++ [CasHead c (uint (c + 1)) true; WrData r] /\
        no_store_to_data tr0 = true /\ out_data w' = r).
Proof.
  split; [|split; [|split]].
  - intros env w tr b w' m c p rest H Htr Hne.
    destruct (trydequeue_runs _ _ _ _ _ H)
      as [(m0 & c0 & Htr0 & _)|(m0 & c0 & p0 & v & ok & _ & Htr0 & Hb & Hd & _)];
      rewrite Htr in Htr0.
    + injection Htr0 as _ Hc Hp _. congruence.
    + injection Htr0 as -> -> -> ->. subst ok. eauto.
  - intros env w. apply (dequeue_spmc_stores env DqStart w). reflexivity.
  - intros env w tr w' H.
    destruct (dequeue_spmc_data env DqStart w tr false w' eq_refl H)
      as [(_ & Hn & Hd)|([=] & _)]. auto.
  - intros env w tr w' H.
    destruct (dequeue_spmc_data env DqStart w tr true w' eq_refl H)
      as [([=] & _)|(_ & Hex)]. exact Hex.
Qed.

(** The ring holds 21 and 22; while a [ck_ring_trydequeue_spmc] is between
    its store to [*data] and its compare-and-swap another consumer takes
    21. The call returns false and [*data], which held 5, holds 21. The same
    interference on [ck_ring_dequeue_spmc] makes it go round its loop once
    more and return 22, [*data] not written until then. *)
Lemma spmc_stores_to_data_witness :
  let w := mk_world (mk_ring 6 8 4 3) [0; 0; 21; 22] 0 5 in
  let steal : interference := fun r s => (set_field C_HEAD 7 r, s) in
  (exec [quiet; quiet; quiet; quiet; quiet; steal] (At TryStart) w
   = ([RdMask 3; RdHead 6; RdTail 8; RdSlot 2 21; WrData 21; CasHead 6 7 false],
      Ok false (mk_world (mk_ring 7 8 4 3) [0; 0; 21; 22] 0 21)) /\
   6 <> 8 /\
   exists v,
     [RdSlot 2 21; WrData 21; CasHead 6 7 false]
     = [RdSlot (Z.land 6 3) v; WrData v; CasHead 6 (uint (6 + 1)) false] /\
     out_data (mk_world (mk_ring 7 8 4 3) [0; 0; 21; 22] 0 21) = v) /\
  (exec [quiet; quiet; quiet; quiet; steal; quiet; quiet; quiet; quiet]
        (At DqStart) w
   = ([RdMask 3; RdHead 6; RdTail 8; RdSlot 2 21; CasHead 6 7 false;
       RdTail 8; RdSlot 3 22; CasHead 7 8 true; WrData 22],
      Ok true (mk_world (mk_ring 8 8 4 3) [0; 0; 21; 22] 0 22)) /\
   exists tr0 c r,
     [RdMask 3; RdHead 6; RdTail 8; RdSlot 2 21; CasHead 6 7 false;
      RdTail 8; RdSlot 3 22; CasHead 7 8 true; WrData 22]
     = tr0 ++ [CasHead c (uint (c + 1)) true; WrData r] /\
     no_store_to_data tr0 = true /\
     out_data (mk_world (mk_ring 8 8 4 3) [0; 0; 21; 22] 0 22) = r).
Proof.
  cbv zeta.
  assert (H1 : exec [quiet; quiet; quiet; quiet; quiet;
                     (fun r s => (set_field C_HEAD 7 r, s))] (At TryStart)
                 (mk_world (mk_ring 6 8 4 3) [0; 0; 21; 22] 0 5)
               = ([RdMask 3; RdHead 6; RdTail 8; RdSlot 2 21; WrData 21;
                   CasHead 6 7 false],
                  Ok false (mk_world (mk_ring 7 8 4 3) [0; 0; 21; 22] 0 21)))
    by (vm_compute; reflexivity).
  assert (H2 : exec [quiet; quiet; quiet; quiet;
                     (fun r s => (set_field C_HEAD 7 r, s));
                     quiet; quiet; quiet; quiet] (At DqStart)
                 (mk_world (mk_ring 6 8 4 3) [0; 0; 21; 22] 0 5)
               = ([RdMask 3; RdHead 6; RdTail 8; RdSlot 2 21; CasHead 6 7 false;
                   RdTail 8; RdSlot 3 22; CasHead 7 8 true; WrData 22],
                  Ok true (mk_world (mk_ring 8 8 4 3) [0; 0; 21; 22] 0 22)))
    by (vm_compute; reflexivity).
  assert (Hne : 6 <> 8) by discriminate.
  split.
  - split; [exact H1|]. split; [exact Hne|].
    exact (proj1 spmc_stores_to_data _ _ _ _ _ _ _ _ _ H1 eq_refl Hne).
  - split; [exact H2|].
    exact (proj2 (proj2 (proj2 spmc_stores_to_data)) _ _ _ _ H2).
Defined.

(** ** One producer and several consumers: the invariant *)

(** The invariants of the threads only look at the mask, the counts, the
    enqueued entries and (the producer) the slots; they survive what other
    threads do to them. *)
Lemma consumer_inv_at_mono s s' t h0 :
  mask (s_ring s') = mask (s_ring s) ->
  heads s <= heads s' -> tails s <= tails s' ->
  (exists more, s_enqueued s' = s_enqueued s ++ more) ->
  consumer_inv_at s t h0 -> consumer_inv_at s' t h0.
Proof.
  intros Hm Hh Ht [more He]. unfold consumer_inv_at.
  destruct (c_act t) as [|[]]; rewrite ?Hm; try exact id.
  all: intros H;
    repeat match goal with
           | H : _ /\ _ |- _ => destruct H
           end;
    subst; repeat split; try lia.
  all: intros Heq;
    match goal with
    | Hl : heads _ = ?h -> _ |- _ =>
        assert (Hs : heads s = h) by lia; specialize (Hl Hs)
    end;
    first [lia | rewrite He; apply lookup_app_l_Some; assumption].
Qed.

Lemma consumer_inv_mono s s' t :
  mask (s_ring s') = mask (s_ring s) ->
  heads s <= heads s' -> tails s <= tails s' ->
  (exists more, s_enqueued s' = s_enqueued s ++ more) ->
  consumer_inv s t -> consumer_inv s' t.
Proof.
  intros Hm Hh Ht He [h0 H]. exists h0.
  eapply consumer_inv_at_mono; eassumption.
Qed.

Lemma producer_inv_mono s s' a :
  mask (s_ring s') = mask (s_ring s) ->
  heads s <= heads s' -> tails s' = tails s -> s_slots s' = s_slots s ->
  producer_inv s a -> producer_inv s' a.
Proof.
  intros Hm Hh Ht Hs. unfold producer_inv.
  destruct a as [|[]]; rewrite ?Hm, ?Ht, ?Hs; try exact id.
  - intros (-> & hc & -> & Hr & Hc). split; [reflexivity|]. exists hc.
    split; [reflexivity|]. lia.
  - intros (-> & -> & -> & Hc). repeat split; lia.
  - intros (-> & Hc & Hslot). repeat split; [lia|exact Hslot].
  - intros (-> & hc & -> & Hr & Hc). split; [reflexivity|]. exists hc.
    split; [reflexivity|]. lia.
  - intros (-> & -> & hc & -> & Hr & Hc). split; [reflexivity|].
    split; [reflexivity|]. exists hc. split; [reflexivity|]. lia.
Qed.

Lemma sys_inv_producer_local s a :
  sys_inv s -> producer_inv s a ->
  sys_inv (mk_system (s_ring s) (s_slots s) a (s_consumers s)
                     (s_enqueued s) (s_claimed s)).
Proof. intros [] Ha. constructor; assumption. Qed.

Lemma sys_inv_consumer_local s i t :
  sys_inv s -> consumer_inv s t ->
  sys_inv (mk_system (s_ring s) (s_slots s) (s_producer s)
                     (<[i := t]> (s_consumers s))
                     (s_enqueued s) (s_claimed s)).
Proof.
  intros [] Hc. constructor; try assumption.
  cbn [s_consumers]. apply Forall_insert; assumption.
Qed.

Lemma uint_uint_add x y : uint (uint x + y) = uint (x + y).
Proof. unfold uint. apply Zplus_mod_idemp_l. Qed.

Lemma uint_uint_sub x y : uint (uint x - uint y) = uint (x - y).
Proof. unfold uint. now rewrite Zminus_mod_idemp_l, Zminus_mod_idemp_r. Qed.

Lemma sys_inv_pow2 s :
  sys_inv s ->
  exists k, 1 <= k < W /\ size (s_ring s) = 2 ^ k /\ mask (s_ring s) = 2 ^ k - 1.
Proof.
  intros Hinv. destruct (valid_size_pow2 _ (inv_size _ Hinv)) as (k & Hk & Hp).
  exists k. rewrite (inv_mask _ Hinv), Hp. auto.
Qed.

Lemma sys_index_in_slots s n :
  sys_inv s ->
  0 <= Z.land n (mask (s_ring s)) < Z.of_nat (length (s_slots s)).
Proof.
  intros Hinv. destruct (sys_inv_pow2 s Hinv) as (k & Hk & Hsz & Hm).
  rewrite (inv_slots _ Hinv), Hsz, Hm. apply land_mask_range. exact Hk.
Qed.

(** The full test of the producer, made on a [c_head] read earlier: when it
    finds room, there is room. *)
Lemma room_of_test s hc :
  sys_inv s -> 0 <= hc <= heads s -> tails s - hc <= mask (s_ring s) ->
  Z.land (uint (uint (tails s) + 1)) (mask (s_ring s))
  <> Z.land (uint hc) (mask (s_ring s)) ->
  tails s - heads s < mask (s_ring s).
Proof.
  intros Hinv Hhc Hroom Hnf.
  destruct (sys_inv_pow2 s Hinv) as (k & Hk & Hsz & Hm).
  pose proof (pow_k_bounds k Hk) as [Hb1 Hb2].
  pose proof (inv_count _ Hinv) as Hcount.
  assert (Hcnt : uint (uint (tails s) - uint hc) = tails s - hc).
  { rewrite uint_uint_sub. apply uint_small. lia. }
  rewrite Hm in Hnf.
  pose proof (full_iff k Hk (uint hc) (uint (tails s))) as Hfull.
  rewrite Hcnt in Hfull. specialize (Hfull ltac:(lia)).
  destruct (Z.eq_dec (tails s - hc) (2 ^ k - 1)) as [Heq|Hne]; [|lia].
  apply Hfull in Heq. contradiction.
Qed.

Ltac unfold_step H :=
  cbv [step bind ret ring_read ring_write ck_pr_load_uint ck_pr_store_uint
       ck_pr_load_ptr ck_pr_store_ptr ck_pr_cas_uint ck_pr_cas_uint_value
       slot_load slot_store size_store
       view get_field ring slots out_data out_size after stored claimed fst snd]
    in H.

(** A step of the producer keeps the invariant. *)
Lemma producer_step_inv s s' :
  sys_inv s -> sys_do ProducerStep s = Some s' -> sys_inv s'.
Proof.
  intros Hinv H. unfold sys_do in H.
  pose proof (inv_producer _ Hinv) as Hp.
  destruct (sys_inv_pow2 s Hinv) as (k & Hk & Hsz & Hm).
  pose proof (pow_k_bounds k Hk) as [Hb1 Hb2].
  pose proof (inv_count _ Hinv) as Hcount.
  destruct (s_producer s) as [|p]; [discriminate|].
  destruct p; try contradiction; unfold_step H.
  - (* mask = ring->mask *)
    rewrite app_nil_r in H. injection H as <-.
    apply sys_inv_producer_local; [exact Hinv|]. reflexivity.
  - (* consumer = load(c_head) *)
    rewrite app_nil_r in H. injection H as <-.
    apply sys_inv_producer_local; [exact Hinv|].
    split; [exact Hp|]. exists (heads s).
    split; [apply (inv_head _ Hinv)|].
    unfold heads in *. lia.
  - (* producer = ring->p_tail, and the full test *)
    destruct Hp as (-> & hc & -> & Hhc & Hroom).
    destruct (Z.eqb_spec (Z.land (uint (p_tail (s_ring s) + 1)) (mask (s_ring s)))
                (Z.land (uint hc) (mask (s_ring s)))) as [_|Hnf];
      rewrite app_nil_r in H; injection H as <-;
      (apply sys_inv_producer_local; [exact Hinv|]); [exact I|].
    split; [reflexivity|]. split; [apply (inv_tail _ Hinv)|].
    split; [rewrite (inv_tail _ Hinv); apply uint_uint_add|].
    rewrite (inv_tail _ Hinv) in Hnf.
    eapply room_of_test; eassumption.
  - (* ring_buf[producer & mask] = entry *)
    destruct Hp as (-> & -> & -> & Hroom).
    pose proof (sys_index_in_slots s (uint (tails s)) Hinv) as [Hi0 Hi1].
    apply Z.leb_le in Hi0. apply Z.ltb_lt in Hi1 as Hi1'.
    rewrite Hi0, Hi1' in H. cbn [andb] in H.
    rewrite app_nil_r in H. injection H as <-.
    constructor; cbn [s_ring s_slots s_producer s_consumers s_enqueued s_claimed];
      try apply Hinv.
    + rewrite length_insert. apply Hinv.
    + intros i Hi. change (heads _) with (heads s) in Hi.
      change (tails _) with (tails s) in Hi.
      rewrite list_lookup_insert_ne; [apply (inv_live _ Hinv); exact Hi|].
      intros Heq. apply Z2Nat.inj in Heq;
        try (rewrite Hm; apply land_mask_range; exact Hk).
      symmetry in Heq. revert Heq. rewrite Hm.
      apply slot_distinct; [exact Hk|]. lia.
    + split; [reflexivity|]. split; [exact Hroom|].
      cbn [s_slots s_ring]. change (tails _) with (tails s).
      apply list_lookup_insert_eq. lia.
  - (* store(p_tail, delta) *)
    destruct Hp as (-> & Hroom & Hslot).
    injection H as <-.
    assert (Ht : forall r sl a cs cl,
               tails (mk_system r sl a cs (s_enqueued s ++ [entry]) cl)
               = tails s + 1).
    { intros. unfold tails. cbn [s_enqueued]. rewrite length_app. cbn [length]. lia. }
    constructor; rewrite ?Ht;
      cbn [s_ring s_slots s_producer s_consumers s_enqueued s_claimed
           set_field size mask c_head p_tail];
      try apply Hinv; try reflexivity.
    + change (heads _) with (heads s). lia.
    + intros i Hi. change (heads _) with (heads s) in Hi.
      destruct (Z.eq_dec i (tails s)) as [->|Hne].
      * rewrite Hslot. symmetry. apply list_lookup_middle.
        unfold tails. now rewrite Nat2Z.id.
      * rewrite (inv_live _ Hinv) by lia. symmetry. apply lookup_app_l.
        unfold tails, heads in *. lia.
    + rewrite take_app_le; [apply Hinv|]. unfold tails, heads in *. lia.
    + eapply Forall_impl; [apply Hinv|]. intros c.
      apply consumer_inv_mono; try reflexivity; rewrite ?Ht; try lia.
      now exists [entry].
  - (* the size variant: mask = ring->mask *)
    rewrite app_nil_r in H. injection H as <-.
    apply sys_inv_producer_local; [exact Hinv|]. reflexivity.
  - (* consumer = load(c_head) *)
    rewrite app_nil_r in H. injection H as <-.
    apply sys_inv_producer_local; [exact Hinv|].
    split; [exact Hp|]. exists (heads s).
    split; [apply (inv_head _ Hinv)|].
    unfold heads in *. lia.
  - (* producer = ring->p_tail *)
    destruct Hp as (-> & hc & -> & Hhc & Hroom).
    rewrite app_nil_r in H. injection H as <-.
    apply sys_inv_producer_local; [exact Hinv|].
    split; [reflexivity|]. split; [apply (inv_tail _ Hinv)|].
    exists hc. auto.
  - (* *size = (producer - consumer) & mask, and the full test *)
    destruct Hp as (-> & -> & hc & -> & Hhc & Hroom).
    destruct (Z.eqb_spec (Z.land (uint (uint (tails s) + 1)) (mask (s_ring s)))
                (Z.land (uint hc) (mask (s_ring s)))) as [_|Hnf];
      rewrite app_nil_r in H; injection H as <-;
      (apply sys_inv_producer_local; [exact Hinv|]); [exact I|].
    split; [reflexivity|]. split; [reflexivity|].
    split; [apply uint_uint_add|].
    eapply room_of_test; eassumption.
Qed.

(** While the producer runs an enqueue, its steps leave the mask, [c_head]
    and the record of claims alone and only add to the record of
    enqueues. *)
Lemma producer_event_frame ev s s' :
  sys_inv s ->
  (ev = ProducerStep \/ (exists e, ev = ProducerCall e)
   \/ exists e, ev = ProducerCallSize e) ->
  sys_do ev s = Some s' ->
  mask (s_ring s') = mask (s_ring s) /\
  c_head (s_ring s') = c_head (s_ring s) /\
  s_claimed s' = s_claimed s /\
  exists more, s_enqueued s' = s_enqueued s ++ more.
Proof.
  intros Hinv [->|[[e ->]|[e ->]]] H; unfold sys_do in H.
  - pose proof (inv_producer _ Hinv) as Hp.
    destruct (s_producer s) as [|p]; [discriminate|].
    destruct p; try contradiction; unfold_step H;
      repeat match type of H with
             | context [if ?c then _ else _] => destruct c
             end;
      try discriminate; injection H as <-; repeat split; eauto.
  - destruct (s_producer s); [|discriminate].
    injection H as <-. repeat split. exists []. symmetry. apply app_nil_r.
  - destruct (s_producer s); [|discriminate].
    injection H as <-. repeat split. exists []. symmetry. apply app_nil_r.
Qed.

(** A claim of the oldest unclaimed entry, by whatever means [c_head] is
    moved one further, keeps the invariant of the shared state. *)
Lemma sys_inv_claim s i r :
  sys_inv s ->
  s_enqueued s !! Z.to_nat (heads s) = Some r ->
  sys_inv (mk_system (set_field C_HEAD (uint (c_head (s_ring s) + 1)) (s_ring s))
                     (s_slots s) (s_producer s) (s_consumers s)
                     (s_enqueued s) (s_claimed s ++ [(i, r)])).
Proof.
  intros Hinv Hlive.
  pose proof (inv_count _ Hinv) as Hcount.
  assert (Hlt : heads s < tails s).
  { apply lookup_lt_Some in Hlive. unfold tails. lia. }
  assert (Hh : forall r0 sl a cs en,
             heads (mk_system r0 sl a cs en (s_claimed s ++ [(i, r)]))
             = heads s + 1).
  { intros. unfold heads. cbn [s_claimed]. rewrite length_app. cbn [length]. lia. }
  constructor; rewrite ?Hh;
    cbn [s_ring s_slots s_producer s_consumers s_enqueued s_claimed
         set_field size mask c_head p_tail];
    try apply Hinv; try reflexivity.
  - rewrite (inv_head _ Hinv). apply uint_uint_add.
  - change (tails _) with (tails s). lia.
  - intros j Hj. change (tails _) with (tails s) in Hj.
    apply (inv_live _ Hinv). lia.
  - rewrite map_app, length_app, (inv_claimed _ Hinv). cbn [map snd length].
    replace (length (s_claimed s) + 1)%nat with (S (length (s_claimed s))) by lia.
    symmetry. apply take_S_r.
    unfold heads in Hlive. now rewrite Nat2Z.id in Hlive.
  - eapply producer_inv_mono; [| | | |apply Hinv]; try reflexivity.
    rewrite Hh. lia.
  - eapply Forall_impl; [apply Hinv|]. intros c.
    apply consumer_inv_mono; try reflexivity; rewrite ?Hh; try lia.
    exists []. cbn. now rewrite app_nil_r.
Qed.

(** Equal machine words, fewer than [2^W] apart: equal counts. *)
Lemma uint_eq_near a b :
  0 <= b <= a -> a - b < UINT_MOD -> uint a = uint b -> a = b.
Proof.
  intros Hab Hnear Heq. unfold uint in Heq.
  pose proof UINT_MOD_pos as Hpos.
  assert (Hz : (a - b) mod UINT_MOD = 0).
  { rewrite Zminus_mod, Heq, Z.sub_diag. apply Z.mod_0_l. lia. }
  rewrite Z.mod_small in Hz by lia. lia.
Qed.

(** A step of a consumer that read [c_head] when [h] claims had been made
    keeps the invariant, provided its compare-and-swap, if that is the
    step and it finds the value it expects in [c_head], finds the count
    it expects, not one that is a multiple of [2^W] further. *)
Lemma consumer_step_at s s' i p d h :
  sys_inv s ->
  s_consumers s !! i = Some (mk_consumer (Running p) d) ->
  consumer_inv_at s (mk_consumer (Running p) d) h ->
  (forall c, cas_expects p = Some c -> c_head (s_ring s) = c -> heads s = h) ->
  sys_do (ConsumerStep i) s = Some s' ->
  sys_inv s' /\
  mask (s_ring s') = mask (s_ring s) /\
  heads s <= heads s' /\ tails s' = tails s /\
  s_enqueued s' = s_enqueued s /\
  exists t',
    s_consumers s' = <[i := t']> (s_consumers s) /\
    consumer_inv_at s' t' (note p s h).
Proof.
  intros Hinv Hi Hc Hnowrap H. unfold sys_do in H. rewrite Hi in H.
  destruct (sys_inv_pow2 s Hinv) as (k & Hk & Hsz & Hm).
  pose proof (inv_count _ Hinv) as Hcount.
  unfold consumer_inv_at in Hc. cbn [c_act c_data] in Hc.
  assert (Hlocal : forall t' h',
             consumer_inv_at s t' h' ->
             let s1 := mk_system (s_ring s) (s_slots s) (s_producer s)
                         (<[i := t']> (s_consumers s))
                         (s_enqueued s) (s_claimed s ++ []) in
             sys_inv s1 /\
             mask (s_ring s1) = mask (s_ring s) /\
             heads s <= heads s1 /\ tails s1 = tails s /\
             s_enqueued s1 = s_enqueued s /\
             exists t'',
               s_consumers s1 = <[i := t'']> (s_consumers s) /\
               consumer_inv_at s1 t'' h').
  { intros t' h' Ht'. cbv zeta. rewrite app_nil_r.
    split; [apply sys_inv_consumer_local; [exact Hinv|exists h'; exact Ht']|].
    split; [reflexivity|]. split; [unfold heads; cbn [s_claimed]; lia|].
    split; [reflexivity|]. split; [reflexivity|].
    exists t'. split; [reflexivity|exact Ht']. }
  assert (Hclaim : forall r t',
             s_enqueued s !! Z.to_nat (heads s) = Some r ->
             c_act t' = Idle \/ (exists r', c_act t' = Running (DqStoreData r')) ->
             let s1 := mk_system
                         (set_field C_HEAD (uint (c_head (s_ring s) + 1)) (s_ring s))
                         (s_slots s) (s_producer s)
                         (<[i := t']> (s_consumers s))
                         (s_enqueued s) (s_claimed s ++ [(i, r)]) in
             sys_inv s1 /\
             mask (s_ring s1) = mask (s_ring s) /\
             heads s <= heads s1 /\ tails s1 = tails s /\
             s_enqueued s1 = s_enqueued s /\
             exists t'',
               s_consumers s1 = <[i := t'']> (s_consumers s) /\
               consumer_inv_at s1 t'' (note p s h)).
  { intros r t' Hr Ht'. cbv zeta.
    assert (Hany : forall s0 h', consumer_inv_at s0 t' h').
    { intros s0 h'. unfold consumer_inv_at.
      destruct Ht' as [->|[r' ->]]; exact I. }
    pose proof (sys_inv_claim s i r Hinv Hr) as Hinv1.
    pose proof (sys_inv_consumer_local _ i t' Hinv1 (ex_intro _ 0 (Hany _ 0)))
      as Hinv2.
    split; [exact Hinv2|]. split; [reflexivity|].
    split; [unfold heads; cbn [s_claimed]; rewrite length_app; lia|].
    split; [reflexivity|]. split; [reflexivity|].
    exists t'. split; [reflexivity|apply Hany]. }
  destruct p; try contradiction; unfold_step H; cbn [note].
  - (* trydequeue: mask = ring->mask *)
    injection H as <-. apply Hlocal. reflexivity.
  - (* consumer = load(c_head) *)
    injection H as <-. apply Hlocal. unfold consumer_inv_at. cbn [c_act].
    split; [exact Hc|]. split; [apply (inv_head _ Hinv)|]. unfold heads. lia.
  - (* producer = load(p_tail), and the empty test *)
    destruct Hc as (-> & -> & Hh0).
    destruct (Z.eqb_spec (uint h) (p_tail (s_ring s))) as [_|Hne];
      injection H as <-; apply Hlocal; [exact I|].
    unfold consumer_inv_at. cbn [c_act].
    split; [reflexivity|]. split; [reflexivity|].
    split; [exact Hh0|]. intros Heq.
    destruct (Z.eq_dec h (tails s)) as [Het|Hnt]; [|lia].
    exfalso. apply Hne. rewrite (inv_tail _ Hinv), Het. reflexivity.
  - (* ring_buf[consumer & mask] *)
    destruct Hc as (-> & -> & Hh0 & Hlive).
    destruct (0 <=? _); [|discriminate].
    destruct (s_slots s !! _) as [r|] eqn:Hr; [|discriminate].
    injection H as <-. apply Hlocal. unfold consumer_inv_at. cbn [c_act].
    split; [reflexivity|]. split; [exact Hh0|]. intros Heq.
    rewrite <- (inv_live _ Hinv) by lia. exact Hr.
  - (* store(data, ...) *)
    destruct Hc as (-> & Hh0 & Hlive).
    injection H as <-. apply Hlocal. unfold consumer_inv_at. cbn [c_act c_data].
    split; [reflexivity|]. split; [exact Hh0|]. exact Hlive.
  - (* the one compare-and-swap of c_head *)
    destruct Hc as (-> & Hh0 & Hlive).
    destruct (Z.eqb_spec (c_head (s_ring s)) (uint h)) as [Hcas|Hcas].
    + injection H as <-.
      assert (Heq : heads s = h) by (apply (Hnowrap _ eq_refl Hcas)).
      specialize (Hlive Heq). subst h. rewrite <- Hcas.
      apply (Hclaim d (mk_consumer Idle d)); [exact Hlive|left; reflexivity].
    + injection H as <-. apply Hlocal. exact I.
  - (* dequeue: mask = ring->mask *)
    injection H as <-. apply Hlocal. reflexivity.
  - (* consumer = load(c_head) *)
    injection H as <-. apply Hlocal. unfold consumer_inv_at. cbn [c_act].
    split; [exact Hc|]. split; [apply (inv_head _ Hinv)|]. unfold heads. lia.
  - (* producer = load(p_tail), and the empty test *)
    destruct Hc as (-> & -> & Hh0).
    destruct (Z.eqb_spec (uint h) (p_tail (s_ring s))) as [_|Hne];
      injection H as <-; apply Hlocal; [exact I|].
    unfold consumer_inv_at. cbn [c_act].
    split; [reflexivity|]. split; [reflexivity|].
    split; [exact Hh0|]. intros Heq.
    destruct (Z.eq_dec h (tails s)) as [Het|Hnt]; [|lia].
    exfalso. apply Hne. rewrite (inv_tail _ Hinv), Het. reflexivity.
  - (* r = load(ring_buf[consumer & mask]) *)
    destruct Hc as (-> & -> & Hh0 & Hlive).
    destruct (0 <=? _); [|discriminate].
    destruct (s_slots s !! _) as [r|] eqn:Hr; [|discriminate].
    injection H as <-. apply Hlocal. unfold consumer_inv_at. cbn [c_act].
    split; [reflexivity|]. split; [reflexivity|].
    split; [exact Hh0|]. intros Heq.
    rewrite <- (inv_live _ Hinv) by lia. exact Hr.
  - (* compare-and-swap of c_head *)
    destruct Hc as (-> & -> & Hh0 & Hlive).
    destruct (Z.eqb_spec (c_head (s_ring s)) (uint h)) as [Hcas|Hcas];
      cbn [fst snd] in H.
    + (* it succeeded: the claim *)
      injection H as <-.
      assert (Heq : heads s = h) by (apply (Hnowrap _ eq_refl Hcas)).
      specialize (Hlive Heq). subst h. rewrite <- Hcas.
      apply (Hclaim r (mk_consumer (Running (DqStoreData r)) d));
        [exact Hlive|right; eexists; reflexivity].
    + (* it failed: once more round the loop, with the value found *)
      injection H as <-. apply Hlocal. unfold consumer_inv_at. cbn [c_act].
      split; [reflexivity|]. split; [apply (inv_head _ Hinv)|].
      unfold heads. lia.
  - (* store(data, r) *)
    injection H as <-. apply Hlocal. exact I.
Qed.

(** A compare-and-swap made fewer than [2^W] claims after the consumer read
    [c_head] finds the value it expects only if no claim was made since. *)
Lemma cas_near s t h c :
  sys_inv s -> consumer_inv_at s t h ->
  (exists p, c_act t = Running p /\ cas_expects p = Some c) ->
  heads s - h < UINT_MOD ->
  c_head (s_ring s) = c -> heads s = h.
Proof.
  intros Hinv Hc (p & Hp & Hcas) Hnear Hhead.
  unfold consumer_inv_at in Hc. rewrite Hp in Hc.
  rewrite (inv_head _ Hinv) in Hhead.
  destruct p; try discriminate; injection Hcas as <-.
  - destruct Hc as (-> & Hh & _). apply uint_eq_near; [lia|exact Hnear|exact Hhead].
  - destruct Hc as (_ & -> & Hh & _). apply uint_eq_near; [lia|exact Hnear|exact Hhead].
Qed.


Lemma sys_do_tails ev s s' :
  sys_do ev s = Some s' -> tails s <= tails s'.
Proof.
  unfold sys_do, tails. destruct ev.
  - destruct (s_producer s); [|discriminate]. intros [= <-]. reflexivity.
  - destruct (s_producer s) as [|p]; [discriminate|].
    destruct (step p (view s 0)) as [[a t] w| |]; try discriminate.
    intros [= <-]. cbn [s_enqueued]. rewrite length_app. lia.
  - destruct (s_consumers s !! i) as [[[|p] d]|]; try discriminate.
    intros [= <-]. reflexivity.
  - destruct (s_consumers s !! i) as [[[|p] d]|]; try discriminate.
    destruct (step p (view s d)) as [[a t] w| |]; try discriminate.
    intros [= <-]. reflexivity.
  - destruct (s_producer s); [|discriminate]. intros [= <-]. reflexivity.
  - destruct (s_consumers s !! i) as [[[|p] d]|]; try discriminate.
    intros [= <-]. reflexivity.
Qed.

(** The start of a call keeps the invariant. *)
Lemma sys_call_inv ev s s' :
  sys_inv s -> sys_do ev s = Some s' ->
  match ev with ProducerStep | ConsumerStep _ => False | _ => True end ->
  sys_inv s'.
Proof.
  intros Hinv H Hev. unfold sys_do in H. destruct ev; try contradiction.
  - destruct (s_producer s); [|discriminate].
    injection H as <-. apply sys_inv_producer_local; [exact Hinv|exact I].
  - destruct (s_consumers s !! i) as [[[|p] d]|]; try discriminate.
    injection H as <-. apply sys_inv_consumer_local; [exact Hinv|].
    exists 0. exact I.
  - destruct (s_producer s); [|discriminate].
    injection H as <-. apply sys_inv_producer_local; [exact Hinv|exact I].
  - destruct (s_consumers s !! i) as [[[|p] d]|]; try discriminate.
    injection H as <-. apply sys_inv_consumer_local; [exact Hinv|].
    exists 0. exact I.
Qed.



Lemma sys_init_inv n buf k :
  valid_size n = true -> Z.of_nat (length buf) = n -> sys_inv (sys_init n buf k).
Proof.
  intros Hn Hlen. destruct (valid_size_pow2 n Hn) as (j & Hj & Hp).
  pose proof (pow_k_bounds j Hj) as [Hb1 Hb2].
  assert (Hm : uint (n - 1) = n - 1) by (apply uint_small; lia).
  constructor; unfold sys_init, heads, tails;
    cbn [s_ring s_slots s_producer s_consumers s_enqueued s_claimed
         size mask c_head p_tail length map firstn];
    try assumption; try reflexivity; try lia.
  apply Forall_forall. intros c Hc. apply list_elem_of_In, repeat_spec in Hc. subst c.
  exists 0. exact I.
Qed.

(** ** Runs without a wrapped compare-and-swap *)

Lemma reads_inv_update s s' g i t' h' :
  reads_inv s g ->
  (forall t h, consumer_inv_at s t h -> consumer_inv_at s' t h) ->
  consumer_inv_at s' t' h' ->
  Forall2 (consumer_inv_at s') (<[i := t']> (s_consumers s)) (<[i := h']> g).
Proof.
  intros Hg Hmono Ht'. apply Forall2_insert; [|exact Ht'].
  eapply Forall2_impl; [exact Hg|]. exact Hmono.
Qed.

Lemma reads_inv_lookup s g i t :
  reads_inv s g -> s_consumers s !! i = Some t ->
  exists h, g !! i = Some h /\ consumer_inv_at s t h.
Proof.
  intros Hg Hi. destruct (Forall2_lookup_l _ _ _ _ _ Hg Hi) as (h & Hh & Hc).
  eauto.
Qed.

(** One event of such a run keeps the invariant, with the
    count each consumer read [c_head] at. *)
Lemma sys_do_reads ev s s' g :
  sys_inv s -> reads_inv s g ->
  sys_do ev s = Some s' -> cas_ok ev s g = true ->
  sys_inv s' /\ reads_inv s' (reads_after ev s g).
Proof.
  intros Hinv Hg H Hnowrap.
  assert (Hcall : forall i d t',
             s_consumers s !! i = Some (mk_consumer Idle d) ->
             (forall h, consumer_inv_at s t' h) ->
             reads_inv (mk_system (s_ring s) (s_slots s) (s_producer s)
                          (<[i := t']> (s_consumers s))
                          (s_enqueued s) (s_claimed s)) g).
  { intros i d t' Hi Ht'.
    destruct (reads_inv_lookup _ _ _ _ Hg Hi) as (h & Hh & _).
    rewrite <- (list_insert_id g i h Hh). unfold reads_inv. cbn [s_consumers].
    apply (reads_inv_update s); [exact Hg|intros t h0 Ht; exact Ht|apply Ht']. }
  destruct ev; cbn [reads_after].
  - split; [eapply sys_call_inv; [exact Hinv|exact H|exact I]|].
    unfold sys_do in H. destruct (s_producer s); [|discriminate].
    injection H as <-. exact Hg.
  - split; [eapply producer_step_inv; eassumption|].
    destruct (producer_event_frame _ _ _ Hinv (or_introl eq_refl) H)
      as (Hm & Hh & Hcl & He).
    assert (Hcs : s_consumers s' = s_consumers s).
    { unfold sys_do in H. destruct (s_producer s) as [|p]; [discriminate|].
      destruct (step p (view s 0)) as [[a t] w| |]; try discriminate.
      injection H as <-. reflexivity. }
    unfold reads_inv. rewrite Hcs.
    eapply Forall2_impl; [exact Hg|]. intros t h.
    apply consumer_inv_at_mono; try assumption.
    + unfold heads. rewrite Hcl. lia.
    + eapply sys_do_tails, H.
  - split; [eapply sys_call_inv; [exact Hinv|exact H|exact I]|].
    unfold sys_do in H.
    destruct (s_consumers s !! i) as [[[|p] d]|] eqn:Hi; try discriminate.
    injection H as <-. apply (Hcall i d); [exact Hi|intros h; exact I].
  - cbn [cas_ok] in Hnowrap.
    destruct (s_consumers s !! i) as [[[|p] d]|] eqn:Hi;
      try (unfold sys_do in H; rewrite Hi in H; discriminate).
    destruct (reads_inv_lookup _ _ _ _ Hg Hi) as (h & Hh & Hc).
    rewrite Hh in Hnowrap |- *.
    assert (Hnear : forall c, cas_expects p = Some c ->
                          c_head (s_ring s) = c -> heads s = h).
    { intros c Hp Hcas. rewrite Hp in Hnowrap. apply Z.eqb_eq in Hcas.
      rewrite Hcas in Hnowrap. cbn [negb orb] in Hnowrap.
      apply Z.eqb_eq. exact Hnowrap. }
    destruct (consumer_step_at s s' i p d h Hinv Hi Hc Hnear H)
      as (Hinv' & Hm & Hhd & Htl & Hen & t' & Hcs & Ht').
    split; [exact Hinv'|]. unfold reads_inv. rewrite Hcs.
    apply (reads_inv_update s); [exact Hg| |exact Ht'].
    intros t h0. apply consumer_inv_at_mono; try assumption; try lia.
    exists []. rewrite Hen. symmetry. apply app_nil_r.
  - split; [eapply sys_call_inv; [exact Hinv|exact H|exact I]|].
    unfold sys_do in H. destruct (s_producer s); [|discriminate].
    injection H as <-. exact Hg.
  - split; [eapply sys_call_inv; [exact Hinv|exact H|exact I]|].
    unfold sys_do in H.
    destruct (s_consumers s !! i) as [[[|p] d]|] eqn:Hi; try discriminate.
    injection H as <-. apply (Hcall i d); [exact Hi|intros h; exact I].
Qed.


Lemma sys_init_reads n buf k :
  reads_inv (sys_init n buf k) (map (fun _ => 0) (s_consumers (sys_init n buf k))).
Proof.
  unfold reads_inv, sys_init. cbn [s_consumers].
  induction k as [|k IH]; cbn [repeat map]; constructor; [exact I|exact IH].
Qed.


(** ** Whole calls with nothing in between *)



(** The system starts on the control block that [ck_ring_init] leaves. *)
Lemma sys_init_is_init n buf k r :
  0 <= n < UINT_MOD ->
  Seq.ck_ring_init n (mk_world r buf 0 0) = Ok tt (view (sys_init n buf k) 0).
Proof. intros Hn. rewrite init_eq, (uint_small n) by exact Hn. reflexivity. Qed.








(** ** The schedule that wraps the counters *)


Lemma reads_app evs1 : forall evs2 s g,
  reads (evs1 ++ evs2) s g
  = match sys_run evs1 s with
    | Some s1 => reads evs2 s1 (reads evs1 s g)
    | None => reads evs1 s g
    end.
Proof.
  induction evs1 as [|ev evs1 IH]; intros evs2 s g; [reflexivity|].
  cbn [app sys_run reads].
  destruct (sys_do ev s) as [s1|]; [apply IH|reflexivity].
Qed.





(** ** Claims are made in the order of the enqueues *)


Lemma sys_run_tails evs : forall s s',
  sys_run evs s = Some s' -> tails s <= tails s'.
Proof.
  induction evs as [|ev evs IH]; intros s s' H.
  - injection H as <-. lia.
  - cbn [sys_run] in H. destruct (sys_do ev s) as [s1|] eqn:Hdo; [|discriminate].
    apply sys_do_tails in Hdo. apply IH in H. lia.
Qed.

(** A run in which fewer than [2^W] entries are enqueued in all has no
    wrapped compare-and-swap, whatever the interleaving. *)
Lemma bounded_all_cas_ok evs : forall s s' g,
  sys_inv s -> reads_inv s g ->
  sys_run evs s = Some s' -> tails s' < UINT_MOD ->
  all_cas_ok evs s g = true.
Proof.
  induction evs as [|ev evs IH]; intros s s' g Hinv Hg H Hbound; [reflexivity|].
  cbn [sys_run all_cas_ok] in *.
  destruct (sys_do ev s) as [s1|] eqn:Hdo; [|reflexivity].
  pose proof (sys_run_tails _ _ _ H) as Ht1.
  pose proof (sys_do_tails _ _ _ Hdo) as Ht0.
  pose proof (inv_count _ Hinv) as Hcount.
  assert (Hok : cas_ok ev s g = true).
  { destruct ev; try reflexivity. cbn [cas_ok].
    destruct (s_consumers s !! i) as [[[|p] d]|] eqn:Hi; try reflexivity.
    destruct (reads_inv_lookup _ _ _ _ Hg Hi) as (h & Hh & Hc).
    rewrite Hh. destruct (cas_expects p) as [c|] eqn:Hp; [|reflexivity].
    destruct (Z.eqb_spec (c_head (s_ring s)) c) as [Hcas|_]; [|reflexivity].
    cbn [negb orb]. apply Z.eqb_eq.
    assert (Hh0 : 0 <= h).
    { unfold consumer_inv_at in Hc. cbn [c_act] in Hc.
      destruct p; try discriminate; lia. }
    apply (cas_near s (mk_consumer (Running p) d) h c Hinv Hc);
      [exists p; split; [reflexivity|exact Hp]|lia|exact Hcas]. }
  rewrite Hok. cbn [andb].
  destruct (sys_do_reads _ _ _ _ Hinv Hg Hdo Hok) as [Hinv1 Hg1].
  exact (IH _ _ _ Hinv1 Hg1 H Hbound).
Qed.

Lemma bounded_no_wrapped_cas n buf k evs s :
  valid_size n = true -> Z.of_nat (length buf) = n ->
  sys_run evs (sys_init n buf k) = Some s -> tails s < UINT_MOD ->
  no_wrapped_cas evs (sys_init n buf k) = true.
Proof.
  intros Hn Hlen Hrun Hbound.
  eapply bounded_all_cas_ok; [apply sys_init_inv; assumption| |exact Hrun|exact Hbound].
  apply sys_init_reads.
Qed.



(** * Further properties of the operations *)

(** ** [ck_ring_size] and [ck_ring_capacity] *)

Lemma run_calls_size cs : forall w log w',
  run_calls cs w = Ok log w' ->
  size (ring w') = size (ring w) /\ mask (ring w') = mask (ring w).
Proof.
  induction cs as [|c cs IH]; intros w log w'.
  - intros [= <- <-]. auto.
  - cbn [run_calls]. unfold bind at 1.
    destruct (do_call c w) as [b w1| |] eqn:Hcall; try discriminate.
    unfold bind at 1. unfold bind at 1.
    destruct (run_calls cs w1) as [rest w2| |] eqn:Hrest; try discriminate.
    intros [= <- <-].
    destruct (do_call_counters _ _ _ _ Hcall) as (Hs & Hm & _).
    destruct (IH _ _ _ Hrest) as [Hs2 Hm2]. split; congruence.
Qed.

(** X1. After [ck_ring_init] with a valid size on a slot array of that size,
    and any calls made one at a time, [ck_ring_size] returns the number of
    enqueues that returned true minus the number of dequeues that returned
    true, at most [size - 1], and changes nothing; [ck_ring_capacity]
    still returns the size given to [ck_ring_init]. *)
Theorem size_counts_entries :
  forall n cs w log w1,
    valid_size n = true ->
    Z.of_nat (length (slots w)) = n ->
    (Seq.ck_ring_init n ;; run_calls cs) w = Ok log w1 ->
    Seq.ck_ring_size w1
    = Ok (Z.of_nat (length (enqueued log)) - Z.of_nat (length (dequeued log))) w1 /\
    0 <= Z.of_nat (length (enqueued log)) - Z.of_nat (length (dequeued log)) <= n - 1 /\
    Seq.ck_ring_capacity w1 = Ok n w1.
Proof.
  intros n cs w log w1 Hn Hlen. unfold bind at 1.
  destruct (init_ok n w Hn Hlen) as (w0 & Hinit & Hok0 & Hc0 & _ & _ & _ & Hs0).
  rewrite Hinit. intros Hrun.
  destruct (run_calls_refines cs w0 Hok0) as (w' & Hrun' & Hok1 & Hq1 & Hs1 & Hm1).
  rewrite Hrun in Hrun'. injection Hrun' as Hlog <-.
  pose proof (queue_run_fifo (mask (ring w0)) cs (contents w0) (out_data w0)) as Hf.
  rewrite <- Hlog, <- Hq1 in Hf.
  assert (Hnil : contents w0 = []).
  { apply length_zero_iff_nil. rewrite contents_length, Hc0. reflexivity. }
  rewrite Hnil in Hf. cbn [app] in Hf.
  assert (Hcount : count (ring w1)
                   = Z.of_nat (length (enqueued log)) - Z.of_nat (length (dequeued log))).
  { rewrite Hf, length_app, contents_length.
    pose proof (count_range (ring w1)). lia. }
  split; [rewrite (size_spec w1 Hok1), Hcount; reflexivity|].
  split.
  - rewrite <- Hcount. pose proof (count_range (ring w1)).
    pose proof (ok_count _ (proj1 Hok1)) as Hc.
    rewrite (ok_mask _ (proj1 Hok1)), Hs1, Hs0 in Hc. lia.
  - unfold Seq.ck_ring_capacity, ring_read. cbn [get_field]. now rewrite Hs1, Hs0.
Qed.

Lemma size_counts_entries_witness :
  let w := mk_world (mk_ring 9 9 9 9) [0; 0; 0; 0] 0 0 in
  let cs := [enqueue_spsc 11; enqueue_spmc 12; dequeue_spsc; enqueue_spsc_size 13;
             enqueue_spsc 14; enqueue_spsc 15; dequeue_spmc] in
  let w1 := mk_world (mk_ring 2 4 4 3) [11; 12; 13; 14] 1 12 in
  (valid_size 4 = true /\ Z.of_nat (length (slots w)) = 4) /\
  Seq.ck_ring_size w1 = Ok 2 w1 /\ Seq.ck_ring_capacity w1 = Ok 4 w1.
Proof.
  cbv zeta.
  assert (Hn : valid_size 4 = true) by (vm_compute; reflexivity).
  assert (Hlen : Z.of_nat (length (slots (mk_world (mk_ring 9 9 9 9) [0; 0; 0; 0] 0 0))) = 4)
    by reflexivity.
  assert (Hrun :
    (Seq.ck_ring_init 4 ;;
     run_calls [enqueue_spsc 11; enqueue_spmc 12; dequeue_spsc; enqueue_spsc_size 13;
                enqueue_spsc 14; enqueue_spsc 15; dequeue_spmc])
      (mk_world (mk_ring 9 9 9 9) [0; 0; 0; 0] 0 0)
    = Ok [(enqueue_spsc 11, true, 0); (enqueue_spmc 12, true, 0);
          (dequeue_spsc, true, 11); (enqueue_spsc_size 13, true, 11);
          (enqueue_spsc 14, true, 11); (enqueue_spsc 15, false, 11);
          (dequeue_spmc, true, 12)]
         (mk_world (mk_ring 2 4 4 3) [11; 12; 13; 14] 1 12))
    by (vm_compute; reflexivity).
  split; [split; [exact Hn|exact Hlen]|].
  destruct (size_counts_entries 4 _ _ _ _ Hn Hlen Hrun) as (H1 & _ & H3).
  split; [exact H1|exact H3].
Defined.

(** ** How many entries fit *)

Lemma queue_run_puts_full limit es : forall q d,
  limit <= Z.of_nat (length q) ->
  queue_run limit (map enqueue_spsc es) q d
  = (map (fun e => (enqueue_spsc e, false, d)) es, q).
Proof.
  induction es as [|e es IH]; intros q d Hfull; [reflexivity|].
  cbn [map queue_run entry_of].
  assert (Hcall : queue_call limit (enqueue_spsc e) q = (false, q)).
  { unfold queue_call. cbn [entry_of].
    destruct (Z.ltb_spec (Z.of_nat (length q)) limit); [lia|reflexivity]. }
  rewrite Hcall. cbn [fst snd]. rewrite IH by exact Hfull. reflexivity.
Qed.

Lemma queue_run_puts_any limit es d :
  0 <= limit ->
  queue_run limit (map enqueue_spsc es) [] d
  = (map (fun e => (enqueue_spsc e, true, d)) (firstn (Z.to_nat limit) es)
       ++ map (fun e => (enqueue_spsc e, false, d)) (skipn (Z.to_nat limit) es),
     firstn (Z.to_nat limit) es).
Proof.
  intros Hlimit.
  rewrite <- (firstn_skipn (Z.to_nat limit) es) at 1.
  rewrite map_app, queue_run_puts by (cbn [length]; rewrite length_firstn; lia).
  cbn [app].
  destruct (Z_lt_le_dec (Z.of_nat (length es)) limit) as [Hshort|Hlong].
  - rewrite skipn_all2 by lia. reflexivity.
  - rewrite queue_run_puts_full by (rewrite length_firstn; lia). reflexivity.
Qed.

(** X2. A ring initialised with a valid size [n] holds [n - 1] entries: of any
    entries enqueued one after the other into the fresh ring the first
    [n - 1] are accepted and every later one is refused, and the ring then
    holds the accepted ones, oldest first. *)
Theorem ring_holds_size_minus_one :
  forall n w es,
    valid_size n = true ->
    Z.of_nat (length (slots w)) = n ->
    exists w1,
      (Seq.ck_ring_init n ;; run_calls (map enqueue_spsc es)) w
      = Ok (map (fun e => (enqueue_spsc e, true, out_data w))
                (firstn (Z.to_nat (n - 1)) es)
              ++ map (fun e => (enqueue_spsc e, false, out_data w))
                     (skipn (Z.to_nat (n - 1)) es)) w1 /\
      contents w1 = firstn (Z.to_nat (n - 1)) es /\
      Seq.ck_ring_size w1 = Ok (Z.min (Z.of_nat (length es)) (n - 1)) w1.
Proof.
  intros n w es Hn Hlen.
  destruct (init_ok n w Hn Hlen) as (w0 & Hinit & Hok0 & Hc0 & _ & _ & Hd0 & Hs0).
  destruct (valid_size_pow2 n Hn) as (k & Hk & Hp).
  pose proof (pow_k_bounds k Hk) as [Hb1 Hb2].
  assert (Hq0 : contents w0 = []).
  { apply length_zero_iff_nil. rewrite contents_length, Hc0. reflexivity. }
  assert (Hm0 : mask (ring w0) = n - 1).
  { rewrite (ok_mask _ (proj1 Hok0)), Hs0. reflexivity. }
  destruct (run_calls_refines (map enqueue_spsc es) w0 Hok0)
    as (w1 & Hrun & Hok1 & Hc1 & _ & _).
  exists w1. unfold bind at 1. rewrite Hinit.
  rewrite Hq0, Hm0, Hd0, queue_run_puts_any in Hrun, Hc1 by lia.
  cbn [fst snd] in Hrun, Hc1.
  split; [exact Hrun|]. split; [exact Hc1|].
  rewrite (size_spec w1 Hok1). f_equal.
  pose proof (contents_length w1) as Hl. rewrite Hc1, length_firstn in Hl.
  pose proof (count_range (ring w1)). lia.
Qed.

Lemma ring_holds_size_minus_one_witness :
  (valid_size 4 = true /\ Z.of_nat (length [0; 0; 0; 0]) = 4) /\
  exists w1,
    (Seq.ck_ring_init 4 ;; run_calls (map enqueue_spsc [11; 12; 13; 14; 15]))
      (mk_world (mk_ring 9 9 9 9) [0; 0; 0; 0] 0 7)
    = Ok (map (fun e => (enqueue_spsc e, true, 7)) [11; 12; 13]
            ++ map (fun e => (enqueue_spsc e, false, 7)) [14; 15]) w1 /\
    contents w1 = [11; 12; 13] /\
    Seq.ck_ring_size w1 = Ok 3 w1.
Proof.
  assert (Hn : valid_size 4 = true) by (vm_compute; reflexivity).
  assert (Hlen : Z.of_nat (length [0; 0; 0; 0]) = 4) by reflexivity.
  split; [split; [exact Hn|exact Hlen]|].
  exact (ring_holds_size_minus_one 4 (mk_world (mk_ring 9 9 9 9) [0; 0; 0; 0] 0 7)
           [11; 12; 13; 14; 15] Hn Hlen).
Defined.

(** ** Dequeue on an empty ring, and the three dequeues side by side *)

(** X3. Whatever the state of the memory, a dequeue by [ck_ring_dequeue_spsc],
    by [ck_ring_trydequeue_spmc] or by [ck_ring_dequeue_spmc] running alone
    returns false exactly when [c_head == p_tail], and has then stored
    nothing, [*data] included. *)
Theorem dequeue_false_iff_empty :
  forall w,
    ((exists w', Seq.ck_ring_dequeue_spsc w = Ok false w') <->
     c_head (ring w) = p_tail (ring w)) /\
    ((exists w', Seq.ck_ring_trydequeue_spmc w = Ok false w') <->
     c_head (ring w) = p_tail (ring w)) /\
    (forall fuel,
        (exists w', Seq.ck_ring_dequeue_spmc (S fuel) w = Ok false w') <->
        c_head (ring w) = p_tail (ring w)) /\
    (c_head (ring w) = p_tail (ring w) ->
     Seq.ck_ring_dequeue_spsc w = Ok false w /\
     Seq.ck_ring_trydequeue_spmc w = Ok false w /\
     forall fuel, Seq.ck_ring_dequeue_spmc (S fuel) w = Ok false w).
Proof.
  intros w.
  assert (H : (exists w', Seq.ck_ring_dequeue_spsc w = Ok false w') <->
              c_head (ring w) = p_tail (ring w)).
  { rewrite dequeue_spsc_eq.
    destruct (Z.eqb_spec (c_head (ring w)) (p_tail (ring w))) as [Heq|Hne].
    - split; eauto.
    - split; [|contradiction]. intros [w' Hrun].
      destruct (0 <=? _); [|discriminate].
      destruct (slots w !! _); discriminate. }
  split; [exact H|]. split; [rewrite trydequeue_spmc_alone; exact H|].
  split; [intros fuel; rewrite dequeue_spmc_alone; exact H|].
  intros Heq. rewrite trydequeue_spmc_alone.
  assert (Hrun : Seq.ck_ring_dequeue_spsc w = Ok false w).
  { rewrite dequeue_spsc_eq. apply Z.eqb_eq in Heq. now rewrite Heq. }
  split; [exact Hrun|]. split; [exact Hrun|].
  intros fuel. rewrite dequeue_spmc_alone. exact Hrun.
Qed.

Lemma dequeue_false_iff_empty_witness :
  let w := mk_world (mk_ring 4294967295 4294967295 4 3) [11; 12; 13; 14] 5 6 in
  c_head (ring w) = p_tail (ring w) /\
  Seq.ck_ring_dequeue_spsc w = Ok false w /\
  Seq.ck_ring_trydequeue_spmc w = Ok false w /\
  forall fuel, Seq.ck_ring_dequeue_spmc (S fuel) w = Ok false w.
Proof.
  cbv zeta. split; [reflexivity|].
  apply (proj2 (proj2 (proj2 (dequeue_false_iff_empty
           (mk_world (mk_ring 4294967295 4294967295 4 3) [11; 12; 13; 14] 5 6))))).
  reflexivity.
Defined.

(** X4. Running alone, [ck_ring_trydequeue_spmc] and [ck_ring_dequeue_spmc] do
    exactly what [ck_ring_dequeue_spsc] does, on every state of the memory:
    the same result, the same memory afterwards, the same undefined
    behaviour. The retry loop of [ck_ring_dequeue_spmc] returns from its
    first iteration, so any bound of at least one iteration gives the same
    outcome, and the step machine of either call returns within six
    steps. *)
Theorem dequeues_agree_alone :
  forall w,
    Seq.ck_ring_trydequeue_spmc w = Seq.ck_ring_dequeue_spsc w /\
    (forall fuel, Seq.ck_ring_dequeue_spmc (S fuel) w = Seq.ck_ring_dequeue_spsc w) /\
    run 6 (At TryStart) w = Seq.ck_ring_dequeue_spsc w /\
    run 6 (At DqStart) w = Seq.ck_ring_dequeue_spsc w.
Proof.
  intros w. split; [apply trydequeue_spmc_alone|].
  split; [intros fuel; apply dequeue_spmc_alone|].
  split.
  - rewrite run_trydequeue_spmc. apply trydequeue_spmc_alone.
  - rewrite run_dequeue_spmc. apply dequeue_spmc_alone.
Qed.

(** ** What a call leaves alone *)

(** X5. A call that returns never writes [size] or [mask]. An enqueue, of any
    variant, never writes [c_head] or [*data], and the only slot it may
    write is the slot [p_tail & mask]; a dequeue, of any variant, never
    writes [p_tail], the slot array or [*size]. *)
Theorem calls_frame :
  forall c w b w',
    do_call c w = Ok b w' ->
    size (ring w') = size (ring w) /\
    mask (ring w') = mask (ring w) /\
    (if is_enqueue c
     then c_head (ring w') = c_head (ring w) /\
          out_data w' = out_data w /\
          forall i : nat,
            i <> Z.to_nat (Z.land (p_tail (ring w)) (mask (ring w))) ->
            slots w' !! i = slots w !! i
     else p_tail (ring w') = p_tail (ring w) /\
          slots w' = slots w /\
          out_size w' = out_size w).
Proof.
  intros c w b w' Hrun.
  destruct (do_call_counters _ _ _ _ Hrun) as (Hs & Hm & Hc & Hp).
  split; [exact Hs|]. split; [exact Hm|].
  assert (Hput : forall e b0 w0,
    Seq.ck_ring_enqueue_spsc e w = Ok b0 w0 ->
    out_data w0 = out_data w /\ out_size w0 = out_size w /\
    forall i : nat,
      i <> Z.to_nat (Z.land (p_tail (ring w)) (mask (ring w))) ->
      slots w0 !! i = slots w !! i).
  { intros e b0 w0. rewrite enqueue_spsc_eq. destruct (full (ring w)).
    - intros [= <- <-]. auto.
    - destruct (in_slots _ _); [|discriminate]. intros [= <- <-].
      cbn [pushed out_data out_size slots]. split; [reflexivity|].
      split; [reflexivity|]. intros i Hi. apply list_lookup_insert_ne. congruence. }
  assert (Htake : forall b0 w0,
    Seq.ck_ring_dequeue_spsc w = Ok b0 w0 ->
    slots w0 = slots w /\ out_size w0 = out_size w).
  { intros b0 w0. rewrite dequeue_spsc_eq. destruct (_ =? _).
    - intros [= <- <-]. auto.
    - destruct (0 <=? _); [|discriminate].
      destruct (slots w !! _); [|discriminate]. intros [= <- <-]. auto. }
  unfold is_enqueue in *.
  destruct c; cbn [do_call entry_of] in *;
    unfold Seq.ck_ring_enqueue_spmc, Seq.ck_ring_enqueue_spmc_size in Hrun;
    rewrite ?enqueue_spsc_size_as_spsc, ?trydequeue_spmc_alone, ?dequeue_spmc_alone
      in Hrun;
    cbn [negb] in Hc, Hp; rewrite ?andb_false_r in Hc; rewrite ?andb_false_r in Hp.
  - destruct (Hput _ _ _ Hrun) as (Hd & _ & Hsl). conj_all; auto.
  - destruct (Seq.ck_ring_enqueue_spsc entry w) as [b0 w0| |] eqn:Hrun0;
      try discriminate. injection Hrun as <- <-.
    destruct (Hput _ _ _ Hrun0) as (Hd & _ & Hsl). conj_all; auto.
  - destruct (Hput _ _ _ Hrun) as (Hd & _ & Hsl). conj_all; auto.
  - destruct (Seq.ck_ring_enqueue_spsc entry w) as [b0 w0| |] eqn:Hrun0;
      try discriminate. injection Hrun as <- <-.
    destruct (Hput _ _ _ Hrun0) as (Hd & _ & Hsl). conj_all; auto.
  - destruct (Htake _ _ Hrun) as (Hsl & Hsz). conj_all; auto.
  - destruct (Htake _ _ Hrun) as (Hsl & Hsz). conj_all; auto.
  - destruct (Htake _ _ Hrun) as (Hsl & Hsz). conj_all; auto.
Qed.

Lemma calls_frame_witness :
  let w := mk_world (mk_ring 5 7 4 3) [0; 11; 12; 0] 77 9 in
  let w' := mk_world (mk_ring 5 8 4 3) [0; 11; 12; 14] 2 9 in
  do_call (enqueue_spmc_size 14) w = Ok true w' /\
  size (ring w') = size (ring w) /\
  mask (ring w') = mask (ring w) /\
  c_head (ring w') = c_head (ring w) /\
  out_data w' = out_data w /\
  forall i : nat, i <> 3%nat -> slots w' !! i = slots w !! i.
Proof.
  cbv zeta.
  assert (Hrun : do_call (enqueue_spmc_size 14)
                   (mk_world (mk_ring 5 7 4 3) [0; 11; 12; 0] 77 9)
                 = Ok true (mk_world (mk_ring 5 8 4 3) [0; 11; 12; 14] 2 9))
    by (vm_compute; reflexivity).
  split; [exact Hrun|].
  exact (calls_frame _ _ _ _ Hrun).
Defined.

(** ** The snapshot of [ck_ring_enqueue_spsc_size] and [ck_ring_size] *)

(** X6. What [ck_ring_enqueue_spsc_size] writes to [*size] is what
    [ck_ring_size] returns just before the call. On a ring that is in
    order, a call that returns true leaves a ring of which [ck_ring_size]
    returns one more than the snapshot, and a call that returns false has
    written [size - 1]. *)
Theorem enqueue_size_is_ring_size :
  forall e w b w',
    world_ok w ->
    Seq.ck_ring_enqueue_spsc_size e w = Ok b w' ->
    Seq.ck_ring_size w = Ok (out_size w') w /\
    (b = true -> Seq.ck_ring_size w' = Ok (out_size w' + 1) w') /\
    (b = false -> out_size w' = size (ring w) - 1 /\
                  Seq.ck_ring_size w' = Ok (out_size w') w').
Proof.
  intros e w b w' Hw Hrun.
  pose proof (size_spec w Hw) as Hsz. rewrite size_eq in Hsz.
  injection Hsz as Hsnap.
  rewrite enqueue_spsc_size_as_spsc, (enqueue_spsc_spec e w Hw) in Hrun.
  destruct (Z.eqb_spec (count (ring w)) (mask (ring w))) as [Hfull|Hroom];
    injection Hrun as <- <-; unfold with_size; cbn [out_size].
  - split; [apply size_eq|]. split; [discriminate|]. intros _.
    rewrite size_eq. cbn [ring].
    rewrite Hsnap, Hfull, (ok_mask _ (proj1 Hw)). split; reflexivity.
  - split; [apply size_eq|]. split; [|discriminate]. intros _.
    assert (Hlt : count (ring w) < mask (ring w))
      by (pose proof (ok_count _ (proj1 Hw)); lia).
    destruct (pushed_ok e w Hw Hlt) as [Hw1 Hc1].
    assert (Hw2 : world_ok (mk_world (ring (pushed e w)) (slots (pushed e w))
                                     (snapshot (ring w)) (out_data (pushed e w))))
      by exact Hw1.
    rewrite (size_spec _ Hw2). cbn [ring]. rewrite Hc1, Hsnap. reflexivity.
Qed.

Lemma enqueue_size_is_ring_size_witness :
  let w := mk_world (mk_ring 5 7 4 3) [0; 11; 12; 0] 77 9 in
  let w' := mk_world (mk_ring 5 8 4 3) [0; 11; 12; 14] 2 9 in
  (world_ok w /\ Seq.ck_ring_enqueue_spsc_size 14 w = Ok true w') /\
  Seq.ck_ring_size w = Ok 2 w /\ Seq.ck_ring_size w' = Ok 3 w'.
Proof.
  cbv zeta.
  assert (Hw : world_ok (mk_world (mk_ring 5 7 4 3) [0; 11; 12; 0] 77 9)).
  { split; [constructor|]; vm_compute; try reflexivity; try (split; congruence);
      congruence. }
  assert (Hrun : Seq.ck_ring_enqueue_spsc_size 14
                   (mk_world (mk_ring 5 7 4 3) [0; 11; 12; 0] 77 9)
                 = Ok true (mk_world (mk_ring 5 8 4 3) [0; 11; 12; 14] 2 9))
    by (vm_compute; reflexivity).
  split; [split; [exact Hw|exact Hrun]|].
  destruct (enqueue_size_is_ring_size 14 _ _ _ Hw Hrun) as (H1 & H2 & _).
  split; [exact H1|exact (H2 eq_refl)].
Defined.

(** ** [ck_ring_enqueue_spsc] among other threads *)

Ltac enq_exec_step H f :=
  apply exec_At in H;
  lazymatch type of H with
  | match ?env with _ => _ end =>
      destruct env as [|f env]; [destruct H as [_ [=]]|]
  end;
  cbv [step bind ret ring_read ring_write ck_pr_load_uint ck_pr_store_uint
       slot_store] in H.

(** X8. Alone, the step machine of [ck_ring_enqueue_spsc] is the function.
    Whatever the other threads do in between, a call that returns has made
    one of two runs. Either the counters it read pass the full test, and
    it returned false having stored nothing: the memory is as the others
    left it. Or they do not, and it stored the entry in the slot
    [p_tail & mask] of the slot array first and [p_tail + 1] in [p_tail]
    after that, in this order and nothing else, and returned true: the
    memory is as the others left it with these two stores on top. It never
    writes [*data] or [*size], and five steps always suffice. *)
Theorem enqueue_publishes_slot_first :
  (forall e w, run 5 (At (EnqStart e)) w = Seq.ck_ring_enqueue_spsc e w) /\
  (forall env e w tr b w',
      exec env (At (EnqStart e)) w = (tr, Ok b w') ->
      out_data w' = out_data w /\ out_size w' = out_size w /\
      exists f1 f2 f3 rest,
        env = f1 :: f2 :: f3 :: rest /\
        let w1 := interfere f1 w in
        let w2 := interfere f2 w1 in
        let w3 := interfere f3 w2 in
        let m := mask (ring w1) in
        let c := c_head (ring w2) in
        let p := p_tail (ring w3) in
        (Z.land (uint (p + 1)) m = Z.land c m /\
         tr = [RdMask m; RdHead c; RdTail p] /\ b = false /\ w' = w3) \/
        (Z.land (uint (p + 1)) m <> Z.land c m /\
         exists f4 f5 rest',
           rest = f4 :: f5 :: rest' /\
           let w4 := interfere f4 w3 in
           0 <= Z.land p m < Z.of_nat (length (slots w4)) /\
           let w5 := interfere f5
                       (mk_world (ring w4)
                                 (<[Z.to_nat (Z.land p m) := e]> (slots w4))
                                 (out_size w4) (out_data w4)) in
           tr = [RdMask m; RdHead c; RdTail p; WrSlot (Z.land p m) e;
                 WrTail (uint (p + 1))] /\
           b = true /\
           w' = mk_world (set_field P_TAIL (uint (p + 1)) (ring w5))
                         (slots w5) (out_size w5) (out_data w5) /\
           p_tail (ring w') = uint (p + 1))) /\
  (forall env e w,
      (5 <= length env)%nat ->
      snd (exec env (At (EnqStart e)) w) <> OutOfFuel).
Proof.
  split; [exact run_enqueue_spsc|]. split.
  - intros env e w tr b w' H.
    enq_exec_step H f1. destruct H as (tr1 & H & ->).
    enq_exec_step H f2. destruct H as (tr2 & H & ->).
    enq_exec_step H f3. cbn [get_field] in H.
    set (m := mask (ring (interfere f1 w))) in *.
    set (c := c_head (ring (interfere f2 (interfere f1 w)))) in *.
    set (p := p_tail (ring (interfere f3 (interfere f2 (interfere f1 w))))) in *.
    destruct (Z.eqb_spec (Z.land (uint (p + 1)) m) (Z.land c m)) as [Heq|Hne].
    + destruct H as (tr3 & H & ->). rewrite exec_Returned in H.
      injection H as <- <- <-. split; [reflexivity|]. split; [reflexivity|].
      exists f1, f2, f3, env. split; [reflexivity|]. left. auto.
    + destruct H as (tr3 & H & ->).
      enq_exec_step H f4.
      destruct (Z.leb_spec 0 (Z.land p m)) as [H0|_];
        [|destruct H as [_ [=]]].
      destruct (Z.ltb_spec (Z.land p m)
                  (Z.of_nat (length (slots (interfere f4
                     (interfere f3 (interfere f2 (interfere f1 w))))))))
        as [H1|_]; [|destruct H as [_ [=]]].
      cbn [andb] in H.
      destruct H as (tr4 & H & ->).
      enq_exec_step H f5. destruct H as (tr5 & H & ->).
      rewrite exec_Returned in H. injection H as <- <- <-.
      split; [reflexivity|]. split; [reflexivity|].
      exists f1, f2, f3, (f4 :: f5 :: env). split; [reflexivity|]. right.
      split; [exact Hne|]. exists f4, f5, env. split; [reflexivity|].
      split; [split; assumption|]. repeat split; reflexivity.
  - intros env e w Hlen.
    destruct env as [|f1 [|f2 [|f3 [|f4 [|f5 env]]]]]; cbn [length] in Hlen; try lia.
    apply exec_fuel_step;
      cbv [step bind ret ring_read ring_write ck_pr_load_uint ck_pr_store_uint
           slot_store]; cbn [snd].
    apply exec_fuel_step;
      cbv [step bind ret ring_read ring_write ck_pr_load_uint ck_pr_store_uint
           slot_store]; cbn [snd].
    apply exec_fuel_step;
      cbv [step bind ret ring_read ring_write ck_pr_load_uint ck_pr_store_uint
           slot_store]; cbn [snd].
    destruct (_ =? _); cbn [snd]; [rewrite exec_Returned; discriminate|].
    apply exec_fuel_step;
      cbv [step bind ret ring_read ring_write ck_pr_load_uint ck_pr_store_uint
           slot_store]; cbn [snd].
    destruct (_ && _); [|exact I]. cbn [snd].
    apply exec_fuel_step;
      cbv [step bind ret ring_read ring_write ck_pr_load_uint ck_pr_store_uint
           slot_store]; cbn [snd].
    rewrite exec_Returned. discriminate.
Qed.

(** A consumer empties the ring between the reads of the counters and the
    stores: the enqueue, which found two entries and room, still writes
    slot 3 and [p_tail = 8], and the entry is in slot 3 of the array. *)
Lemma enqueue_publishes_slot_first_witness :
  let w := mk_world (mk_ring 5 7 4 3) [0; 11; 12; 0] 77 9 in
  let drain : interference := fun r s => (set_field C_HEAD 7 r, s) in
  let w' := mk_world (mk_ring 7 8 4 3) [0; 11; 12; 14] 77 9 in
  exec [quiet; quiet; quiet; drain; quiet] (At (EnqStart 14)) w
  = ([RdMask 3; RdHead 5; RdTail 7; WrSlot 3 14; WrTail 8], Ok true w') /\
  out_data w' = out_data w /\ out_size w' = out_size w /\
  slots w' !! 3%nat = Some 14.
Proof.
  cbv zeta.
  assert (H : exec [quiet; quiet; quiet; (fun r s => (set_field C_HEAD 7 r, s)); quiet]
                (At (EnqStart 14)) (mk_world (mk_ring 5 7 4 3) [0; 11; 12; 0] 77 9)
              = ([RdMask 3; RdHead 5; RdTail 7; WrSlot 3 14; WrTail 8],
                 Ok true (mk_world (mk_ring 7 8 4 3) [0; 11; 12; 14] 77 9)))
    by (vm_compute; reflexivity).
  split; [exact H|].
  destruct (proj1 (proj2 enqueue_publishes_slot_first) _ _ _ _ _ _ H)
    as (Hd & Hs & _).
  split; [exact Hd|]. split; [exact Hs|]. reflexivity.
Defined.

(** ** The multi-consumer dequeues when no one else moves [c_head] *)

Lemma interfere_keeps_head f w :
  keeps_head f -> c_head (ring (interfere f w)) = c_head (ring w).
Proof. intros Hf. unfold interfere. cbn [ring]. apply Hf. Qed.

Lemma exec_cons_eq f env p w :
  exec (f :: env) (At p) w
  = match step p (interfere f w) with
    | Ok x w1 => (fst x :: fst (exec env (snd x) w1), snd (exec env (snd x) w1))
    | Undefined => ([], Undefined)
    | OutOfFuel => ([], OutOfFuel)
    end.
Proof.
  cbn [exec]. destruct (step p (interfere f w)) as [[a t'] w1| |]; try reflexivity.
  cbn [fst snd]. destruct (exec env t' w1). reflexivity.
Qed.

(** X9. When the other threads leave [c_head] alone, as a producer does, the
    compare-and-swap of the multi-consumer dequeues cannot fail:
    [ck_ring_trydequeue_spmc] returns false only when it read
    [c_head == p_tail], and [ck_ring_dequeue_spmc] never goes round its
    loop a second time and returns within six steps. *)
Theorem spmc_dequeue_without_contention :
  (forall env w tr w',
      Forall keeps_head env ->
      exec env (At TryStart) w = (tr, Ok false w') ->
      exists m c, tr = [RdMask m; RdHead c; RdTail c]) /\
  (forall env w,
      Forall keeps_head env ->
      (6 <= length env)%nat ->
      cas_failures (fst (exec env (At DqStart) w)) = O /\
      (length (fst (exec env (At DqStart) w)) <= 6)%nat /\
      snd (exec env (At DqStart) w) <> OutOfFuel).
Proof.
  split.
  - intros env w tr w' Hkeep H.
    exec_step H f1. destruct H as (tr1 & H & ->).
    exec_step H f2. destruct H as (tr2 & H & ->).
    exec_step H f3.
    destruct (Z.eqb_spec (get_field C_HEAD (ring (interfere f2 (interfere f1 w))))
                (get_field P_TAIL (ring (interfere f3 (interfere f2 (interfere f1 w))))))
      as [Heq|Hne].
    + destruct H as (tr3 & H & ->). rewrite exec_Returned in H.
      injection H as <- _. do 2 eexists. rewrite <- Heq. reflexivity.
    + destruct H as (tr3 & H & ->). exfalso.
      exec_step H f4.
      destruct (0 <=? _); [|destruct H as [_ [=]]].
      destruct (_ !! _) as [v|]; [|destruct H as [_ [=]]].
      destruct H as (tr4 & H & ->).
      exec_step H f5. destruct H as (tr5 & H & ->).
      exec_step H f6.
      apply Forall_cons in Hkeep as [_ Hkeep].
      apply Forall_cons in Hkeep as [_ Hkeep].
      apply Forall_cons in Hkeep as [K3 Hkeep].
      apply Forall_cons in Hkeep as [K4 Hkeep].
      apply Forall_cons in Hkeep as [K5 Hkeep].
      apply Forall_cons in Hkeep as [K6 Hkeep].
      cbn [get_field] in H.
      rewrite (interfere_keeps_head f6) in H by assumption. cbn [ring] in H.
      rewrite (interfere_keeps_head f5), (interfere_keeps_head f4),
        (interfere_keeps_head f3), Z.eqb_refl in H by assumption.
      destruct H as (tr6 & H & ->). rewrite exec_Returned in H. discriminate.
  - intros env w Hkeep Hlen.
    destruct env as [|f1 [|f2 [|f3 [|f4 [|f5 [|f6 env]]]]]]; cbn [length] in Hlen; try lia.
    apply Forall_cons in Hkeep as [_ Hkeep].
    apply Forall_cons in Hkeep as [_ Hkeep].
    apply Forall_cons in Hkeep as [K3 Hkeep].
    apply Forall_cons in Hkeep as [K4 Hkeep].
    apply Forall_cons in Hkeep as [K5 Hkeep].
    apply Forall_cons in Hkeep as [K6 Hkeep].
    repeat (rewrite exec_cons_eq;
            cbv [step bind ret ring_read ck_pr_load_uint ck_pr_load_ptr
                 ck_pr_store_ptr ck_pr_cas_uint_value slot_load];
            cbn [fst snd get_field]).
    destruct (_ =? _); cbn [fst snd].
    { rewrite exec_Returned. cbn. repeat split; try lia. discriminate. }
    repeat (rewrite exec_cons_eq;
            cbv [step bind ret ring_read ck_pr_load_uint ck_pr_load_ptr
                 ck_pr_store_ptr ck_pr_cas_uint_value slot_load];
            cbn [fst snd get_field]).
    destruct (0 <=? _); [|cbn; repeat split; try lia; discriminate].
    destruct (_ !! _) as [v|]; [|cbn; repeat split; try lia; discriminate].
    cbn [fst snd].
    rewrite exec_cons_eq;
      cbv [step bind ret ring_read ck_pr_load_uint ck_pr_load_ptr
           ck_pr_store_ptr ck_pr_cas_uint_value slot_load];
      cbn [fst snd get_field].
    rewrite (interfere_keeps_head f5), (interfere_keeps_head f4),
      (interfere_keeps_head f3), Z.eqb_refl by assumption.
    cbn [fst snd].
    rewrite exec_cons_eq;
      cbv [step bind ret ring_read ck_pr_load_uint ck_pr_load_ptr
           ck_pr_store_ptr ck_pr_cas_uint_value slot_load];
      cbn [fst snd get_field].
    rewrite exec_Returned. cbn. repeat split; try lia. discriminate.
Qed.

(** A producer publishes a third entry while the two dequeues run on a ring
    of two entries: neither compare-and-swap fails. *)
Lemma spmc_dequeue_without_contention_witness :
  let w := mk_world (mk_ring 0 2 4 3) [11; 12; 0; 0] 0 0 in
  let produce : interference :=
    fun r s => (set_field P_TAIL 3 r, <[2%nat := 13%Z]> s) in
  let env := [quiet; quiet; produce; quiet; quiet; quiet] in
  Forall keeps_head env /\
  (6 <= length env)%nat /\
  exec env (At DqStart) w
  = ([RdMask 3; RdHead 0; RdTail 3; RdSlot 0 11; CasHead 0 1 true; WrData 11],
     Ok true (mk_world (mk_ring 1 3 4 3) [11; 12; 13; 0] 0 11)) /\
  cas_failures (fst (exec env (At DqStart) w)) = O /\
  (length (fst (exec env (At DqStart) w)) <= 6)%nat /\
  snd (exec env (At DqStart) w) <> OutOfFuel.
Proof.
  cbv zeta.
  assert (K : Forall keeps_head
                [quiet; quiet;
                 (fun r s => (set_field P_TAIL 3 r, <[2%nat := 13%Z]> s));
                 quiet; quiet; quiet])
    by (repeat constructor).
  assert (L : (6 <= length
                 [quiet; quiet;
                  (fun r s => (set_field P_TAIL 3 r, <[2%nat := 13%Z]> s));
                  quiet; quiet; quiet])%nat)
    by (cbn; lia).
  split; [exact K|]. split; [exact L|].
  split; [vm_compute; reflexivity|].
  exact (proj2 spmc_dequeue_without_contention _
           (mk_world (mk_ring 0 2 4 3) [11; 12; 0; 0] 0 0) K L).
Defined.

(** ** [ck_ring_dequeue_spsc] among other threads *)

Lemma spsc_exec_cons_eq f env p w :
  Spsc.exec (f :: env) (Spsc.At p) w
  = match Spsc.step p (interfere f w) with
    | Ok x w1 =>
        (fst x :: fst (Spsc.exec env (snd x) w1),
         snd (Spsc.exec env (snd x) w1))
    | Undefined => ([], Undefined)
    | OutOfFuel => ([], OutOfFuel)
    end.
Proof.
  cbn [Spsc.exec].
  destruct (Spsc.step p (interfere f w)) as [[a t'] w1| |]; try reflexivity.
  cbn [fst snd]. destruct (Spsc.exec env t' w1). reflexivity.
Qed.

Lemma spsc_exec_Returned env b w :
  Spsc.exec env (Spsc.Returned b) w = ([], Ok b w).
Proof. destruct env; reflexivity. Qed.





(** ** One producer and one consumer: the invariant *)









(** ** Indices stay inside the slot array *)

Lemma land_bounds a b : 0 <= b -> 0 <= Z.land a b <= b.
Proof.
  intros Hb. split; [apply Z.land_nonneg; now right|].
  assert (Hsum : b = Z.land a b + Z.ldiff b a).
  { rewrite Z.add_nocarry_lxor, Z.lxor_lor.
    - apply Z.bits_inj'. intros n Hn.
      rewrite Z.lor_spec, Z.land_spec, Z.ldiff_spec.
      destruct (Z.testbit a n), (Z.testbit b n); reflexivity.
    - apply Z.bits_inj'. intros n Hn.
      rewrite Z.land_spec, Z.land_spec, Z.ldiff_spec, Z.bits_0.
      destruct (Z.testbit a n), (Z.testbit b n); reflexivity.
    - apply Z.bits_inj'. intros n Hn.
      rewrite Z.land_spec, Z.land_spec, Z.ldiff_spec, Z.bits_0.
      destruct (Z.testbit a n), (Z.testbit b n); reflexivity. }
  assert (0 <= Z.ldiff b a) by (apply Z.ldiff_nonneg; now left).
  lia.
Qed.

Lemma in_bounds_index w n :
  in_bounds w ->
  (0 <=? Z.land n (mask (ring w))) = true /\
  (Z.land n (mask (ring w)) <? Z.of_nat (length (slots w))) = true /\
  exists v, slots w !! Z.to_nat (Z.land n (mask (ring w))) = Some v.
Proof.
  intros [H0 H1]. pose proof (land_bounds n _ H0) as [Hl Hu].
  split; [apply Z.leb_le; exact Hl|]. split; [apply Z.ltb_lt; lia|].
  apply lookup_lt_is_Some_2. lia.
Qed.

Lemma interfere_in_bounds f w :
  keeps_layout f -> in_bounds w ->
  in_bounds (interfere f w) /\ mask (ring (interfere f w)) = mask (ring w).
Proof.
  intros Hf Hw. destruct (Hf (ring w) (slots w)) as [Hm Hl].
  unfold in_bounds, interfere. cbn [ring slots]. rewrite Hm, Hl.
  split; [exact Hw|reflexivity].
Qed.

(** A step made in bounds is defined, leaves the layout as it is, and
    brings the call one step nearer to its return. *)
Lemma step_in_bounds p w :
  in_bounds w -> mask_ok w (point_mask p) ->
  exists a t w',
    step p w = Ok (a, t) w' /\
    in_bounds w' /\
    match t with
    | At q =>
        mask_ok w' (point_mask q) /\
        forall k, steps_left p = Some (S k) -> steps_left q = Some k
    | Returned _ => True
    end.
Proof.
  intros Hw Hm.
  destruct p; cbn [point_mask mask_ok] in Hm; subst;
    cbv [step bind ret ring_read ring_write ck_pr_load_uint ck_pr_store_uint
         ck_pr_load_ptr ck_pr_store_ptr ck_pr_cas_uint ck_pr_cas_uint_value
         slot_load slot_store get_field];
    try match goal with
        | |- context [slots w !! Z.to_nat (Z.land ?n _)] =>
            destruct (in_bounds_index w n Hw) as (Hi0 & Hi1 & v & Hv)
        | |- context [Z.land ?n _ <? _] =>
            destruct (in_bounds_index w n Hw) as (Hi0 & Hi1 & v & Hv)
        end;
    rewrite ?Hi0, ?Hi1, ?Hv; cbn [andb fst snd];
    try (destruct (_ =? _));
    do 3 eexists; (split; [reflexivity|]);
    (split; [try exact Hw|]);
    try exact I;
    try (split; [reflexivity|intros k [= <-]; reflexivity]);
    try (split; [exact I|intros k [= <-]; reflexivity]);
    try (split; [reflexivity|discriminate]);
    try (split; [exact I|discriminate]).
  all: unfold in_bounds in *; cbn [ring slots]; rewrite ?length_insert; exact Hw.
Qed.

Lemma spsc_step_in_bounds p w :
  in_bounds w -> mask_ok w (spsc_point_mask p) ->
  exists a t w',
    Spsc.step p w = Ok (a, t) w' /\
    in_bounds w' /\
    match t with
    | Spsc.At q =>
        mask_ok w' (spsc_point_mask q) /\
        spsc_steps_left p = S (spsc_steps_left q)
    | Spsc.Returned _ => True
    end.
Proof.
  intros Hw Hm.
  destruct p; cbn [spsc_point_mask mask_ok] in Hm; subst;
    cbv [Spsc.step bind ret ring_read ring_write ck_pr_load_uint
         ck_pr_store_uint ck_pr_store_ptr slot_load get_field];
    try match goal with
        | |- context [slots w !! Z.to_nat (Z.land ?n _)] =>
            destruct (in_bounds_index w n Hw) as (Hi0 & Hi1 & v & Hv)
        end;
    rewrite ?Hi0, ?Hv; cbn [fst snd];
    try (destruct (_ =? _));
    do 3 eexists; (split; [reflexivity|]);
    (split; [exact Hw|]);
    try exact I; split; try reflexivity; exact I.
Qed.

Lemma exec_in_bounds env : forall p w,
  Forall keeps_layout env -> in_bounds w -> mask_ok w (point_mask p) ->
  snd (exec env (At p) w) <> Undefined /\
  forall k, steps_left p = Some k -> (k <= length env)%nat ->
            exists b w', snd (exec env (At p) w) = Ok b w'.
Proof.
  induction env as [|f env IH]; intros p w Henv Hw Hm.
  - split; [discriminate|]. intros k Hk Hlen. cbn [length] in Hlen.
    destruct p; cbn [steps_left] in Hk; try discriminate;
      injection Hk as <-; lia.
  - apply Forall_cons in Henv as [Hf Henv].
    destruct (interfere_in_bounds f w Hf Hw) as [Hw1 Hm1].
    assert (Hm' : mask_ok (interfere f w) (point_mask p)).
    { destruct (point_mask p); [|exact I]. cbn [mask_ok] in *. now rewrite Hm1. }
    destruct (step_in_bounds p _ Hw1 Hm') as (a & t & w' & Hstep & Hw' & Ht).
    rewrite exec_cons_eq, Hstep. cbn [fst snd].
    destruct t as [q|b].
    + destruct Ht as [Hq Hk]. destruct (IH q w' Henv Hw' Hq) as [IH1 IH2].
      split; [exact IH1|]. intros k Hp Hlen. cbn [length] in Hlen.
      destruct k as [|k].
      { destruct p; cbn [steps_left] in Hp; discriminate. }
      apply (IH2 k); [apply Hk; exact Hp|lia].
    + rewrite exec_Returned. cbn [snd]. split; [discriminate|].
      intros; eauto.
Qed.

Lemma spsc_exec_in_bounds env : forall p w,
  Forall keeps_layout env -> in_bounds w -> mask_ok w (spsc_point_mask p) ->
  snd (Spsc.exec env (Spsc.At p) w) <> Undefined /\
  ((spsc_steps_left p <= length env)%nat ->
   exists b w', snd (Spsc.exec env (Spsc.At p) w) = Ok b w').
Proof.
  induction env as [|f env IH]; intros p w Henv Hw Hm.
  - split; [discriminate|]. intros Hlen. cbn [length] in Hlen.
    destruct p; cbn [spsc_steps_left] in Hlen; lia.
  - apply Forall_cons in Henv as [Hf Henv].
    destruct (interfere_in_bounds f w Hf Hw) as [Hw1 Hm1].
    assert (Hm' : mask_ok (interfere f w) (spsc_point_mask p)).
    { destruct (spsc_point_mask p); [|exact I]. cbn [mask_ok] in *. now rewrite Hm1. }
    destruct (spsc_step_in_bounds p _ Hw1 Hm') as (a & t & w' & Hstep & Hw' & Ht).
    rewrite spsc_exec_cons_eq, Hstep. cbn [fst snd].
    destruct t as [q|b].
    + destruct Ht as [Hq Hk]. destruct (IH q w' Henv Hw' Hq) as [IH1 IH2].
      split; [exact IH1|]. intros Hlen. cbn [length] in Hlen.
      apply IH2. lia.
    + rewrite spsc_exec_Returned. cbn [snd]. split; [discriminate|].
      intros; eauto.
Qed.

(** X11. When the buffer has more slots than [mask] and the other threads
    neither write [mask] nor resize the buffer, no call ever reads or
    writes outside the buffer, whatever the counters are worth (the ring
    need not even be well formed) and whatever the others do to them.
    [ck_ring_enqueue_spsc] returns within five of its own steps,
    [ck_ring_trydequeue_spmc] and [ck_ring_dequeue_spsc] within six. *)
Theorem calls_stay_in_bounds :
  forall env w,
    Forall keeps_layout env -> in_bounds w ->
    (forall e,
        snd (exec env (At (EnqStart e)) w) <> Undefined /\
        ((5 <= length env)%nat ->
         exists b w', snd (exec env (At (EnqStart e)) w) = Ok b w')) /\
    (snd (exec env (At TryStart) w) <> Undefined /\
     ((6 <= length env)%nat ->
      exists b w', snd (exec env (At TryStart) w) = Ok b w')) /\
    snd (exec env (At DqStart) w) <> Undefined /\
    (snd (Spsc.exec env (Spsc.At Spsc.DeqStart) w) <> Undefined /\
     ((6 <= length env)%nat ->
      exists b w', snd (Spsc.exec env (Spsc.At Spsc.DeqStart) w) = Ok b w')).
Proof.
  intros env w Henv Hw. repeat split.
  - apply exec_in_bounds; [assumption..|exact I].
  - intros Hlen.
    apply (proj2 (exec_in_bounds env (EnqStart e) w Henv Hw I) 5%nat);
      [reflexivity|exact Hlen].
  - apply exec_in_bounds; [assumption..|exact I].
  - intros Hlen.
    apply (proj2 (exec_in_bounds env TryStart w Henv Hw I) 6%nat);
      [reflexivity|exact Hlen].
  - apply exec_in_bounds; [assumption..|exact I].
  - apply spsc_exec_in_bounds; [assumption..|exact I].
  - intros Hlen.
    apply (proj2 (spsc_exec_in_bounds env Spsc.DeqStart w Henv Hw I)). exact Hlen.
Qed.

(** A ring whose counters make no sense, a buffer of four slots, and
    another thread that scrambles the counters and the slots: the enqueue
    still stores inside the buffer and returns. *)
Lemma calls_stay_in_bounds_witness :
  let w := mk_world (mk_ring 4000000000 77 4 3) [0; 0; 0; 0] 0 0 in
  let scramble : interference :=
    fun r s => (set_field C_HEAD 120 (set_field P_TAIL 4294967294 r),
                <[1%nat := 5]> s) in
  let env := [quiet; scramble; quiet; scramble; quiet; quiet] in
  (Forall keeps_layout env /\ in_bounds w) /\
  exec env (At (EnqStart 9)) w
  = ([RdMask 3; RdHead 120; RdTail 4294967294; WrSlot 2 9; WrTail 4294967295],
     Ok true (mk_world (mk_ring 120 4294967295 4 3) [0; 5; 9; 0] 0 0)) /\
  snd (exec env (At (EnqStart 9)) w) <> Undefined /\
  snd (exec env (At DqStart) w) <> Undefined.
Proof.
  cbv zeta.
  assert (K : Forall keeps_layout
                [quiet;
                 (fun r s => (set_field C_HEAD 120 (set_field P_TAIL 4294967294 r),
                              <[1%nat := 5]> s));
                 quiet;
                 (fun r s => (set_field C_HEAD 120 (set_field P_TAIL 4294967294 r),
                              <[1%nat := 5]> s));
                 quiet; quiet]).
  { repeat constructor; cbn [fst snd]; rewrite ?length_insert; reflexivity. }
  assert (B : in_bounds (mk_world (mk_ring 4000000000 77 4 3) [0; 0; 0; 0] 0 0)).
  { unfold in_bounds. cbn. lia. }
  split; [split; [exact K|exact B]|].
  split; [vm_compute; reflexivity|].
  split.
  - exact (proj1 (proj1 (calls_stay_in_bounds _ _ K B) 9)).
  - exact (proj1 (proj2 (proj2 (calls_stay_in_bounds _ _ K B)))).
Defined.

(** ** The loop of [ck_ring_dequeue_spmc] has no bound *)

Lemma uint_shift_ne c d :
  0 <= c < UINT_MOD -> 0 < d < UINT_MOD -> uint (c + d) <> c.
Proof.
  intros Hc Hd H. unfold uint in H.
  pose proof UINT_MOD_pos as Hpos.
  pose proof (Z.div_mod (c + d) UINT_MOD ltac:(lia)) as Hdm.
  rewrite H in Hdm.
  generalize dependent ((c + d) / UINT_MOD). generalize dependent UINT_MOD.
  intros m Hc Hd _ Hpos q Hdm.
  assert (Hq : q <= 0 \/ 1 <= q) by lia. destruct Hq; nia.
Qed.

Lemma overtake_keeps_layout : keeps_layout overtake.
Proof. intros r s. split; reflexivity. Qed.

Lemma overtaken_exec n : forall p w,
  in_bounds w -> overtaken p w ->
  snd (exec (repeat overtake n) (At p) w) = OutOfFuel /\
  (n <= 3 * cas_failures (fst (exec (repeat overtake n) (At p) w))
        + match p with
          | DqStart => 4
          | DqLoadHead _ => 3
          | DqLoadTail _ _ => 2
          | DqLoadSlot _ _ => 1
          | _ => 0
          end)%nat.
Proof.
  induction n as [|n IH]; intros p w Hw Hp.
  - split; [reflexivity|]. cbn. lia.
  - cbn [repeat]. rewrite exec_cons_eq.
    destruct (interfere_in_bounds _ w overtake_keeps_layout Hw) as [Hw1 Hm1].
    assert (Hh : c_head (ring (interfere overtake w)) = uint (c_head (ring w) + 1))
      by reflexivity.
    assert (Ht : p_tail (ring (interfere overtake w)) = uint (c_head (ring w) + 2))
      by reflexivity.
    assert (Hr : 0 <= uint (c_head (ring w) + 1) < UINT_MOD) by apply uint_range.
    set (w1 := interfere overtake w) in *.
    destruct p as [e|e m|e m c|e m p d|e d|e|e m|e m c|e m c p
                 | |m|m c|m c|c v|c| |m|m c|m c|m c r|r];
      try contradiction;
      cbv [step bind ret ring_read ck_pr_load_uint ck_pr_load_ptr
           ck_pr_cas_uint_value slot_load get_field].
    + (* mask = ring->mask *)
      cbn [fst snd].
      destruct (IH (DqLoadHead (mask (ring w1))) w1 Hw1 eq_refl) as [IH1 IH2].
      split; [exact IH1|]. cbn [cas_failures]. lia.
    + (* consumer = load(c_head) *)
      cbn [fst snd].
      assert (Hq : overtaken (DqLoadTail m (c_head (ring w1))) w1).
      { cbn [overtaken] in *. rewrite Hm1, Hh. auto. }
      destruct (IH _ w1 Hw1 Hq) as [IH1 IH2].
      split; [exact IH1|]. cbn [cas_failures]. lia.
    + (* producer = load(p_tail): one entry is there *)
      destruct Hp as (Hm & Hc & Hhead).
      rewrite Ht, Hhead.
      destruct (Z.eqb_spec c (uint (c + 2))) as [Heq|_].
      { exfalso. symmetry in Heq. revert Heq. apply uint_shift_ne; [exact Hc|].
        unfold UINT_MOD, W. lia. }
      cbn [fst snd].
      assert (Hq : overtaken (DqLoadSlot m c) w1).
      { cbn [overtaken]. rewrite Hm1, Hh, Hhead. auto. }
      destruct (IH _ w1 Hw1 Hq) as [IH1 IH2].
      split; [exact IH1|]. cbn [cas_failures]. lia.
    + (* r = load(ring_buf[consumer & mask]) *)
      destruct Hp as (Hm & Hc & Hhead).
      assert (Hmm : m = mask (ring w1)) by (rewrite Hm1; exact Hm).
      rewrite Hmm.
      destruct (in_bounds_index w1 c Hw1) as (Hi0 & _ & v & Hv).
      rewrite Hi0, Hv. cbn [fst snd].
      assert (Hq : overtaken (DqCas (mask (ring w1)) c v) w1).
      { cbn [overtaken]. rewrite Hh, Hhead, uint_uint_add.
        replace (c + 1 + 1) with (c + 2) by lia. auto. }
      destruct (IH _ w1 Hw1 Hq) as [IH1 IH2].
      split; [exact IH1|]. cbn [cas_failures]. lia.
    + (* the compare-and-swap finds [c_head] three further *)
      destruct Hp as (Hm & Hc & Hhead).
      rewrite Hh, Hhead, uint_uint_add.
      replace (c + 2 + 1) with (c + 3) by lia.
      destruct (Z.eqb_spec (uint (c + 3)) c) as [Heq|_].
      { exfalso. revert Heq. apply uint_shift_ne; [exact Hc|].
        unfold UINT_MOD, W. lia. }
      cbn [fst snd].
      assert (Hq : overtaken (DqLoadTail m (uint (c + 3))) w1).
      { cbn [overtaken]. rewrite Hm1, Hh, Hhead, uint_uint_add.
        replace (c + 2 + 1) with (c + 3) by lia.
        split; [exact Hm|]. split; [apply uint_range|reflexivity]. }
      destruct (IH _ w1 Hw1 Hq) as [IH1 IH2].
      split; [exact IH1|]. cbn [cas_failures]. lia.
Qed.

(** X12. [ck_ring_dequeue_spmc] is not wait-free: when between any two of its
    steps another consumer claims an entry and the producer enqueues one,
    every compare-and-swap fails, and the call has not returned after any
    number [n] of its own steps, at least [(n - 4) / 3] of which were
    failed compare-and-swaps. The entries it keeps reading are there: it
    never finds the ring empty. *)
Theorem dequeue_spmc_can_starve :
  forall n w,
    in_bounds w ->
    Forall keeps_layout (repeat overtake n) /\
    snd (exec (repeat overtake n) (At DqStart) w) = OutOfFuel /\
    (n <= 3 * cas_failures (fst (exec (repeat overtake n) (At DqStart) w)) + 4)%nat.
Proof.
  intros n w Hw. split.
  - apply Forall_forall. intros f Hf.
    apply list_elem_of_In, repeat_spec in Hf. subst f. apply overtake_keeps_layout.
  - exact (overtaken_exec n DqStart w Hw I).
Qed.

Lemma dequeue_spmc_can_starve_witness :
  let w := mk_world (mk_ring 0 1 4 3) [11; 0; 0; 0] 0 0 in
  in_bounds w /\
  fst (exec (repeat overtake 11) (At DqStart) w)
  = [RdMask 3; RdHead 2; RdTail 4; RdSlot 2 0; CasHead 2 3 false;
     RdTail 7; RdSlot 1 0; CasHead 5 6 false;
     RdTail 10; RdSlot 0 11; CasHead 8 9 false] /\
  snd (exec (repeat overtake 11) (At DqStart) w) = OutOfFuel /\
  (11 <= 3 * cas_failures (fst (exec (repeat overtake 11) (At DqStart) w)) + 4)%nat.
Proof.
  cbv zeta.
  assert (B : in_bounds (mk_world (mk_ring 0 1 4 3) [11; 0; 0; 0] 0 0)).
  { unfold in_bounds. cbn. lia. }
  split; [exact B|]. split; [vm_compute; reflexivity|].
  exact (proj2 (dequeue_spmc_can_starve 11 _ B)).
Defined.

(** ** What the counters and the slots hold while the threads run *)











(** ** [ck_ring_init] on any ring *)

(** X7. [ck_ring_init] makes an empty ring of whatever was there, without a
    look at the slot array, [*size] or [*data]: afterwards [ck_ring_size]
    is 0, [ck_ring_capacity] is the size given, as the [unsigned int] it
    is passed as (so modulo [2^W]), every dequeue returns false and changes
    nothing, and a second [ck_ring_init] changes nothing. The size is not
    checked: with size 1 the mask is 0 and every enqueue returns false;
    with size 0 the mask is [2^W - 1]. *)
Theorem init_resets_any_ring :
  forall n w,
    exists w0,
      Seq.ck_ring_init n w = Ok tt w0 /\
      slots w0 = slots w /\ out_size w0 = out_size w /\ out_data w0 = out_data w /\
      c_head (ring w0) = 0 /\ p_tail (ring w0) = 0 /\
      size (ring w0) = uint n /\ mask (ring w0) = uint (uint n - 1) /\
      Seq.ck_ring_size w0 = Ok 0 w0 /\
      Seq.ck_ring_capacity w0 = Ok (uint n) w0 /\
      (0 <= n < UINT_MOD -> Seq.ck_ring_capacity w0 = Ok n w0) /\
      Seq.ck_ring_dequeue_spsc w0 = Ok false w0 /\
      Seq.ck_ring_trydequeue_spmc w0 = Ok false w0 /\
      (forall fuel, Seq.ck_ring_dequeue_spmc (S fuel) w0 = Ok false w0) /\
      Seq.ck_ring_init n w0 = Ok tt w0 /\
      (uint n = 1 -> forall e, Seq.ck_ring_enqueue_spsc e w0 = Ok false w0) /\
      (uint n = 0 -> mask (ring w0) = UINT_MOD - 1).
Proof.
  intros n w. eexists. split; [apply init_eq|].
  repeat split.
  - intros Hn. cbv [Seq.ck_ring_capacity ring_read get_field ring size].
    now rewrite uint_small.
  - intros Hn e. rewrite enqueue_spsc_eq. unfold full. cbn [ring mask c_head p_tail].
    rewrite Hn. reflexivity.
  - intros Hn. cbn [ring mask]. rewrite Hn. reflexivity.
Qed.

(** A size of [2^32 + 4] is a size of 4. *)
Lemma init_resets_any_ring_witness :
  exists w0,
    Seq.ck_ring_init (UINT_MOD + 4) (mk_world (mk_ring 7 9 3 1) [5; 6; 7; 8] 2 3)
    = Ok tt w0 /\
    slots w0 = [5; 6; 7; 8] /\
    Seq.ck_ring_capacity w0 = Ok 4 w0 /\
    Seq.ck_ring_size w0 = Ok 0 w0.
Proof.
  destruct (init_resets_any_ring (UINT_MOD + 4)
              (mk_world (mk_ring 7 9 3 1) [5; 6; 7; 8] 2 3))
    as (w0 & Hinit & Hsl & _ & _ & _ & _ & _ & _ & Hsz & Hcap & _).
  exists w0. split; [exact Hinit|]. split; [exact Hsl|].
  split; [exact Hcap|exact Hsz].
Defined.

(** * The counters across calls and interleavings *)







